(** * DuelMath probability engine: a shallow embedding of [services/mathUtils.ts]

    The engine mixes two kinds of numbers.  Combination counts are JavaScript
    [bigint]s, embedded as [Z].  Everything else is a JavaScript [number], an
    IEEE 754 binary64 value.  Arguments that the callers pass as integers
    (deck sizes, hand sizes, round counts, ranks) are embedded as [Z]; every
    value produced by floating-point arithmetic is embedded as a [spec_float]
    of the Standard Library with precision 53 and maximal exponent 1024, so
    that rounding, overflow to [Infinity] and [NaN] are those of the program.

    The sums and differences the program takes of its integer arguments are
    doubles as well.  They are exact as long as they are doubles themselves,
    which they are up to [2^53] in absolute value, and [combinations], [solve]
    and [calculateMultivariateHyper] are embedded with these sums in [Z]: what
    is proved of them holds of the program on such arguments.  Where a
    statement depends on what happens past that bound the sums are embedded
    as the program takes them: in [calculateTopXProbability], and in
    [Doubles.calculateMultivariateHyper], which
    [calculateMultivariateHyper_agrees] shows equal to
    [calculateMultivariateHyper] whenever the sums are doubles. *)

From Stdlib Require Import ZArith List Lia Bool String.
From Stdlib Require Import SpecFloat.
From Stdlib Require Import QArith Qpower Lqa.
From stdpp Require Import gmap.
Import ListNotations.
Open Scope Z_scope.

(** ** JavaScript numbers *)

Module JS.

Definition number : Type := spec_float.

(** The binary64 format: 53 bits of precision, infinities at exponent 1024. *)
Definition prec : Z := 53.
Definition emax : Z := 1024.

(** [Number(z)] for a bigint [z], which is also how an integer argument enters
    floating-point arithmetic: rounding to nearest, ties to even, and
    [Infinity] past the largest double. *)
Definition Number (z : Z) : number := binary_normalize prec emax z 0 false.

Definition NaN : number := S754_nan.
Definition Infinity : number := S754_infinity false.

Definition add : number -> number -> number := SFadd prec emax.
Definition sub : number -> number -> number := SFsub prec emax.
Definition mul : number -> number -> number := SFmul prec emax.
Definition div : number -> number -> number := SFdiv prec emax.

(** Comparisons: false as soon as one side is [NaN]. *)
Definition le (x y : number) : bool := SFleb x y.
Definition lt (x y : number) : bool := SFltb x y.

(** [2 ** n] for an integer [n]: exact while representable, [Infinity] from
    [n = 1024] on. *)
Definition pow2 (n : Z) : number := SFldexp prec emax (Number 1) n.

Definition is_nan (x : number) : bool :=
  match x with S754_nan => true | _ => false end.

Definition is_zero (x : number) : bool :=
  match x with S754_zero _ => true | _ => false end.

(** [v || 0] for a value read from an object: [undefined], [NaN] and both
    zeros are falsy. *)
Definition or_zero (v : option number) : number :=
  match v with
  | Some x => if is_nan x || is_zero x then Number 0 else x
  | None => Number 0
  end.

(** [Math.floor] and [Math.ceil]. *)
Definition floor (x : number) : number :=
  match x with
  | S754_finite s m e =>
      if 0 <=? e then x
      else if s then Number (- ((Z.pos m + 2 ^ (- e) - 1) / 2 ^ (- e)))
      else Number (Z.pos m / 2 ^ (- e))
  | _ => x
  end.

Definition ceil (x : number) : number :=
  match x with
  | S754_finite s m e =>
      if 0 <=? e then x
      else if s then
        match Z.pos m / 2 ^ (- e) with
        | 0 => S754_zero true
        | q => Number (- q)
        end
      else Number ((Z.pos m + 2 ^ (- e) - 1) / 2 ^ (- e))
  | _ => x
  end.

(** [Math.max] of two numbers. *)
Definition max (x y : number) : number :=
  if is_nan x || is_nan y then NaN
  else if lt x y then y
  else if lt y x then x
  else match x, y with
       | S754_zero true, S754_zero false => y
       | _, _ => x
       end.

(** [parseFloat(x.toFixed(2))].  [toFixed] prints [NaN] and the infinities by
    name and a magnitude of at least [1e21] in full; otherwise it prints the
    integer [n] closest to [|x| * 100] (the larger one on a tie) with two
    decimals, and [parseFloat] reads [n / 100] back as the nearest double. *)
Definition at_least_1e21 (m : positive) (e : Z) : bool :=
  if 0 <=? e then 10 ^ 21 <=? Z.pos m * 2 ^ e
  else 10 ^ 21 * 2 ^ (- e) <=? Z.pos m.

Definition hundredths (m : positive) (e : Z) : Z :=
  if 0 <=? e then Z.pos m * 2 ^ e * 100
  else (2 * (Z.pos m * 100) + 2 ^ (- e)) / 2 ^ (- e + 1).

Definition toFixed2 (x : number) : number :=
  match x with
  | S754_zero _ => S754_zero false
  | S754_finite s m e =>
      if at_least_1e21 m e then x
      else match hundredths m e with
           | Z.pos n => div (S754_finite s n 0) (Number 100)
           | _ => S754_zero s
           end
  | _ => x
  end.

End JS.

(** The integer a finite double with an integral value stands for: what
    [BigInt(x)], an array index or a loop bound make of such an [x]. *)
Definition to_integer (x : JS.number) : Z :=
  match x with
  | S754_finite s m e => cond_Zopp s (Z.shiftl (Z.pos m) e)
  | _ => 0
  end.

(** ** Exact combinatorics *)

(** The loop of [combinations]: [res = (res * BigInt(n - i + 1)) / BigInt(i)]
    for [i] from [1] to [k]; bigint division truncates. *)
Fixpoint combinations_loop (fuel : nat) (n i res : Z) : Z :=
  match fuel with
  | O => res
  | S fuel' => combinations_loop fuel' n (i + 1) (Z.quot (res * (n - i + 1)) i)
  end.

(** The key [`${n},${k}`] after the symmetry reduction. *)
Definition reduced_k (n k : Z) : Z := if n <? 2 * k then n - k else k.

(** [combinations] without its cache.  The cache only saves work
    ([combinations_memo_correct] below), so the callers are embedded over
    this function. *)
Definition combinations (n k : Z) : Z :=
  if (k <? 0) || (n <? k) then 0
  else if (k =? 0) || (k =? n) then 1
  else
    let k := reduced_k n k in
    combinations_loop (Z.to_nat k) n 1 1.

(** [combinations] as written, threading [comboMemo].  The string key
    [`${n},${k}`] determines the pair [(n, k)] and is embedded as that pair.
    A cached bigint is returned only when it is truthy, that is non-zero. *)
Definition combinations_memo (comboMemo : gmap (Z * Z) Z) (n k : Z)
  : Z * gmap (Z * Z) Z :=
  if (k <? 0) || (n <? k) then (0, comboMemo)
  else if (k =? 0) || (k =? n) then (1, comboMemo)
  else
    let k := reduced_k n k in
    let key := (n, k) in
    match comboMemo !! key with
    | Some cached =>
        if negb (cached =? 0) then (cached, comboMemo)
        else
          let res := combinations_loop (Z.to_nat k) n 1 1 in
          (res, <[key := res]> comboMemo)
    | None =>
        let res := combinations_loop (Z.to_nat k) n 1 1 in
        (res, <[key := res]> comboMemo)
    end.

(** Every cached entry is the value the loop computes for its key. *)
Definition memo_ok (comboMemo : gmap (Z * Z) Z) : Prop :=
  forall n k v, comboMemo !! (n, k) = Some v ->
                v = combinations_loop (Z.to_nat k) n 1 1.

(** ** Multivariate constrained hypergeometric solver *)

Record HyperGroup : Type := {
  id : string;
  name : string;
  countInDeck : Z;
  minDesired : Z;
  maxDesired : Z
}.

(** [for (let i = start; ...; i++) acc = body(i, acc)], run [fuel] times. *)
Fixpoint for_up {A : Type} (body : Z -> A -> A) (fuel : nat) (i : Z) (acc : A) : A :=
  match fuel with
  | O => acc
  | S fuel' => for_up body fuel' (i + 1) (body i acc)
  end.

(** The recursive closure [solve].  Its first argument is the part of
    [groups] from [groupIndex] on, so that [groupIndex === groups.length] is
    the empty list; the last argument and the result are the value of the
    captured variable [totalSuccessfulCombinations] before and after the
    call. *)
Fixpoint solve (otherCount : Z) (groups : list HyperGroup)
    (remainingHand currentWays totalSuccessfulCombinations : Z) : Z :=
  if remainingHand <? 0 then totalSuccessfulCombinations
  else
    match groups with
    | [] =>
        if remainingHand <=? otherCount then
          totalSuccessfulCombinations
          + currentWays * combinations otherCount remainingHand
        else totalSuccessfulCombinations
    | group :: rest =>
        let minTake := Z.max 0 (minDesired group) in
        let maxTake :=
          Z.min (Z.min remainingHand (countInDeck group)) (maxDesired group) in
        for_up
          (fun take total =>
             let ways := combinations (countInDeck group) take in
             if 0 <? ways then
               solve otherCount rest (remainingHand - take) (currentWays * ways) total
             else total)
          (Z.to_nat (maxTake - minTake + 1)) minTake totalSuccessfulCombinations
    end.

(** [(Number(a) / Number(b)) * 100], the final conversion of the solver. *)
Definition percentage (a b : Z) : JS.number :=
  JS.mul (JS.div (JS.Number a) (JS.Number b)) (JS.Number 100).

Definition calculateMultivariateHyper (deckSize handSize : Z)
    (groups : list HyperGroup) : JS.number :=
  if (deckSize <? handSize) || (handSize <? 0) then JS.Number 0
  else
    let totalInGroups := fold_left (fun acc g => acc + countInDeck g) groups 0 in
    if deckSize <? totalInGroups then JS.Number 0
    else
      let otherCount := deckSize - totalInGroups in
      let totalCombinations := combinations deckSize handSize in
      if totalCombinations =? 0 then JS.Number 0
      else
        let totalSuccessfulCombinations := solve otherCount groups handSize 1 0 in
        percentage totalSuccessfulCombinations totalCombinations.

(** The same function with [totalInGroups] and [otherCount] as the program
    computes them: the counts are added one by one as doubles, each sum
    rounded to the nearest double, and so is the difference.  The difference
    is read as an integer, which it is whenever the sum is finite. *)
Module Doubles.

Definition calculateMultivariateHyper (deckSize handSize : Z)
    (groups : list HyperGroup) : JS.number :=
  if (deckSize <? handSize) || (handSize <? 0) then JS.Number 0
  else
    let totalInGroups :=
      fold_left (fun acc g => JS.add acc (JS.Number (countInDeck g))) groups
        (JS.Number 0) in
    if JS.lt (JS.Number deckSize) totalInGroups then JS.Number 0
    else
      let otherCount :=
        to_integer (JS.sub (JS.Number deckSize) totalInGroups) in
      let totalCombinations := combinations deckSize handSize in
      if totalCombinations =? 0 then JS.Number 0
      else
        let totalSuccessfulCombinations := solve otherCount groups handSize 1 0 in
        percentage totalSuccessfulCombinations totalCombinations.

End Doubles.

(** ** Draw-probability table *)

Record ProbabilityRow : Type := {
  drawCount : Z;
  exact : JS.number;
  cumulativeAtLeast : JS.number
}.

Definition tmp_group (targetCount lo hi : Z) : HyperGroup :=
  {| id := "tmp"; name := "tmp"; countInDeck := targetCount;
     minDesired := lo; maxDesired := hi |}.

Fixpoint calculateProbabilities_loop (fuel : nat)
    (deckSize targetCount handSize i : Z) : list ProbabilityRow :=
  match fuel with
  | O => []
  | S fuel' =>
      let exactProb :=
        calculateMultivariateHyper deckSize handSize [tmp_group targetCount i i] in
      let atLeastProb :=
        calculateMultivariateHyper deckSize handSize
          [tmp_group targetCount i handSize] in
      {| drawCount := i;
         exact := JS.toFixed2 exactProb;
         cumulativeAtLeast := JS.toFixed2 atLeastProb |}
      :: calculateProbabilities_loop fuel' deckSize targetCount handSize (i + 1)
  end.

Definition calculateProbabilities (deckSize targetCount handSize : Z)
  : list ProbabilityRow :=
  let maxPossible := Z.min targetCount handSize in
  calculateProbabilities_loop (Z.to_nat (maxPossible + 1))
    deckSize targetCount handSize 0.

(** ** Swiss standings *)

Record SwissStanding : Type := {
  wins : Z;
  losses : Z;
  count : JS.number;
  lowerBound : JS.number;
  upperBound : JS.number
}.

(** One iteration of the loop of [calculateSwissStandings]. *)
Definition standing (numPlayers numRounds w : Z) : SwissStanding :=
  let totalCombinations := JS.pow2 numRounds in
  let ways := JS.Number (combinations numRounds w) in
  let exactProb := JS.div ways totalCombinations in
  let cnt := JS.mul exactProb (JS.Number numPlayers) in
  let lo := JS.floor cnt in
  {| wins := w; losses := numRounds - w; count := cnt;
     lowerBound := lo; upperBound := JS.max lo (JS.ceil cnt) |}.

(** [for (let wins = numRounds; wins >= 0; wins--)]. *)
Fixpoint calculateSwissStandings_loop (fuel : nat)
    (numPlayers numRounds w : Z) : list SwissStanding :=
  match fuel with
  | O => []
  | S fuel' =>
      standing numPlayers numRounds w
      :: calculateSwissStandings_loop fuel' numPlayers numRounds (w - 1)
  end.

Definition calculateSwissStandings (numPlayers numRounds : Z)
  : list SwissStanding :=
  calculateSwissStandings_loop (Z.to_nat (numRounds + 1))
    numPlayers numRounds numRounds.

(** ** Top-rank qualification estimator *)

(** The chance the first loop of [calculateTopXProbability] assigns to a
    bucket, from the cumulative count before it and its own size. *)
Definition bucket_chance (targetRank prevCumulative playersAtThisRecord : JS.number)
  : JS.number :=
  let cumulativePlayers := JS.add prevCumulative playersAtThisRecord in
  if JS.le cumulativePlayers targetRank then JS.Number 1
  else if JS.lt prevCumulative targetRank then
    JS.div (JS.sub targetRank prevCumulative) playersAtThisRecord
  else JS.Number 0.

(** The first loop: it fills [makeItChanceMap], keyed by win count. *)
Fixpoint makeItChance_loop (standings : list SwissStanding)
    (targetRank cumulativePlayers : JS.number)
    (makeItChanceMap : gmap Z JS.number) : gmap Z JS.number :=
  match standings with
  | [] => makeItChanceMap
  | s :: rest =>
      let playersAtThisRecord := count s in
      let prevCumulative := cumulativePlayers in
      let cumulativePlayers := JS.add cumulativePlayers playersAtThisRecord in
      makeItChance_loop rest targetRank cumulativePlayers
        (<[wins s := bucket_chance targetRank prevCumulative playersAtThisRecord]>
           makeItChanceMap)
  end.

(** The map as it stands when the first loop of
    [calculateTopXProbability totalPlayers totalRounds targetRank _ _] ends. *)
Definition makeItChanceMap (totalPlayers totalRounds targetRank : Z)
  : gmap Z JS.number :=
  makeItChance_loop (calculateSwissStandings totalPlayers totalRounds)
    (JS.Number targetRank) (JS.Number 0) ∅.

(** The second loop: the player's own outcomes over the remaining rounds.
    [currentWins + i] is a sum of doubles. *)
Definition outcome_step (chances : gmap Z JS.number)
    (remainingRounds currentWins : Z) (denominator : JS.number)
    (i : Z) (totalProbability : JS.number) : JS.number :=
  let finalWins := to_integer (JS.add (JS.Number currentWins) (JS.Number i)) in
  let probGettingMoreWins :=
    JS.div (JS.Number (combinations remainingRounds i)) denominator in
  let chanceOfMakingItAtThatRecord := JS.or_zero (chances !! finalWins) in
  JS.add totalProbability (JS.mul probGettingMoreWins chanceOfMakingItAtThatRecord).

(** [remainingRounds] is [totalRounds - (currentWins + currentLosses)] in
    double arithmetic: the sum is rounded, then the difference.  Past the two
    early returns it is read as an integer, which it is whenever it is
    finite; the loop of the program does not end when it is [Infinity]. *)
Definition calculateTopXProbability
    (totalPlayers totalRounds targetRank currentWins currentLosses : Z)
  : JS.number :=
  let remainingRounds :=
    JS.sub (JS.Number totalRounds)
      (JS.add (JS.Number currentWins) (JS.Number currentLosses)) in
  if JS.lt remainingRounds (JS.Number 0) then JS.Number 0
  else if totalPlayers <=? targetRank then JS.Number 100
  else
    let chances := makeItChanceMap totalPlayers totalRounds targetRank in
    let rounds := to_integer remainingRounds in
    let denominator := JS.pow2 rounds in
    let totalProbability :=
      for_up (outcome_step chances rounds currentWins denominator)
        (Z.to_nat (rounds + 1)) 0 (JS.Number 0) in
    JS.toFixed2 (JS.mul totalProbability (JS.Number 100)).

(** ** Reference notions used in the statements *)

(** Pascal's triangle: the number of [k]-subsets of an [n]-set. *)
Fixpoint binom (n k : nat) : Z :=
  match n, k with
  | _, O => 1
  | O, S _ => 0
  | S n', S k' => binom n' k' + binom n' k
  end.

(** The binomial coefficient on integers, zero outside [0 <= k <= n]. *)
Definition binomial (n k : Z) : Z :=
  if (n <? 0) || (k <? 0) then 0 else binom (Z.to_nat n) (Z.to_nat k).

Definition Zsum (l : list Z) : Z := fold_right Z.add 0 l.

(** [lo; lo + 1; ...], [len] entries, and the integers from [lo] to [hi]. *)
Fixpoint Zrange (lo : Z) (len : nat) : list Z :=
  match len with
  | O => []
  | S len' => lo :: Zrange (lo + 1) len'
  end.

Definition interval (lo hi : Z) : list Z := Zrange lo (Z.to_nat (hi - lo + 1)).

(** [hi; hi - 1; ...], [len] entries. *)
Fixpoint Zrange_down (hi : Z) (len : nat) : list Z :=
  match len with
  | O => []
  | S len' => hi :: Zrange_down (hi - 1) len'
  end.



Definition within_bounds (g : HyperGroup) (take : Z) : Prop :=
  minDesired g <= take <= maxDesired g.

(** All tuples [(take_g)] with [minDesired_g <= take_g <= maxDesired_g], one
    entry per group, in group order. *)
Fixpoint allocations (groups : list HyperGroup) : list (list Z) :=
  match groups with
  | [] => [[]]
  | g :: rest =>
      flat_map (fun take => map (cons take) (allocations rest))
        (interval (minDesired g) (maxDesired g))
  end.

(** The hand holds the tuple, and the remainder holds the rest of the hand. *)
Definition feasible (handSize otherCount : Z) (takes : list Z) : bool :=
  (Zsum takes <=? handSize) && (handSize - Zsum takes <=? otherCount).

(** The product over the groups of [C(countInPool_g, take_g)]. *)
Fixpoint group_ways (groups : list HyperGroup) (takes : list Z) : Z :=
  match groups, takes with
  | g :: rest, take :: takes' =>
      binomial (countInDeck g) take * group_ways rest takes'
  | _, _ => 1
  end.

(** The ways of one tuple, the rest of the hand coming from the remainder. *)
Definition tuple_ways (handSize otherCount : Z) (groups : list HyperGroup)
    (takes : list Z) : Z :=
  group_ways groups takes * binomial otherCount (handSize - Zsum takes).

(** The sum [S] over the feasible tuples, for a given hand and remainder. *)
Definition ways_from (handSize otherCount : Z) (groups : list HyperGroup) : Z :=
  Zsum (map (tuple_ways handSize otherCount groups)
          (List.filter (feasible handSize otherCount) (allocations groups))).

Definition successful_ways (poolSize handSize : Z) (groups : list HyperGroup) : Z :=
  ways_from handSize (poolSize - Zsum (map countInDeck groups)) groups.

(** The sum of the [count] fields, accumulated from [0] in list order. *)
Definition total_count (standings : list SwissStanding) : JS.number :=
  fold_left (fun acc s => JS.add acc (count s)) standings (JS.Number 0).

(** [|x - y| <= tol] in double arithmetic. *)
Definition within (tol x y : JS.number) : bool :=
  JS.le (SFabs (JS.sub x y)) tol.

(** [1e-6] as the nearest double. *)
Definition tolerance : JS.number := JS.div (JS.Number 1) (JS.Number 1000000).

Definition is_finite (x : JS.number) : bool :=
  match x with S754_finite _ _ _ => true | _ => false end.

(** Each value is at most the one before it. *)
Fixpoint non_increasing (l : list JS.number) : bool :=
  match l with
  | x :: (y :: _) as rest => JS.le y x && non_increasing rest
  | _ => true
  end.

(** The running total of [cumulativePlayers] before bucket [i]. *)
Definition cumulative_before (standings : list SwissStanding) (i : nat) : JS.number :=
  total_count (firstn i standings).

(** [C(deckSize, handSize)] converts to a finite double. *)
Definition finite_total (deckSize handSize : Z) : bool :=
  is_finite (JS.Number (combinations deckSize handSize)).


(** ** Further reference notions *)

Fixpoint factorial (n : nat) : Z :=
  match n with
  | O => 1
  | S n' => Z.of_nat n * factorial n'
  end.

(** A group with its bounds widened to everything a hand can hold. *)
Definition unconstrained (handSize : Z) (g : HyperGroup) : HyperGroup :=
  {| id := id g; name := name g; countInDeck := countInDeck g;
     minDesired := 0; maxDesired := handSize |}.



(** ** JavaScript strings *)

(** A string is its sequence of UTF-16 code units. *)
Module Str.

Definition lit (s : string) : list Z :=
  map (fun a => Z.of_N (Ascii.N_of_ascii a)) (list_ascii_of_string s).

(** The white space and line terminators that [trim] and [parseInt] strip. *)
Definition is_whitespace (c : Z) : bool :=
  existsb (Z.eqb c)
    [9; 10; 11; 12; 13; 32; 160; 5760; 8232; 8233; 8239; 8287; 12288; 65279]
  || ((8192 <=? c) && (c <=? 8202)).

Fixpoint trimStart (s : list Z) : list Z :=
  match s with
  | c :: rest => if is_whitespace c then trimStart rest else s
  | [] => []
  end.

Definition trimEnd (s : list Z) : list Z := rev (trimStart (rev s)).

Definition trim (s : list Z) : list Z := trimEnd (trimStart s).

Fixpoint startsWith (s prefix : list Z) : bool :=
  match prefix, s with
  | [], _ => true
  | p :: prefix', c :: s' => (c =? p) && startsWith s' prefix'
  | _ :: _, [] => false
  end.

(** [s.split(sep)] for a separator of one code unit. *)
Fixpoint split (sep : Z) (s : list Z) : list (list Z) :=
  match s with
  | [] => [[]]
  | c :: rest =>
      if c =? sep then [] :: split sep rest
      else match split sep rest with
           | line :: lines => (c :: line) :: lines
           | [] => [[c]]
           end
  end.

(** [lines.join(sep)]. *)
Fixpoint join (sep : Z) (lines : list (list Z)) : list Z :=
  match lines with
  | [] => []
  | [line] => line
  | line :: rest => line ++ sep :: join sep rest
  end.

Definition digit (c : Z) : option Z :=
  if (48 <=? c) && (c <=? 57) then Some (c - 48) else None.

(** The values of the longest prefix of decimal digits. *)
Fixpoint digits_prefix (s : list Z) : list Z :=
  match s with
  | c :: rest =>
      match digit c with
      | Some d => d :: digits_prefix rest
      | None => []
      end
  | [] => []
  end.

Definition integer_value (digits : list Z) : Z :=
  fold_left (fun acc d => acc * 10 + d) digits 0.

(** [parseInt(s, 10)]: leading white space, an optional sign, then the
    longest run of digits; [NaN] without a digit, and a signed zero.  The
    digits are taken exactly. *)
Definition parseInt (s : list Z) : JS.number :=
  let s := trimStart s in
  let '(negative, s) :=
    match s with
    | c :: rest =>
        if c =? 45 then (true, rest)
        else if c =? 43 then (false, rest)
        else (false, s)
    | [] => (false, s)
    end in
  match digits_prefix s with
  | [] => JS.NaN
  | digits =>
      let mathInt := integer_value digits in
      if mathInt =? 0 then S754_zero negative
      else JS.Number (if negative then - mathInt else mathInt)
  end.

(** The decimal digits of [n >= 0], least significant first. *)
Fixpoint digits_rev (fuel : nat) (n : Z) : list Z :=
  match fuel with
  | O => []
  | S fuel' =>
      if n <? 10 then [n] else (n mod 10) :: digits_rev fuel' (n / 10)
  end.

(** [String(z)] for an integer [z] of magnitude below [1e21]: its decimal
    notation. *)
Definition toString (z : Z) : list Z :=
  let magnitude := Z.abs z in
  let digits := rev (digits_rev (S (Z.to_nat (Z.log2 magnitude))) magnitude) in
  (if z <? 0 then [45] else []) ++ map (fun d => d + 48) digits.

End Str.

(** ** The deck file: [parseYDK] and [exportYDK] *)

Record DeckData : Type := {
  main : list JS.number;
  extra : list JS.number;
  side : list JS.number
}.

Inductive section_name : Type := in_main | in_extra | in_side.

(** [deck[currentSection].push(id)]. *)
Definition push_id (deck : DeckData) (currentSection : section_name)
    (i : JS.number) : DeckData :=
  match currentSection with
  | in_main => {| main := main deck ++ [i]; extra := extra deck; side := side deck |}
  | in_extra => {| main := main deck; extra := extra deck ++ [i]; side := side deck |}
  | in_side => {| main := main deck; extra := extra deck; side := side deck ++ [i] |}
  end.

(** One turn of the loop over the lines: the deck and [currentSection]
    before and after. *)
Definition parseYDK_line (state : DeckData * option section_name)
    (line : list Z) : DeckData * option section_name :=
  let '(deck, currentSection) := state in
  match line with
  | [] => state
  | _ =>
      if Str.startsWith line (Str.lit "#main") then (deck, Some in_main)
      else if Str.startsWith line (Str.lit "#extra") then (deck, Some in_extra)
      else if Str.startsWith line (Str.lit "!side") then (deck, Some in_side)
      else
        let i := Str.parseInt line in
        match currentSection with
        | Some current =>
            if negb (JS.is_nan i) then (push_id deck current i, currentSection)
            else state
        | None => state
        end
  end.

Definition empty_deck : DeckData := {| main := []; extra := []; side := [] |}.

Definition parseYDK (content : list Z) : DeckData :=
  let lines := map Str.trim (Str.split 10 content) in
  fst (fold_left parseYDK_line lines (empty_deck, None)).

(** A card as the deck builder reads it; its pictures and statistics are
    only displayed.  Identifiers are integers. *)
Module Card.
Record t : Type := {
  id : Z;
  name : list Z;
  type : list Z;
  desc : list Z;
  ban_tcg : option (list Z)
}.
End Card.

(** The text [exportYDK] builds from [mainDeck], [extraDeck] and [sideDeck]
    before it is offered as a download. *)
Definition exportYDK (mainDeck extraDeck sideDeck : list Card.t) : list Z :=
  Str.join 10
    ([Str.lit "#created by DuelMath"; Str.lit "#main"]
     ++ map (fun c => Str.toString (Card.id c)) mainDeck
     ++ [Str.lit "#extra"]
     ++ map (fun c => Str.toString (Card.id c)) extraDeck
     ++ [Str.lit "!side"]
     ++ map (fun c => Str.toString (Card.id c)) sideDeck).

(** The file with every line feed preceded by a carriage return. *)
Fixpoint crlf (content : list Z) : list Z :=
  match content with
  | [] => []
  | c :: rest => if c =? 10 then 13 :: 10 :: crlf rest else c :: crlf rest
  end.

(** Every identifier of the deck is a number. *)
Definition all_numbers (deck : DeckData) : Prop :=
  Forall (fun i => JS.is_nan i = false) (main deck ++ extra deck ++ side deck).

(** ** The deck builder *)

Module DeckBuilder.

Inductive SectionType : Type := Main | Extra | Side | Considerations.

(** The second argument of [addCard]: ['auto'] or a section. *)
Inductive Target : Type := Auto | Into (section : SectionType).

(** The four lists the component keeps. *)
Record Decks : Type := {
  mainDeck : list Card.t;
  extraDeck : list Card.t;
  sideDeck : list Card.t;
  considerations : list Card.t
}.

(** [s.includes(needle)]. *)
Fixpoint includes (s needle : list Z) : bool :=
  Str.startsWith s needle
  || match s with
     | [] => false
     | _ :: rest => includes rest needle
     end.

(** [array.filter((_, i) => i !== index)], the positions counted from
    [position]. *)
Fixpoint without_index {A : Type} (index position : Z) (l : list A) : list A :=
  match l with
  | [] => []
  | x :: rest =>
      if position =? index then without_index index (position + 1) rest
      else x :: without_index index (position + 1) rest
  end.

Section WithUpperCase.

(** [String.prototype.toUpperCase], which follows the Unicode tables, is left
    open: what is proved holds for whatever it returns. *)
Variable toUpperCase : list Z -> list Z.

Definition isExtraDeckCard (card : Card.t) : bool :=
  existsb
    (fun t => includes (toUpperCase (Card.type card)) (toUpperCase t))
    [Str.lit "Fusion"; Str.lit "Synchro"; Str.lit "XYZ"; Str.lit "Link";
     Str.lit "Token"].

(** The copies of the card's name in the main, extra and side decks. *)
Definition copies (decks : Decks) (cardName : list Z) : Z :=
  Z.of_nat
    (length
       (List.filter (fun c => bool_decide (Card.name c = cardName))
          (mainDeck decks ++ extraDeck decks ++ sideDeck decks))).

Definition checkDeckLimit (decks : Decks) (card : Card.t) : bool :=
  let countInDeck := copies decks (Card.name card) in
  let banStatus := Card.ban_tcg card in
  if bool_decide (banStatus = Some (Str.lit "Forbidden")) then false
  else if bool_decide (banStatus = Some (Str.lit "Limited")) && (1 <=? countInDeck)
  then false
  else if bool_decide (banStatus = Some (Str.lit "Semi-Limited"))
          && (2 <=? countInDeck)
  then false
  else countInDeck <? 3.

Definition addCard (decks : Decks) (card : Card.t) (target : Target) : Decks :=
  match target with
  | Into Considerations =>
      {| mainDeck := mainDeck decks; extraDeck := extraDeck decks;
         sideDeck := sideDeck decks;
         considerations := considerations decks ++ [card] |}
  | _ =>
      if negb (checkDeckLimit decks card) then decks
      else
        match target with
        | Into Side =>
            if Z.of_nat (length (sideDeck decks)) <? 15 then
              {| mainDeck := mainDeck decks; extraDeck := extraDeck decks;
                 sideDeck := sideDeck decks ++ [card];
                 considerations := considerations decks |}
            else decks
        | _ =>
            if isExtraDeckCard card then
              if Z.of_nat (length (extraDeck decks)) <? 15 then
                {| mainDeck := mainDeck decks;
                   extraDeck := extraDeck decks ++ [card];
                   sideDeck := sideDeck decks;
                   considerations := considerations decks |}
              else decks
            else
              if Z.of_nat (length (mainDeck decks)) <? 60 then
                {| mainDeck := mainDeck decks ++ [card];
                   extraDeck := extraDeck decks;
                   sideDeck := sideDeck decks;
                   considerations := considerations decks |}
              else decks
        end
  end.

End WithUpperCase.

Definition removeCard (decks : Decks) (index : Z) (section : SectionType) : Decks :=
  match section with
  | Main =>
      {| mainDeck := without_index index 0 (mainDeck decks);
         extraDeck := extraDeck decks; sideDeck := sideDeck decks;
         considerations := considerations decks |}
  | Extra =>
      {| mainDeck := mainDeck decks;
         extraDeck := without_index index 0 (extraDeck decks);
         sideDeck := sideDeck decks; considerations := considerations decks |}
  | Side =>
      {| mainDeck := mainDeck decks; extraDeck := extraDeck decks;
         sideDeck := without_index index 0 (sideDeck decks);
         considerations := considerations decks |}
  | Considerations =>
      {| mainDeck := mainDeck decks; extraDeck := extraDeck decks;
         sideDeck := sideDeck decks;
         considerations := without_index index 0 (considerations decks) |}
  end.

Definition getSectionData (decks : Decks) (section : SectionType) : list Card.t :=
  match section with
  | Main => mainDeck decks
  | Extra => extraDeck decks
  | Side => sideDeck decks
  | Considerations => considerations decks
  end.

(** The most copies of a card its ban status allows. *)
Definition allowed (card : Card.t) : Z :=
  if bool_decide (Card.ban_tcg card = Some (Str.lit "Forbidden")) then 0
  else if bool_decide (Card.ban_tcg card = Some (Str.lit "Limited")) then 1
  else if bool_decide (Card.ban_tcg card = Some (Str.lit "Semi-Limited")) then 2
  else 3.

(** The size limits of the three decks. *)
Definition within_sizes (decks : Decks) : Prop :=
  (length (mainDeck decks) <= 60)%nat
  /\ (length (extraDeck decks) <= 15)%nat
  /\ (length (sideDeck decks) <= 15)%nat.

End DeckBuilder.

(** ** The application: side-deck swaps and the dashboard table *)

Module App.

Record Counts : Type := { main : Z; extra : Z; side : Z }.

Record DeckAnalysis : Type := {
  mainDetails : list Card.t;
  extraDetails : list Card.t;
  sideDetails : list Card.t;
  counts : Counts
}.

(** The state [confirmSwap] reads and writes.  A [Set<number>] is the list
    of its elements in insertion order, the order of [Array.from], without
    repetition. *)
Record SwapState : Type := {
  deckAnalysis : option DeckAnalysis;
  swapOutIndices : list nat;
  swapInIndices : list nat;
  isSideDeckMode : bool
}.

Definition has (set : list nat) (idx : nat) : bool := existsb (Nat.eqb idx) set.

(** [array.filter((_, idx) => keep(idx))], the positions counted from
    [position]. *)
Fixpoint filter_index {A : Type} (keep : nat -> bool) (position : nat)
    (l : list A) : list A :=
  match l with
  | [] => []
  | x :: rest =>
      if keep position then x :: filter_index keep (S position) rest
      else filter_index keep (S position) rest
  end.

Section WithUndefined.

(** What reading an array past its end gives. *)
Variable undefined : Card.t.

Definition confirmSwap (state : SwapState) : SwapState :=
  match deckAnalysis state with
  | None => state
  | Some analysis =>
      if negb (length (swapInIndices state) =? length (swapOutIndices state))%nat
      then state
      else
        let movingOut :=
          map (fun idx => nth idx (mainDetails analysis) undefined)
            (swapOutIndices state) in
        let movingIn :=
          map (fun idx => nth idx (sideDetails analysis) undefined)
            (swapInIndices state) in
        let finalMain :=
          filter_index (fun idx => negb (has (swapOutIndices state) idx)) 0
            (mainDetails analysis) ++ movingIn in
        let finalSide :=
          filter_index (fun idx => negb (has (swapInIndices state) idx)) 0
            (sideDetails analysis) ++ movingOut in
        {| deckAnalysis :=
             Some {| mainDetails := finalMain;
                     extraDetails := extraDetails analysis;
                     sideDetails := finalSide;
                     counts := {| main := Z.of_nat (length finalMain);
                                  extra := extra (counts analysis);
                                  side := Z.of_nat (length finalSide) |} |};
           swapOutIndices := [];
           swapInIndices := [];
           isSideDeckMode := false |}
  end.

End WithUndefined.

(** [targetCopiesFound]: the main-deck cards whose name is selected. *)
Definition targetCopiesFound (analysis : option DeckAnalysis)
    (selectedCards : gset (list Z)) : Z :=
  match analysis with
  | None => 0
  | Some a =>
      if (size selectedCards =? 0)%nat then 0
      else Z.of_nat
             (length
                (List.filter (fun c => bool_decide (Card.name c ∈ selectedCards))
                   (mainDetails a)))
  end.

(** What the effect on [deckAnalysis], [selectedCards] and [handSize] stores
    in [probResults]. *)
Definition probResults (analysis : option DeckAnalysis)
    (selectedCards : gset (list Z)) (handSize : Z) : list ProbabilityRow :=
  match analysis with
  | None => []
  | Some a =>
      if (size selectedCards =? 0)%nat || (handSize <=? 0) then []
      else calculateProbabilities (Z.of_nat (length (mainDetails a)))
             (targetCopiesFound analysis selectedCards) handSize
  end.

(** [next.has(index) ? next.delete(index) : next.add(index)] on a copy of
    the set: a deleted element leaves the others in their order, an added
    one comes last. *)
Definition toggle (set : list nat) (index : nat) : list nat :=
  if has set index then List.filter (fun i => negb (Nat.eqb index i)) set
  else set ++ [index].

Definition toggleIndividualSwap (state : SwapState) (index : nat)
    (isSide : bool) : SwapState :=
  if isSide then
    {| deckAnalysis := deckAnalysis state;
       swapOutIndices := swapOutIndices state;
       swapInIndices := toggle (swapInIndices state) index;
       isSideDeckMode := isSideDeckMode state |}
  else
    {| deckAnalysis := deckAnalysis state;
       swapOutIndices := toggle (swapOutIndices state) index;
       swapInIndices := swapInIndices state;
       isSideDeckMode := isSideDeckMode state |}.

(** The indices of a swap are distinct positions of the list they point
    into. *)
Definition valid_indices {A : Type} (indices : list nat) (l : list A) : Prop :=
  List.NoDup indices /\ Forall (fun idx => (idx < length l)%nat) indices.

End App.

(** ** The tournament log *)

Module TournamentTracker.

Inductive Result : Type := win | loss.

Definition Result_eq_dec (a b : Result) : {a = b} + {a <> b}.
Proof. decide equality. Defined.

(** A logged round; the round number is an integer. *)
Record TournamentReport : Type := {
  id : list Z;
  round : Z;
  matchup : list Z;
  wonDiceRoll : bool;
  result : Result;
  notes : list Z;
  timestamp : Z
}.

(** [array.sort((a, b) => a.round - b.round)]: on integers the comparison
    is a total preorder, for which the language fixes the result, the stable
    sorted arrangement.  It is computed here by insertion. *)
Fixpoint insert_by_round (r : TournamentReport) (sorted : list TournamentReport)
  : list TournamentReport :=
  match sorted with
  | [] => [r]
  | x :: rest =>
      if round r <=? round x then r :: x :: rest
      else x :: insert_by_round r rest
  end.

Definition sort_by_round (reports : list TournamentReport) : list TournamentReport :=
  fold_right insert_by_round [] reports.

(** The fields of the form when it is submitted. *)
Record Form : Type := {
  form_round : Z;
  form_matchup : list Z;
  form_wonDiceRoll : bool;
  form_result : Result;
  form_notes : list Z
}.

(** [handleAddReport]: the new list of reports and the round the form is
    reset to; [now] is the value of [Date.now()]. *)
Definition handleAddReport (reports : list TournamentReport) (form : Form)
    (now : Z) : list TournamentReport * Z :=
  let newReport :=
    {| id := Str.toString now; round := form_round form;
       matchup := form_matchup form; wonDiceRoll := form_wonDiceRoll form;
       result := form_result form; notes := form_notes form;
       timestamp := now |} in
  let updated := sort_by_round (reports ++ [newReport]) in
  (updated, Z.of_nat (length updated) + 1).

Definition deleteReport (reports : list TournamentReport) (i : list Z)
  : list TournamentReport :=
  List.filter (fun r => negb (bool_decide (id r = i))) reports.

Definition is_win (r : TournamentReport) : bool :=
  match result r with win => true | loss => false end.

Definition is_loss (r : TournamentReport) : bool :=
  match result r with loss => true | win => false end.

(** [getRecord]: [`${wins} - ${losses}`]. *)
Definition getRecord (reports : list TournamentReport) : list Z :=
  let wins := Z.of_nat (length (List.filter is_win reports)) in
  let losses := Z.of_nat (length (List.filter is_loss reports)) in
  Str.toString wins ++ Str.lit " - " ++ Str.toString losses.

(** Ascending round numbers. *)
Fixpoint ascending (reports : list TournamentReport) : Prop :=
  match reports with
  | x :: (y :: _) as rest => round x <= round y /\ ascending rest
  | _ => True
  end.

End TournamentTracker.

(** ** Dragging cards in the deck builder *)

Module Drag.

Import DeckBuilder.

(** Where a dragged card comes from: the search results or a section. *)
Inductive Source : Type := Search | Section (section : SectionType).

Record DragInfo : Type := {
  card : Card.t;
  sourceSection : option Source;
  sourceIndex : option Z
}.

Definition setSectionData (decks : Decks) (section : SectionType)
    (data : list Card.t) : Decks :=
  match section with
  | Main =>
      {| mainDeck := data; extraDeck := extraDeck decks;
         sideDeck := sideDeck decks; considerations := considerations decks |}
  | Extra =>
      {| mainDeck := mainDeck decks; extraDeck := data;
         sideDeck := sideDeck decks; considerations := considerations decks |}
  | Side =>
      {| mainDeck := mainDeck decks; extraDeck := extraDeck decks;
         sideDeck := data; considerations := considerations decks |}
  | Considerations =>
      {| mainDeck := mainDeck decks; extraDeck := extraDeck decks;
         sideDeck := sideDeck decks; considerations := data |}
  end.

(** [data.splice(start, 1)] for an integer [start]: a negative start counts
    from the end, and nothing is removed past the end. *)
Definition splice_one {A : Type} (start : Z) (data : list A) : list A :=
  let len := Z.of_nat (length data) in
  let actualStart := if start <? 0 then Z.max (len + start) 0 else Z.min start len in
  without_index actualStart 0 data.

(** [data.splice(start, 0, x)]: [x] is put at [start], clamped as above. *)
Definition splice_insert {A : Type} (start : Z) (x : A) (data : list A) : list A :=
  let len := Z.of_nat (length data) in
  let actualStart := if start <? 0 then Z.max (len + start) 0 else Z.min start len in
  firstn (Z.to_nat actualStart) data ++ x :: skipn (Z.to_nat actualStart) data.

Definition section_eqb (a b : SectionType) : bool :=
  match a, b with
  | Main, Main | Extra, Extra | Side, Side | Considerations, Considerations => true
  | _, _ => false
  end.

Definition same_section (source : option Source) (target : SectionType) : bool :=
  match source with
  | Some (Section s) => section_eqb s target
  | _ => false
  end.

Section WithUpperCase.

Variable toUpperCase : list Z -> list Z.

(** The drop is refused by one of the six guards. *)
Definition refused (decks : Decks) (c : Card.t) (target : SectionType) : bool :=
  (negb (section_eqb target Considerations)
   && negb (checkDeckLimit decks c))
  || (section_eqb target Extra && negb (isExtraDeckCard toUpperCase c))
  || (section_eqb target Main && isExtraDeckCard toUpperCase c)
  || (section_eqb target Extra
      && (15 <=? Z.of_nat (length (extraDeck decks))))
  || (section_eqb target Main
      && (60 <=? Z.of_nat (length (mainDeck decks))))
  || (section_eqb target Side
      && (15 <=? Z.of_nat (length (sideDeck decks)))).

(** The source is a section and an index was recorded: [removeCard] takes
    the card out of it. *)
Definition remove_dragged (decks : Decks) (item : DragInfo) : Decks :=
  match sourceSection item, sourceIndex item with
  | Some (Section source), Some index => removeCard decks index source
  | _, _ => decks
  end.

(** [onDropOnSection]: the decks and [draggedItem] before and after.  The
    two state updates of a move between sections write different lists. *)
Definition onDropOnSection (decks : Decks) (draggedItem : option DragInfo)
    (targetSection : SectionType) : Decks * option DragInfo :=
  match draggedItem with
  | None => (decks, draggedItem)
  | Some item =>
      if same_section (sourceSection item) targetSection then
        match sourceIndex item with
        | Some index =>
            let newData := splice_one index (getSectionData decks targetSection) in
            (setSectionData decks targetSection (newData ++ [card item]),
             draggedItem)
        | None => (decks, draggedItem)
        end
      else if refused decks (card item) targetSection then (decks, draggedItem)
      else
        (setSectionData (remove_dragged decks item) targetSection
           (getSectionData decks targetSection ++ [card item]),
         None)
  end.

(** [onDropOnCard]: the card is put in front of the card it is dropped on. *)
Definition onDropOnCard (decks : Decks) (draggedItem : option DragInfo)
    (targetSection : SectionType) (targetIndex : Z) : Decks * option DragInfo :=
  match draggedItem with
  | None => (decks, draggedItem)
  | Some item =>
      if same_section (sourceSection item) targetSection then
        match sourceIndex item with
        | None => (decks, draggedItem)
        | Some index =>
            let newData := splice_one index (getSectionData decks targetSection) in
            (setSectionData decks targetSection
               (splice_insert targetIndex (card item) newData),
             None)
        end
      else if refused decks (card item) targetSection then (decks, draggedItem)
      else
        (setSectionData (remove_dragged decks item) targetSection
           (splice_insert targetIndex (card item)
              (getSectionData decks targetSection)),
         None)
  end.

End WithUpperCase.

(** The dragged card was picked up at a position of its section. *)
Definition picked_up (decks : Decks) (item : DragInfo) : Prop :=
  match sourceSection item, sourceIndex item with
  | Some (Section source), Some index =>
      0 <= index < Z.of_nat (length (getSectionData decks source))
  | Some (Section _), None => True
  | _, _ => True
  end.

End Drag.

(** ** The value of a double *)

Definition bpow (e : Z) : Q := (2 ^ e)%Q.

Definition value (x : JS.number) : Q :=
  match x with
  | S754_finite s m e =>
      ((if s then - inject_Z (Z.pos m) else inject_Z (Z.pos m)) * bpow e)%Q
  | _ => 0%Q
  end.

(** Where [x] lies between [m * 2^e] and [(m + 1) * 2^e], as the round and
    sticky bits of a shifted mantissa record it. *)
Definition position (mrs : shr_record) (e : Z) (x : Q) : Prop :=
  0 <= shr_m mrs
  /\ let lo := (inject_Z (shr_m mrs) * bpow e)%Q in
     let half := ((1 # 2) * bpow e)%Q in
     match shr_r mrs, shr_s mrs with
     | false, false => (x == lo)%Q
     | false, true => (lo < x /\ x < lo + half)%Q
     | true, false => (x == lo + half)%Q
     | true, true => (lo + half < x /\ x < lo + 2 * half)%Q
     end.

(** A double that is [+0] or positive, finite and in canonical form. *)
Definition nonneg (x : JS.number) : Prop :=
  match x with
  | S754_zero false => True
  | S754_finite false m e => bounded JS.prec JS.emax m e = true
  | _ => False
  end.

(** From this value on, rounding to nearest gives [Infinity]. *)
Definition overflow_threshold : Q := inject_Z (2 ^ 1024 - 2 ^ 970).

(** Half an ulp of a normal double, relative to its value, and half an ulp
    of a subnormal one. *)
Definition unit_roundoff : Q := (1 # 9007199254740992)%Q.
Definition tiny : Q := bpow (- 1075).

(** [r] is what rounding the non-negative [x] to the nearest double gives:
    [Infinity] from the overflow threshold on, and below it a canonical
    double at most half an ulp away. *)
Definition rounded (x : Q) (r : JS.number) : Prop :=
  ((x < overflow_threshold)%Q ->
     nonneg r
     /\ (x - (unit_roundoff * x + tiny) <= value r)%Q
     /\ (value r <= x + (unit_roundoff * x + tiny))%Q)
  /\ ((overflow_threshold <= x)%Q -> r = JS.Infinity).

(** A finite double in canonical form, of either sign, or [+0]. *)
Definition regular (r : JS.number) : Prop :=
  match r with
  | S754_zero false => True
  | S754_finite _ m e => bounded JS.prec JS.emax m e = true
  | _ => False
  end.

(** The integer [z] is a double: converting it changes nothing.  Every
    integer argument of the program is one. *)
Definition is_double (z : Z) : Prop := (value (JS.Number z) == inject_Z z)%Q.

(** Every running total of the [countInDeck] of the groups, from [acc] on, is
    a double, as is every [countInDeck]. *)
Fixpoint totals_exact (acc : Z) (groups : list HyperGroup) : Prop :=
  match groups with
  | [] => True
  | g :: rest =>
      is_double (countInDeck g) /\ is_double (acc + countInDeck g)
      /\ totals_exact (acc + countInDeck g) rest
  end.

(** ** Relative accuracy *)

(** [2^-50], a bound on the relative error of one rounding above the
    subnormal range. *)
Definition eta : Q := (1 # 1125899906842624)%Q.

(** [v] is within [k * 2^-50] of the non-negative [x], relatively. *)
Definition near (k : Z) (x v : Q) : Prop :=
  (0 <= x)%Q
  /\ (x * (1 - inject_Z k * eta) <= v)%Q
  /\ (v <= x * (1 + inject_Z k * eta))%Q.

(** The expected number of players with [w] wins, as a rational. *)
Definition expected_count (numPlayers numRounds w : Z) : Q :=
  (inject_Z (binomial numRounds w) * inject_Z numPlayers * bpow (- numRounds))%Q.

Definition Qsum (l : list Q) : Q := fold_right Qplus 0%Q l.


(** * Proofs *)

(** ** Rounding: the value of a double and the error of each operation *)


Lemma bpow_pos (e : Z) : (0 < bpow e)%Q.
Proof. apply Qpower_0_lt. reflexivity. Qed.

Lemma bpow_add (a b : Z) : (bpow (a + b) == bpow a * bpow b)%Q.
Proof. apply Qpower_plus. discriminate. Qed.

Lemma bpow_succ (e : Z) : (bpow (e + 1) == 2 * bpow e)%Q.
Proof. rewrite bpow_add. unfold bpow at 2. change (2 ^ 1)%Q with 2%Q. ring. Qed.

Lemma bpow_le (a b : Z) : a <= b -> (bpow a <= bpow b)%Q.
Proof. intros H. apply Qpower_le_compat_l; [exact H|discriminate]. Qed.

Lemma bpow_lt (a b : Z) : a < b -> (bpow a < bpow b)%Q.
Proof. intros H. apply Qpower_lt_compat_l; [exact H|reflexivity]. Qed.

Lemma bpow_inject (e : Z) : 0 <= e -> (bpow e == inject_Z (2 ^ e))%Q.
Proof. intros H. unfold bpow. rewrite Zpower_Qpower by exact H. reflexivity. Qed.

Lemma fexp_eq (z : Z) : fexp JS.prec JS.emax z = Z.max (z - 53) (- 1074).
Proof. reflexivity. Qed.

(** ** Digits *)

Lemma digits2_pos_bounds (p : positive) :
  2 ^ (Z.pos (digits2_pos p) - 1) <= Z.pos p < 2 ^ Z.pos (digits2_pos p).
Proof.
  induction p as [p IH|p IH|]; cbn [digits2_pos].
  - rewrite Pos2Z.inj_succ.
    replace (Z.succ (Z.pos (digits2_pos p)) - 1) with (Z.pos (digits2_pos p) - 1 + 1) by lia.
    rewrite Z.pow_add_r, Z.pow_succ_r by lia. lia.
  - rewrite Pos2Z.inj_succ.
    replace (Z.succ (Z.pos (digits2_pos p)) - 1) with (Z.pos (digits2_pos p) - 1 + 1) by lia.
    rewrite Z.pow_add_r, Z.pow_succ_r by lia. lia.
  - cbn. lia.
Qed.

Lemma Zdigits2_nonneg (m : Z) : 0 <= Zdigits2 m.
Proof. destruct m; cbn; lia. Qed.

Lemma Zdigits2_bounds (m : Z) :
  0 < m -> 2 ^ (Zdigits2 m - 1) <= m < 2 ^ Zdigits2 m.
Proof. destruct m as [|p|p]; try lia. intros _. apply digits2_pos_bounds. Qed.

Lemma Zdigits2_unique (m d : Z) :
  2 ^ (d - 1) <= m < 2 ^ d -> 0 < d -> Zdigits2 m = d.
Proof.
  intros [Hlo Hhi] Hd.
  assert (Hm : 0 < m) by (pose proof (Z.pow_pos_nonneg 2 (d - 1)); lia).
  pose proof (Zdigits2_bounds m Hm) as [Hlo' Hhi'].
  pose proof (Zdigits2_nonneg m).
  destruct (Z.lt_trichotomy (Zdigits2 m) d) as [Hlt|[Heq|Hgt]]; [|exact Heq|].
  - assert (2 ^ Zdigits2 m <= 2 ^ (d - 1)) by (apply Z.pow_le_mono_r; lia). lia.
  - assert (2 ^ d <= 2 ^ (Zdigits2 m - 1)) by (apply Z.pow_le_mono_r; lia). lia.
Qed.

(** ** Shifting a mantissa to the right *)

Lemma inject_Z_xO (p : positive) :
  (inject_Z (Z.pos p~0) == 2 * inject_Z (Z.pos p))%Q.
Proof. rewrite Pos2Z.inj_xO, inject_Z_mult. reflexivity. Qed.

Lemma inject_Z_xI (p : positive) :
  (inject_Z (Z.pos p~1) == 2 * inject_Z (Z.pos p) + 1)%Q.
Proof. rewrite Pos2Z.inj_xI, inject_Z_plus, inject_Z_mult. reflexivity. Qed.

Lemma shr_1_position (mrs : shr_record) (e : Z) (x : Q) :
  position mrs e x -> position (shr_1 mrs) (e + 1) x.
Proof.
  destruct mrs as [m r s]. unfold position. cbn [shr_m shr_r shr_s].
  intros [Hm Hx]. pose proof (bpow_pos e) as Hb.
  destruct m as [|p|p]; [| |lia].
  - cbn [shr_1 shr_m shr_r shr_s]. split; [lia|].
    destruct r, s; cbn [orb] in *; cbv zeta in *;
      rewrite ?bpow_succ; change (inject_Z 0) with 0%Q in *;
      try (match type of Hx with _ /\ _ => destruct Hx as [Hx1 Hx2] end); try split; lra.
  - destruct p as [p|p|]; cbn [shr_1 shr_m shr_r shr_s]; (split; [lia|]);
      destruct r, s; cbn [orb] in *; cbv zeta in *;
      rewrite ?bpow_succ; rewrite ?inject_Z_xO, ?inject_Z_xI in Hx;
      change (inject_Z 1) with 1%Q in *; change (inject_Z 0) with 0%Q in *;
      try (match type of Hx with _ /\ _ => destruct Hx as [Hx1 Hx2] end); try split; lra.
Qed.

Lemma iter_pos_position (p : positive) :
  forall (mrs : shr_record) (e : Z) (x : Q),
    position mrs e x -> position (SpecFloat.iter_pos shr_1 p mrs) (e + Z.pos p) x.
Proof.
  induction p as [p IH|p IH|]; intros mrs e x H; cbn [SpecFloat.iter_pos].
  - replace (e + Z.pos p~1) with (e + 1 + Z.pos p + Z.pos p) by lia.
    apply IH, IH, shr_1_position, H.
  - replace (e + Z.pos p~0) with (e + Z.pos p + Z.pos p) by lia.
    apply IH, IH, H.
  - apply shr_1_position, H.
Qed.

Lemma shr_1_digits (mrs : shr_record) :
  0 <= shr_m mrs ->
  Zdigits2 (shr_m (shr_1 mrs)) = Z.max (Zdigits2 (shr_m mrs) - 1) 0.
Proof.
  destruct mrs as [m r s]. cbn [shr_m]. intros Hm.
  destruct m as [|p|p]; [reflexivity| |lia].
  destruct p as [p|p|]; cbn [shr_1 shr_m Zdigits2 digits2_pos];
    rewrite ?Pos2Z.inj_succ; lia.
Qed.

Lemma shr_1_nonneg (mrs : shr_record) : 0 <= shr_m mrs -> 0 <= shr_m (shr_1 mrs).
Proof.
  destruct mrs as [m r s]. cbn [shr_m]. intros Hm.
  destruct m as [|p|p]; [cbn; lia| |lia].
  destruct p; cbn; lia.
Qed.

Lemma iter_pos_digits (p : positive) :
  forall mrs : shr_record,
    0 <= shr_m mrs ->
    0 <= shr_m (SpecFloat.iter_pos shr_1 p mrs)
    /\ Zdigits2 (shr_m (SpecFloat.iter_pos shr_1 p mrs))
       = Z.max (Zdigits2 (shr_m mrs) - Z.pos p) 0.
Proof.
  induction p as [p IH|p IH|]; intros mrs Hm; cbn [SpecFloat.iter_pos].
  - pose proof (shr_1_nonneg mrs Hm) as H1.
    pose proof (shr_1_digits mrs Hm) as D1.
    destruct (IH _ H1) as [H2 D2]. destruct (IH _ H2) as [H3 D3].
    split; [exact H3|]. rewrite D3, D2, D1. lia.
  - destruct (IH _ Hm) as [H2 D2]. destruct (IH _ H2) as [H3 D3].
    split; [exact H3|]. rewrite D3, D2. lia.
  - split; [apply shr_1_nonneg, Hm|]. rewrite shr_1_digits by exact Hm. lia.
Qed.

(** The first step of rounding: the mantissa is brought to the exponent of
    the format, and has at most 53 digits, exactly 53 above the subnormal
    range. *)
Lemma shr_fexp_position (m e : Z) (l : location) (x : Q) :
  position (shr_record_of_loc m l) e x ->
  e <= fexp JS.prec JS.emax (Zdigits2 m + e) ->
  let E := fexp JS.prec JS.emax (Zdigits2 m + e) in
  let mrs := fst (shr_fexp JS.prec JS.emax m e l) in
  snd (shr_fexp JS.prec JS.emax m e l) = E
  /\ position mrs E x
  /\ Zdigits2 (shr_m mrs) = Z.max (Zdigits2 m + e - E) 0.
Proof.
  intros Hpos Hle E mrs. subst mrs. unfold shr_fexp. fold E.
  assert (Hm : 0 <= m).
  { destruct Hpos as [Hm _]. destruct l as [|[]]; exact Hm. }
  assert (Hrec : shr_m (shr_record_of_loc m l) = m) by (destruct l as [|[]]; reflexivity).
  unfold shr. destruct (E - e) as [|p|p] eqn:Hn; cbn [fst snd].
  - assert (E = e) as -> by lia. split; [reflexivity|]. split; [exact Hpos|].
    rewrite Hrec. pose proof (Zdigits2_nonneg m). lia.
  - split; [lia|]. split.
    + replace E with (e + Z.pos p) by lia. apply iter_pos_position, Hpos.
    + destruct (iter_pos_digits p (shr_record_of_loc m l)) as [_ D];
        [rewrite Hrec; exact Hm|].
      rewrite D, Hrec. lia.
  - lia.
Qed.

(** ** Rounding to nearest, ties to even *)

Lemma inject_Z_succ (m : Z) : (inject_Z (m + 1) == inject_Z m + 1)%Q.
Proof. rewrite inject_Z_plus. reflexivity. Qed.

Lemma scaled_le (m m' e : Z) :
  m <= m' -> (inject_Z m * bpow e <= inject_Z m' * bpow e)%Q.
Proof.
  intros H. apply Qmult_le_compat_r; [|apply Qlt_le_weak, bpow_pos].
  rewrite <- Zle_Qle. exact H.
Qed.

Lemma round_nearest_even_spec (mrs : shr_record) (E : Z) (x : Q) :
  position mrs E x ->
  let m1 := shr_m mrs in
  let m2 := round_nearest_even m1 (loc_of_shr_record mrs) in
  let b := bpow E in
  (m2 = m1 \/ m2 = m1 + 1)
  /\ (inject_Z m1 * b <= x)%Q
  /\ (x <= inject_Z m1 * b + b)%Q
  /\ (inject_Z m2 * b - (1 # 2) * b <= x)%Q
  /\ (x <= inject_Z m2 * b + (1 # 2) * b)%Q
  /\ (m2 = m1 -> Z.even m1 = false ->
      (x < inject_Z m1 * b + (1 # 2) * b)%Q)
  /\ (m2 = m1 + 1 -> (inject_Z m1 * b + (1 # 2) * b <= x)%Q)
  /\ (shr_r mrs = false -> shr_s mrs = false -> (x == inject_Z m2 * b)%Q).
Proof.
  destruct mrs as [m r s]. unfold position. cbn [shr_m shr_r shr_s].
  intros [Hm Hx]. cbv zeta in *. set (b := bpow E) in *.
  pose proof (bpow_pos E) as Hb. fold b in Hb.
  pose proof (inject_Z_succ m) as Hsucc.
  destruct r, s; cbn [loc_of_shr_record round_nearest_even].
  - destruct Hx as [Hx1 Hx2]. rewrite Hsucc.
    repeat split; try lra; try (right; reflexivity); try discriminate; intros; try lia; lra.
  - destruct (Z.even m) eqn:Heven.
    + repeat split; try lra; try (left; reflexivity); try discriminate;
        intros; try congruence; try lia; lra.
    + rewrite Hsucc.
      repeat split; try lra; try (right; reflexivity); try discriminate;
        intros; try lia; lra.
  - destruct Hx as [Hx1 Hx2].
    repeat split; try lra; try (left; reflexivity); try discriminate;
      intros; try lia; lra.
  - repeat split; try lra; try (left; reflexivity); intros; try lia; lra.
Qed.

(** The second step leaves a mantissa below [2^53] alone, and halves
    [2^53]. *)
Lemma shr_fexp_small (m E : Z) :
  0 <= m < 2 ^ 53 -> - 1074 <= E ->
  shr_fexp JS.prec JS.emax m E loc_Exact
  = ({| shr_m := m; shr_r := false; shr_s := false |}, E).
Proof.
  intros Hm HE. unfold shr_fexp, shr. cbn [shr_record_of_loc].
  assert (Hd : Zdigits2 m <= 53).
  { destruct (Z.eq_dec m 0) as [->|Hne]; [cbn; lia|].
    pose proof (Zdigits2_bounds m ltac:(lia)) as [Hlo _].
    destruct (Z.le_gt_cases (Zdigits2 m) 53) as [|Hgt]; [assumption|].
    assert (2 ^ 53 <= 2 ^ (Zdigits2 m - 1)) by (apply Z.pow_le_mono_r; lia). lia. }
  rewrite fexp_eq.
  destruct (Z.max (Zdigits2 m + E - 53) (- 1074) - E) eqn:Hn; try reflexivity. lia.
Qed.

Lemma shr_fexp_carry (E : Z) :
  - 1074 <= E ->
  shr_fexp JS.prec JS.emax (2 ^ 53) E loc_Exact
  = ({| shr_m := 2 ^ 52; shr_r := false; shr_s := false |}, E + 1).
Proof.
  intros HE. unfold shr_fexp, shr. cbn [shr_record_of_loc].
  change (Zdigits2 (2 ^ 53)) with 54. rewrite fexp_eq.
  replace (Z.max (54 + E - 53) (- 1074) - E) with 1 by lia. reflexivity.
Qed.

Lemma threshold_eq :
  (overflow_threshold == (9007199254740992 - (1 # 2)) * bpow 971)%Q.
Proof. vm_compute. reflexivity. Qed.

Lemma tiny_eq : (bpow (- 1074) == 2 * tiny)%Q.
Proof. unfold tiny. rewrite <- bpow_succ. reflexivity. Qed.

Lemma inject_Z_pow53 : inject_Z (2 ^ 53) = 9007199254740992%Q.
Proof. reflexivity. Qed.

Lemma inject_Z_pow52 : inject_Z (2 ^ 52) = 4503599627370496%Q.
Proof. reflexivity. Qed.

Lemma Zdigits2_le (m k : Z) : 0 <= m < 2 ^ k -> 0 <= k -> Zdigits2 m <= k.
Proof.
  intros [Hm Hlt] Hk. destruct (Z.eq_dec m 0) as [->|Hne]; [cbn; lia|].
  pose proof (Zdigits2_bounds m ltac:(lia)) as [Hlo _].
  destruct (Z.le_gt_cases (Zdigits2 m) k) as [|Hgt]; [assumption|].
  assert (2 ^ k <= 2 ^ (Zdigits2 m - 1)) by (apply Z.pow_le_mono_r; lia). lia.
Qed.

Lemma scaled_lt_inv (m m' e : Z) :
  (inject_Z m * bpow e < inject_Z m' * bpow e)%Q -> m < m'.
Proof.
  intros H. rewrite Zlt_Qlt. apply Qmult_lt_r in H; [exact H|apply bpow_pos].
Qed.

Lemma position_exact (mrs : shr_record) (E k : Z) (x : Q) :
  position mrs E x -> (x == inject_Z k * bpow E)%Q ->
  shr_r mrs = false /\ shr_s mrs = false.
Proof.
  destruct mrs as [m r s]. unfold position. cbn [shr_m shr_r shr_s].
  intros [Hm Hx] Hk. cbv zeta in Hx. pose proof (bpow_pos E) as Hb.
  destruct r, s; [exfalso|exfalso|exfalso|split; reflexivity].
  - destruct Hx as [Hx1 Hx2].
    assert (m < k) by (apply (scaled_lt_inv _ _ E); lra).
    assert (k < m + 1) by (apply (scaled_lt_inv _ _ E); rewrite inject_Z_succ; lra).
    lia.
  - assert (m < k) by (apply (scaled_lt_inv _ _ E); lra).
    assert (k < m + 1) by (apply (scaled_lt_inv _ _ E); rewrite inject_Z_succ; lra).
    lia.
  - destruct Hx as [Hx1 Hx2].
    assert (m < k) by (apply (scaled_lt_inv _ _ E); lra).
    assert (k < m + 1) by (apply (scaled_lt_inv _ _ E); rewrite inject_Z_succ; lra).
    lia.
Qed.

Lemma even_below (m : Z) : Z.even m = true -> m < 2 ^ 53 -> m <= 2 ^ 53 - 2.
Proof.
  intros He Hlt. apply Z.even_spec in He. destruct He as [k ->]. lia.
Qed.

(** ** Canonical doubles and the grid of a rounding *)

Lemma bounded_canonical (m : positive) (e : Z) :
  bounded JS.prec JS.emax m e = true ->
  - 1074 <= e <= 971
  /\ Z.pos (digits2_pos m) <= 53
  /\ (e = - 1074 \/ Z.pos (digits2_pos m) = 53).
Proof.
  unfold bounded, canonical_mantissa. intros H.
  apply andb_true_iff in H. destruct H as [Hc He].
  apply Z.eqb_eq in Hc. apply Z.leb_le in He. rewrite fexp_eq in Hc.
  change (JS.emax - JS.prec) with 971 in He. lia.
Qed.

(** No double lies strictly between two neighbours of the grid on which a
    number is rounded. *)
Lemma no_double_between (m1 E : Z) (y : JS.number) :
  0 <= m1 -> - 1074 <= E -> (- 1074 < E -> 2 ^ 52 <= m1) -> nonneg y ->
  (value y <= inject_Z m1 * bpow E)%Q
  \/ (inject_Z (m1 + 1) * bpow E <= value y)%Q.
Proof.
  intros Hm HE Hnormal Hy.
  destruct y as [[]| | |[] my ey]; cbn [nonneg] in Hy; try exact (False_ind _ Hy).
  - left. cbn [value]. pose proof (scaled_le 0 m1 E Hm) as H.
    change (inject_Z 0) with 0%Q in H. lra.
  - destruct (bounded_canonical my ey Hy) as (Hey & Hd & Hc).
    pose proof (digits2_pos_bounds my) as [_ Hup].
    assert (Hmy : Z.pos my < 2 ^ 53).
    { assert (2 ^ Z.pos (digits2_pos my) <= 2 ^ 53) by (apply Z.pow_le_mono_r; lia).
      lia. }
    destruct (Z.le_gt_cases E ey) as [Hle|Hgt].
    + assert (Hval : (value (S754_finite false my ey)
                      == inject_Z (Z.pos my * 2 ^ (ey - E)) * bpow E)%Q).
      { cbn [value]. rewrite inject_Z_mult, <- bpow_inject by lia.
        rewrite <- Qmult_assoc, <- bpow_add.
        replace (ey - E + E) with ey by lia. reflexivity. }
      destruct (Z.le_gt_cases (Z.pos my * 2 ^ (ey - E)) m1) as [H1|H1].
      * left. rewrite Hval. apply scaled_le. exact H1.
      * right. rewrite Hval. apply scaled_le. lia.
    + left. specialize (Hnormal ltac:(lia)). cbn [value].
      apply Qle_trans with (inject_Z (2 ^ 53) * bpow ey)%Q; [apply scaled_le; lia|].
      apply Qle_trans with (inject_Z (2 ^ 52) * bpow E)%Q; [|apply scaled_le; exact Hnormal].
      pose proof (bpow_le (ey + 1) E ltac:(lia)) as Hb. rewrite bpow_succ in Hb.
      rewrite inject_Z_pow53, inject_Z_pow52. pose proof (bpow_pos ey). lra.
Qed.

(** The rounding kernel shared by every operation: from a mantissa, an
    exponent and a location that describe a non-negative [x], it returns
    [Infinity] from the overflow threshold on, and below it a canonical
    double within half an ulp of [x], equal to [x] when [x] is a multiple of
    the ulp, and on the same side as [x] of every other double. *)
Lemma binary_round_aux_full (m e : Z) (l : location) (x : Q) :
  position (shr_record_of_loc m l) e x ->
  e <= fexp JS.prec JS.emax (Zdigits2 m + e) ->
  let r := binary_round_aux JS.prec JS.emax false m e l in
  ((x < overflow_threshold)%Q ->
     nonneg r
     /\ (x - (unit_roundoff * x + tiny) <= value r)%Q
     /\ (value r <= x + (unit_roundoff * x + tiny))%Q
     /\ (forall k, (x == inject_Z k * bpow (fexp JS.prec JS.emax (Zdigits2 m + e)))%Q ->
                   (value r == x)%Q)
     /\ (forall y, nonneg y ->
           ((x <= value y)%Q -> (value r <= value y)%Q)
           /\ ((value y <= x)%Q -> (value y <= value r)%Q)))
  /\ ((overflow_threshold <= x)%Q -> r = S754_infinity false).
Proof.
  intros Hpos Hle r.
  destruct (shr_fexp_position m e l x Hpos Hle) as (He1 & Hpos1 & Hd1).
  set (E := fexp JS.prec JS.emax (Zdigits2 m + e)) in *.
  subst r. unfold binary_round_aux.
  destruct (shr_fexp JS.prec JS.emax m e l) as [mrs1 e1] eqn:H1.
  cbn [fst snd] in He1, Hpos1, Hd1. subst e1.
  destruct (round_nearest_even_spec mrs1 E x Hpos1)
    as (Hm2 & Hlo & Hhi & Hnear1 & Hnear2 & Hdown & Hup & Hexact).
  cbv zeta in Hm2, Hlo, Hhi, Hnear1, Hnear2, Hdown, Hup, Hexact.
  set (m1 := shr_m mrs1) in *.
  set (m2 := round_nearest_even m1 (loc_of_shr_record mrs1)) in *.
  set (b := bpow E) in *.
  assert (HE : - 1074 <= E) by (unfold E; rewrite fexp_eq; lia).
  assert (HEd : Zdigits2 m + e - 53 <= E) by (unfold E; rewrite fexp_eq; lia).
  assert (Hm1 : 0 <= m1) by (destruct Hpos1 as [H _]; exact H).
  assert (Hm1lt : m1 < 2 ^ 53).
  { destruct (Z.eq_dec m1 0) as [->|Hne]; [lia|].
    pose proof (Zdigits2_bounds m1 ltac:(lia)) as [_ Hup1].
    assert (2 ^ Zdigits2 m1 <= 2 ^ 53) by (apply Z.pow_le_mono_r; lia). lia. }
  assert (Hnormal : - 1074 < E -> 2 ^ 52 <= m1).
  { intros Hn. assert (HEeq : E = Zdigits2 m + e - 53) by (unfold E; rewrite fexp_eq; unfold E in Hn; rewrite fexp_eq in Hn; lia).
    assert (Hd53 : Zdigits2 m1 = 53) by lia.
    assert (Hpos1' : 0 < m1) by (destruct m1; cbn in Hd53; lia).
    pose proof (Zdigits2_bounds m1 Hpos1') as [Hlow _]. rewrite Hd53 in Hlow.
    exact Hlow. }
  pose proof (bpow_pos E) as Hb. fold b in Hb.
  pose proof threshold_eq as HT. set (T := overflow_threshold) in *.
  pose proof (bpow_pos 971) as Hb971. set (b971 := bpow 971) in *.
  pose proof (scaled_le 0 m1 E Hm1) as Hx0. fold b in Hx0.
  change (inject_Z 0) with 0%Q in Hx0.
  assert (Hnorm_b : - 1074 < E -> (4503599627370496 * b <= inject_Z m1 * b)%Q).
  { intros Hn. rewrite <- inject_Z_pow52. apply scaled_le, Hnormal, Hn. }
  assert (Hsub_b : E = - 1074 -> (b == 2 * tiny)%Q).
  { intros ->. apply tiny_eq. }
  assert (Htiny : (0 < tiny)%Q) by apply bpow_pos.
  assert (Hm1_b : (inject_Z m1 * b <= (9007199254740992 - 1) * b)%Q).
  { change (9007199254740992 - 1)%Q with (inject_Z (2 ^ 53 - 1)).
    apply scaled_le. lia. }
  assert (Hhalf : ((1 # 2) * b <= unit_roundoff * x + tiny)%Q).
  { unfold unit_roundoff. destruct (Z.eq_dec E (- 1074)) as [Heq|Hne].
    - specialize (Hsub_b Heq). lra.
    - specialize (Hnorm_b ltac:(lia)). lra. }
  assert (Hgrid : forall y, nonneg y ->
            ((x <= value y)%Q -> (inject_Z m2 * b <= value y)%Q)
            /\ ((value y <= x)%Q -> (value y <= inject_Z m2 * b)%Q)).
  { intros y Hy.
    pose proof (no_double_between m1 E y Hm1 HE Hnormal Hy) as Hg. fold b in Hg.
    rewrite inject_Z_succ in Hg.
    destruct Hm2 as [Hsame|Hnext].
    - rewrite Hsame. split; [intros; lra|]. intros Hyx.
      destruct Hg as [Hg|Hg]; [exact Hg|]. rewrite Hsame in Hnear2. lra.
    - specialize (Hup Hnext). rewrite Hnext, inject_Z_succ.
      split; [|intros; lra]. intros Hxy.
      destruct Hg as [Hg|Hg]; [lra|lra]. }
  destruct (Z.eq_dec m2 (2 ^ 53)) as [Hcarry|Hnocarry].
  - (* the mantissa rounds up to 2^53 *)
    assert (Hm1eq : m1 = 2 ^ 53 - 1) by lia.
    assert (Hm2eq : m2 = m1 + 1) by lia.
    specialize (Hup Hm2eq).
    rewrite Hcarry, shr_fexp_carry by exact HE. cbn [shr_m].
    change (2 ^ 52) with (Z.pos 4503599627370496).
    assert (Hm1q : (inject_Z m1 == 9007199254740992 - 1)%Q) by (rewrite Hm1eq; reflexivity).
    assert (Hm2q : (inject_Z m2 == 9007199254740992)%Q) by (rewrite Hcarry; reflexivity).
    rewrite Hm1q in Hup, Hlo, Hhi. rewrite Hm2q in Hnear1, Hnear2.
    destruct (Z.leb_spec (E + 1) (JS.emax - JS.prec)) as [Hfin|Hinf];
      change (JS.emax - JS.prec) with 971 in *.
    + assert (Hb970 : (2 * b <= b971)%Q).
      { subst b b971. rewrite <- bpow_succ. apply bpow_le. lia. }
      split; [|intros Hover; exfalso; lra].
      intros _. split; [|split; [|split; [|split]]].
      * cbn [nonneg]. unfold bounded, canonical_mantissa.
        change (Z.pos (digits2_pos 4503599627370496)) with 53.
        rewrite fexp_eq. apply andb_true_iff. split; [apply Z.eqb_eq; lia|].
        apply Z.leb_le. exact Hfin.
      * cbn [value]. rewrite bpow_succ. fold b.
        change (inject_Z (Z.pos 4503599627370496)) with 4503599627370496%Q. lra.
      * cbn [value]. rewrite bpow_succ. fold b.
        change (inject_Z (Z.pos 4503599627370496)) with 4503599627370496%Q. lra.
      * intros k Hk. destruct (position_exact mrs1 E k x Hpos1 Hk) as [Hr Hs].
        specialize (Hexact Hr Hs). rewrite Hm2q in Hexact.
        cbn [value]. rewrite bpow_succ. fold b.
        change (inject_Z (Z.pos 4503599627370496)) with 4503599627370496%Q. lra.
      * intros y Hy. destruct (Hgrid y Hy) as [Hg1 Hg2]. rewrite Hm2q in Hg1, Hg2.
        cbn [value]. rewrite bpow_succ. fold b.
        change (inject_Z (Z.pos 4503599627370496)) with 4503599627370496%Q.
        split; intros Hc; [specialize (Hg1 Hc)|specialize (Hg2 Hc)]; lra.
    + assert (Hb971' : (b971 <= b)%Q) by (subst b b971; apply bpow_le; lia).
      split; [intros Hlt; exfalso; lra|]. intros _. reflexivity.
  - (* the mantissa stays below 2^53 *)
    assert (Hm2lt : 0 <= m2 < 2 ^ 53) by lia.
    rewrite shr_fexp_small by (exact Hm2lt || exact HE). cbn [shr_m].
    assert (Hbelow : - 1074 <= E <= 971 -> (x < T)%Q).
    { intros HEr.
      assert (Hb' : (b <= b971)%Q) by (subst b b971; apply bpow_le; lia).
      destruct Hm2 as [Hsame|Hnext].
      - destruct (Z.even m1) eqn:Heven.
        + pose proof (even_below m1 Heven Hm1lt) as Hev.
          assert ((inject_Z m1 * b <= (9007199254740992 - 2) * b)%Q).
          { change (9007199254740992 - 2)%Q with (inject_Z (2 ^ 53 - 2)).
            apply scaled_le. exact Hev. }
          rewrite Hsame in Hnear2. lra.
        + specialize (Hdown Hsame eq_refl). lra.
      - assert ((inject_Z m1 * b <= (9007199254740992 - 2) * b)%Q).
        { change (9007199254740992 - 2)%Q with (inject_Z (2 ^ 53 - 2)).
          apply scaled_le. lia. }
        lra. }
    destruct m2 as [|p|p] eqn:Hm2v; [| |lia].
    + (* rounds to zero *)
      assert (Hsub : E = - 1074).
      { destruct (Z.eq_dec E (- 1074)) as [|Hne]; [assumption|].
        specialize (Hnormal ltac:(lia)). lia. }
      change (inject_Z 0) with 0%Q in *.
      split.
      * intros _. split; [exact I|]. cbn [value]. split; [lra|]. split; [lra|].
        split.
        -- intros k Hk. destruct (position_exact mrs1 E k x Hpos1 Hk) as [Hr Hs].
           specialize (Hexact Hr Hs). lra.
        -- intros y Hy. destruct (Hgrid y Hy) as [Hg1 Hg2].
           split; intros Hc; [specialize (Hg1 Hc)|specialize (Hg2 Hc)]; lra.
      * intros Hover. exfalso. specialize (Hbelow ltac:(lia)). lra.
    + destruct (Z.leb_spec E (JS.emax - JS.prec)) as [Hfin|Hinf];
        change (JS.emax - JS.prec) with 971 in *.
      * split; [|intros Hover; exfalso; specialize (Hbelow ltac:(lia)); lra].
        intros _. split; [|split; [|split; [|split]]].
        -- cbn [nonneg]. unfold bounded, canonical_mantissa.
           change (Z.pos (digits2_pos p)) with (Zdigits2 (Z.pos p)).
           rewrite fexp_eq. apply andb_true_iff. split; [|apply Z.leb_le; exact Hfin].
           apply Z.eqb_eq.
           destruct (Z.eq_dec E (- 1074)) as [Heq|Hne].
           ++ pose proof (Zdigits2_le (Z.pos p) 53 ltac:(lia) ltac:(lia)). lia.
           ++ specialize (Hnormal ltac:(lia)).
              rewrite (Zdigits2_unique (Z.pos p) 53); lia.
        -- cbn [value]. fold b. lra.
        -- cbn [value]. fold b. lra.
        -- intros k Hk. destruct (position_exact mrs1 E k x Hpos1 Hk) as [Hr Hs].
           specialize (Hexact Hr Hs). cbn [value]. fold b. lra.
        -- intros y Hy. destruct (Hgrid y Hy) as [Hg1 Hg2]. cbn [value]. fold b.
           split; intros Hc; [specialize (Hg1 Hc)|specialize (Hg2 Hc)]; lra.
      * split; [|intros _; reflexivity].
        intros Hlt. exfalso.
        specialize (Hnorm_b ltac:(lia)).
        assert (Hb972 : (2 * b971 <= b)%Q).
        { subst b b971. rewrite <- bpow_succ. apply bpow_le. lia. }
        lra.
Qed.


Lemma binary_round_aux_spec (m e : Z) (l : location) (x : Q) :
  position (shr_record_of_loc m l) e x ->
  e <= fexp JS.prec JS.emax (Zdigits2 m + e) ->
  let r := binary_round_aux JS.prec JS.emax false m e l in
  ((x < overflow_threshold)%Q ->
     nonneg r
     /\ (x - (unit_roundoff * x + tiny) <= value r)%Q
     /\ (value r <= x + (unit_roundoff * x + tiny))%Q
     /\ (forall k, (x == inject_Z k * bpow (fexp JS.prec JS.emax (Zdigits2 m + e)))%Q ->
                   (value r == x)%Q))
  /\ ((overflow_threshold <= x)%Q -> r = S754_infinity false).
Proof.
  intros Hpos Hle r.
  destruct (binary_round_aux_full m e l x Hpos Hle) as [Hlow Hhigh].
  split; [|exact Hhigh].
  intros Hlt. destruct (Hlow Hlt) as (H1 & H2 & H3 & H4 & _). auto.
Qed.

(** ** [binary_round]: a mantissa and an exponent given exactly *)

Lemma iter_xO (p : positive) (d : positive) :
  Z.pos (Pos.iter xO p d) = Z.pos p * 2 ^ Z.pos d.
Proof.
  induction d as [|d IH] using Pos.peano_ind.
  - cbn. lia.
  - rewrite Pos.iter_succ, Pos2Z.inj_xO, IH, Pos2Z.inj_succ, Z.pow_succ_r by lia.
    ring.
Qed.

Lemma digits_iter_xO (p : positive) (d : positive) :
  Z.pos (digits2_pos (Pos.iter xO p d)) = Z.pos (digits2_pos p) + Z.pos d.
Proof.
  induction d as [|d IH] using Pos.peano_ind.
  - cbn [Pos.iter digits2_pos]. lia.
  - rewrite Pos.iter_succ. cbn [digits2_pos]. rewrite Pos2Z.inj_succ, IH. lia.
Qed.

Lemma position_exact_intro (m e : Z) (x : Q) :
  0 <= m -> (x == inject_Z m * bpow e)%Q ->
  position (shr_record_of_loc m loc_Exact) e x.
Proof. intros Hm Hx. split; [exact Hm|exact Hx]. Qed.

Lemma binary_round_full (p : positive) (e : Z) (x : Q) :
  (x == inject_Z (Z.pos p) * bpow e)%Q ->
  let r := binary_round JS.prec JS.emax false p e in
  let E := fexp JS.prec JS.emax (Z.pos (digits2_pos p) + e) in
  rounded x r
  /\ ((x < overflow_threshold)%Q ->
      (forall k, (x == inject_Z k * bpow E)%Q -> (value r == x)%Q)
      /\ (forall y, nonneg y ->
            ((x <= value y)%Q -> (value r <= value y)%Q)
            /\ ((value y <= x)%Q -> (value y <= value r)%Q))).
Proof.
  intros Hx r E. subst r. unfold binary_round. fold E.
  assert (Hgen : forall m' e', 0 <= m' -> (x == inject_Z m' * bpow e')%Q ->
            e' <= E -> fexp JS.prec JS.emax (Zdigits2 m' + e') = E ->
            let r := binary_round_aux JS.prec JS.emax false m' e' loc_Exact in
            rounded x r
            /\ ((x < overflow_threshold)%Q ->
                (forall k, (x == inject_Z k * bpow E)%Q -> (value r == x)%Q)
                /\ (forall y, nonneg y ->
                      ((x <= value y)%Q -> (value r <= value y)%Q)
                      /\ ((value y <= x)%Q -> (value y <= value r)%Q)))).
  { intros m' e' Hm' Hx' Hle HE r.
    pose proof (binary_round_aux_full m' e' loc_Exact x
                  (position_exact_intro _ _ _ Hm' Hx')) as H.
    rewrite HE in H. specialize (H Hle). cbv zeta in H. fold r in H.
    destruct H as [Hlow Hhigh]. split; [split|].
    - intros Hlt. destruct (Hlow Hlt) as (H1 & H2 & H3 & _). auto.
    - exact Hhigh.
    - intros Hlt. destruct (Hlow Hlt) as (_ & _ & _ & H4 & H5). auto. }
  unfold shl_align. destruct (E - e) as [|d|d] eqn:Hd.
  - apply Hgen; [lia|exact Hx|lia|reflexivity].
  - apply Hgen; [lia|exact Hx|lia|reflexivity].
  - apply Hgen; [lia| |lia|].
    + rewrite Hx, iter_xO, inject_Z_mult.
      replace e with (Z.pos d + E) by lia. rewrite bpow_add.
      rewrite (bpow_inject (Z.pos d)) by lia. ring.
    + cbn [Zdigits2]. rewrite digits_iter_xO. unfold E. f_equal. lia.
Qed.

Lemma binary_round_spec (p : positive) (e : Z) (x : Q) :
  (x == inject_Z (Z.pos p) * bpow e)%Q ->
  let r := binary_round JS.prec JS.emax false p e in
  let E := fexp JS.prec JS.emax (Z.pos (digits2_pos p) + e) in
  rounded x r
  /\ ((x < overflow_threshold)%Q ->
      forall k, (x == inject_Z k * bpow E)%Q -> (value r == x)%Q).
Proof.
  intros Hx r E. destruct (binary_round_full p e x Hx) as [Hr Hfull].
  split; [exact Hr|]. intros Hlt. exact (proj1 (Hfull Hlt)).
Qed.

(** ** [Number] of a non-negative integer *)

Lemma Number_rounded (z : Z) : 0 <= z -> rounded (inject_Z z) (JS.Number z).
Proof.
  intros Hz. unfold JS.Number, binary_normalize. destruct z as [|p|p]; [| |lia].
  - split; [|intros H; exfalso; revert H; vm_compute; intros H; apply H; reflexivity].
    intros _. split; [exact I|]. cbn [value].
    change (inject_Z 0) with 0%Q. pose proof (bpow_pos (- 1075)) as Ht.
    fold tiny in Ht. unfold unit_roundoff. split; lra.
  - apply binary_round_spec. unfold bpow. change (2 ^ 0)%Q with 1%Q. ring.
Qed.

Lemma Number_exact (z : Z) : 0 <= z < 2 ^ 53 -> (value (JS.Number z) == inject_Z z)%Q.
Proof.
  intros [Hz Hlt]. unfold JS.Number, binary_normalize. destruct z as [|p|p]; [| |lia].
  - reflexivity.
  - assert (Hx : (inject_Z (Z.pos p) == inject_Z (Z.pos p) * bpow 0)%Q)
      by (unfold bpow; change (2 ^ 0)%Q with 1%Q; ring).
    destruct (binary_round_spec p 0 _ Hx) as [_ Hexact]. cbv zeta in Hexact.
    set (E := fexp JS.prec JS.emax (Z.pos (digits2_pos p) + 0)) in *.
    assert (HE : - 1074 <= E <= 0).
    { unfold E. rewrite fexp_eq.
      pose proof (Zdigits2_le (Z.pos p) 53 ltac:(lia) ltac:(lia)) as Hd.
      cbn [Zdigits2] in Hd. lia. }
    apply (Hexact) with (k := Z.pos p * 2 ^ (- E)).
    + apply Qlt_le_trans with (inject_Z (2 ^ 53)).
      * rewrite <- Zlt_Qlt. exact Hlt.
      * vm_compute. discriminate.
    + rewrite inject_Z_mult, <- (bpow_inject (- E)) by lia.
      rewrite <- Qmult_assoc, <- bpow_add.
      replace (- E + E) with 0 by lia. exact Hx.
Qed.

(** ** The values of canonical doubles *)

Lemma threshold_pos : (0 < overflow_threshold)%Q.
Proof. vm_compute. reflexivity. Qed.

Lemma tiny_pos : (0 < tiny)%Q.
Proof. apply bpow_pos. Qed.

Lemma nonneg_value (r : JS.number) : nonneg r -> (0 <= value r)%Q.
Proof.
  destruct r as [[]| | |[] m e]; cbn [nonneg value]; try contradiction; intros _;
    [lra|].
  apply Qmult_le_0_compat; [|apply Qlt_le_weak, bpow_pos].
  change 0%Q with (inject_Z 0). rewrite <- Zle_Qle. lia.
Qed.

Lemma finite_value_pos (m : positive) (e : Z) :
  (0 < value (S754_finite false m e))%Q.
Proof.
  cbn [value]. apply Qmult_lt_0_compat; [|apply bpow_pos].
  change 0%Q with (inject_Z 0). rewrite <- Zlt_Qlt. lia.
Qed.

Lemma bounded_below_threshold (m : positive) (e : Z) :
  bounded JS.prec JS.emax m e = true ->
  (value (S754_finite false m e) < overflow_threshold)%Q.
Proof.
  intros H. destruct (bounded_canonical m e H) as (He & Hd & _).
  cbn [value]. rewrite threshold_eq.
  assert (Hm : Z.pos m <= 2 ^ 53 - 1).
  { pose proof (digits2_pos_bounds m) as [_ Hup].
    assert (2 ^ Z.pos (digits2_pos m) <= 2 ^ 53) by (apply Z.pow_le_mono_r; lia).
    lia. }
  pose proof (scaled_le _ _ e Hm) as H1.
  change (inject_Z (2 ^ 53 - 1)) with (9007199254740992 - 1)%Q in H1.
  pose proof (bpow_le e 971 ltac:(lia)) as H2. pose proof (bpow_pos e). lra.
Qed.

Lemma rounded_self (r : JS.number) : nonneg r -> rounded (value r) r.
Proof.
  intros Hr. pose proof (nonneg_value r Hr) as Hv. pose proof tiny_pos as Ht.
  split.
  - intros _. split; [exact Hr|]. unfold unit_roundoff. split; lra.
  - intros Hover. exfalso. destruct r as [[]| | |[] m e]; cbn [nonneg] in Hr;
      try exact Hr.
    + cbn [value] in Hover. pose proof threshold_pos. lra.
    + pose proof (bounded_below_threshold m e Hr). lra.
Qed.

Lemma rounded_ext (x y : Q) (r : JS.number) :
  (x == y)%Q -> rounded x r -> rounded y r.
Proof.
  intros Hxy [Hlow Hhigh]. split.
  - intros Hlt. rewrite <- Hxy in Hlt. destruct (Hlow Hlt) as (H1 & H2 & H3).
    split; [exact H1|]. rewrite <- Hxy. split; assumption.
  - intros Hover. apply Hhigh. rewrite Hxy. exact Hover.
Qed.

Lemma rounded_zero : rounded 0 (S754_zero false).
Proof. apply (rounded_self (S754_zero false)). exact I. Qed.

(** ** Multiplication *)

Lemma digits_mul_lower (mx my : positive) :
  Z.pos (digits2_pos mx) + Z.pos (digits2_pos my) - 1
  <= Z.pos (digits2_pos (mx * my)).
Proof.
  pose proof (digits2_pos_bounds mx) as [Hx _].
  pose proof (digits2_pos_bounds my) as [Hy _].
  pose proof (digits2_pos_bounds (mx * my)) as [_ Hxy].
  set (dx := Z.pos (digits2_pos mx)) in *. set (dy := Z.pos (digits2_pos my)) in *.
  set (D := Z.pos (digits2_pos (mx * my))) in *.
  assert (Hprod : 2 ^ (dx - 1 + (dy - 1)) <= Z.pos (mx * my)).
  { rewrite Z.pow_add_r by (subst dx dy; lia). rewrite Pos2Z.inj_mul.
    apply Z.mul_le_mono_nonneg; try assumption; apply Z.pow_nonneg; lia. }
  destruct (Z.le_gt_cases (dx + dy - 1) D) as [|Hgt]; [assumption|].
  assert (2 ^ D <= 2 ^ (dx - 1 + (dy - 1)))
    by (apply Z.pow_le_mono_r; subst D; lia).
  lia.
Qed.

Lemma mul_rounded (a b : JS.number) :
  nonneg a -> nonneg b -> rounded (value a * value b) (JS.mul a b).
Proof.
  intros Ha Hb.
  destruct a as [[]| | |[] mx ex]; cbn [nonneg] in Ha; try contradiction;
    destruct b as [[]| | |[] my ey]; cbn [nonneg] in Hb; try contradiction.
  - apply (rounded_ext 0); [cbn [value]; ring|]. exact rounded_zero.
  - apply (rounded_ext 0); [cbn [value]; ring|]. exact rounded_zero.
  - apply (rounded_ext 0); [cbn [value]; ring|]. exact rounded_zero.
  - unfold JS.mul, SFmul. cbn [xorb].
    destruct (bounded_canonical mx ex Ha) as (Hex & Hdx & Hnx).
    destruct (bounded_canonical my ey Hb) as (Hey & Hdy & Hny).
    pose proof (digits_mul_lower mx my) as HD.
    pose proof (digits2_pos_bounds mx) as _.
    assert (Hx : (value (S754_finite false mx ex) * value (S754_finite false my ey)
                  == inject_Z (Z.pos (mx * my)) * bpow (ex + ey))%Q).
    { cbn [value]. rewrite Pos2Z.inj_mul, inject_Z_mult, bpow_add. ring. }
    pose proof (binary_round_aux_spec (Z.pos (mx * my)) (ex + ey) loc_Exact _
                  (position_exact_intro _ _ _ (Pos2Z.is_nonneg _) Hx)) as H.
    cbn [Zdigits2] in H. rewrite fexp_eq in H.
    assert (Hpos_x : 0 < Z.pos (digits2_pos mx)) by lia.
    assert (Hpos_y : 0 < Z.pos (digits2_pos my)) by lia.
    specialize (H ltac:(lia)). cbv zeta in H. destruct H as [Hlow Hhigh].
    split; [|exact Hhigh].
    intros Hlt. destruct (Hlow Hlt) as (H1 & H2 & H3 & _). auto.
Qed.

(** ** Division *)

Lemma scaled_lt (m m' e : Z) :
  m < m' -> (inject_Z m * bpow e < inject_Z m' * bpow e)%Q.
Proof.
  intros H. apply Qmult_lt_r; [apply bpow_pos|]. rewrite <- Zlt_Qlt. exact H.
Qed.

Lemma new_location_spec (my r : Z) :
  0 <= r < my ->
  (new_location my r = loc_Exact /\ r = 0)
  \/ (new_location my r = loc_Inexact Lt /\ 0 < r /\ 2 * r < my)
  \/ (new_location my r = loc_Inexact Eq /\ 2 * r = my)
  \/ (new_location my r = loc_Inexact Gt /\ my < 2 * r).
Proof.
  intros Hr. unfold new_location.
  destruct (Z.even my) eqn:Heven;
    [unfold new_location_even|unfold new_location_odd];
    (destruct (Z.eqb_spec r 0) as [->|Hne]; [left; split; reflexivity|right]).
  - destruct (Z.compare_spec (2 * r) my) as [H|H|H].
    + right. left. split; [reflexivity|exact H].
    + left. split; [reflexivity|lia].
    + right. right. split; [reflexivity|exact H].
  - assert (Hodd : 2 * r <> my).
    { intros <-. rewrite Z.even_mul in Heven. discriminate. }
    destruct (Z.compare_spec (2 * r + 1) my) as [H|H|H].
    + left. split; [reflexivity|lia].
    + left. split; [reflexivity|lia].
    + right. right. split; [reflexivity|lia].
Qed.

Lemma Zdigits2_lower (q k : Z) : 0 <= k -> 2 ^ k <= q -> k + 1 <= Zdigits2 q.
Proof.
  intros Hk Hq. assert (Hpos : 0 < q) by (pose proof (Z.pow_pos_nonneg 2 k); lia).
  pose proof (Zdigits2_bounds q Hpos) as [_ Hup].
  destruct (Z.le_gt_cases (k + 1) (Zdigits2 q)) as [|Hgt]; [assumption|].
  pose proof (Zdigits2_nonneg q).
  assert (2 ^ Zdigits2 q <= 2 ^ k) by (apply Z.pow_le_mono_r; lia). lia.
Qed.

Lemma div_rounded (a b : JS.number) (x : Q) :
  nonneg a -> nonneg b -> (0 < value b)%Q -> (x * value b == value a)%Q ->
  rounded x (JS.div a b).
Proof.
  intros Ha Hb Hvb Hx.
  destruct b as [[]| | |[] my ey]; cbn [nonneg] in Hb; try exact (False_ind _ Hb);
    [cbn [value] in Hvb; lra|].
  destruct a as [[]| | |[] mx ex]; cbn [nonneg] in Ha; try exact (False_ind _ Ha).
  - (* zero divided by a positive double *)
    apply (rounded_ext 0); [|exact rounded_zero].
    cbn [value] in Hx. symmetry.
    apply (Qmult_integral_l (value (S754_finite false my ey)) x).
    + intros H0. rewrite H0 in Hvb. lra.
    + rewrite Qmult_comm. exact Hx.
  - unfold JS.div, SFdiv. cbn [xorb]. unfold SFdiv_core_binary. cbn [Zdigits2].
    set (d1 := Z.pos (digits2_pos mx)). set (d2 := Z.pos (digits2_pos my)).
    set (e' := Z.min (fexp JS.prec JS.emax (d1 + ex - (d2 + ey))) (ex - ey)).
    set (s := ex - ey - e').
    assert (Hs : 0 <= s) by (subst s e'; lia).
    set (m' := match s with
               | 0 => Z.pos mx
               | Z.pos _ => Z.shiftl (Z.pos mx) s
               | Z.neg _ => 0
               end).
    assert (Hm' : m' = Z.pos mx * 2 ^ s).
    { subst m'. destruct s as [|p|p] eqn:Hsv; [cbn; lia| |lia].
      apply Z.shiftl_mul_pow2. lia. }
    pose proof (Z_div_mod m' (Z.pos my) ltac:(lia)) as Hdiv.
    destruct (Z.div_eucl m' (Z.pos my)) as [q r]. destruct Hdiv as [Hqr Hr].
    assert (Hm'pos : 0 < m') by (rewrite Hm'; pose proof (Z.pow_pos_nonneg 2 s); nia).
    assert (Hq : 0 <= q) by nia.
    pose proof (bpow_pos e') as HB. pose proof (bpow_pos ey) as HBy.
    set (B := bpow e') in *.
    assert (Hkey : (x * inject_Z (Z.pos my)
                    == (inject_Z (Z.pos my) * inject_Z q + inject_Z r) * B)%Q).
    { rewrite <- inject_Z_mult, <- inject_Z_plus, <- Hqr, Hm', inject_Z_mult.
      rewrite <- (bpow_inject s) by exact Hs.
      cbn [value] in Hx.
      apply (Qmult_inj_r _ _ (bpow ey)); [pose proof (bpow_pos ey); lra|].
      rewrite <- Qmult_assoc, Hx.
      replace ex with (s + e' + ey) by (subst s; lia).
      rewrite !bpow_add. fold B. ring. }
    assert (Hmy : (0 < inject_Z (Z.pos my))%Q).
    { change 0%Q with (inject_Z 0). rewrite <- Zlt_Qlt. lia. }
    assert (Hpos : position (shr_record_of_loc q (new_location (Z.pos my) r)) e' x).
    { pose proof (scaled_le 0 r e' ltac:(lia)) as Hr0.
      change (inject_Z 0) with 0%Q in Hr0. fold B in Hr0.
      destruct (new_location_spec (Z.pos my) r Hr)
        as [[-> Hr']|[[-> [Hr1 Hr2]]|[[-> Hr']|[-> Hr']]]];
        (split; [destruct (new_location (Z.pos my) r) as [|[]]; exact Hq|]);
        cbn [shr_record_of_loc shr_m shr_r shr_s]; cbv zeta; fold B.
      - subst r. change (inject_Z 0) with 0%Q in Hkey.
        apply (Qmult_inj_r _ _ (inject_Z (Z.pos my))); [lra|].
        rewrite Hkey. ring.
      - pose proof (scaled_lt 0 r e' Hr1) as H1.
        pose proof (scaled_lt (2 * r) (Z.pos my) e' Hr2) as H2.
        rewrite inject_Z_mult in H2. change (inject_Z 0) with 0%Q in H1.
        change (inject_Z 2) with 2%Q in H2. fold B in H1, H2.
        split; apply (Qmult_lt_r _ _ (inject_Z (Z.pos my))); try exact Hmy;
          rewrite Hkey; lra.
      - assert (H2 : (2 * (inject_Z r * B) == inject_Z (Z.pos my) * B)%Q).
        { rewrite <- Hr', inject_Z_mult. change (inject_Z 2) with 2%Q. ring. }
        apply (Qmult_inj_r _ _ (inject_Z (Z.pos my))); [lra|].
        rewrite Hkey. lra.
      - pose proof (scaled_lt (Z.pos my) (2 * r) e' Hr') as H2.
        pose proof (scaled_lt r (Z.pos my) e' ltac:(lia)) as H3.
        rewrite inject_Z_mult in H2. change (inject_Z 2) with 2%Q in H2.
        fold B in H2, H3.
        split; apply (Qmult_lt_r _ _ (inject_Z (Z.pos my))); try exact Hmy;
          rewrite Hkey; lra. }
    assert (Hdig : e' <= fexp JS.prec JS.emax (Zdigits2 q + e')).
    { rewrite fexp_eq. destruct (Z.le_gt_cases e' (- 1074)) as [|Hbig]; [lia|].
      assert (He' : e' <= d1 + ex - (d2 + ey) - 53).
      { subst e'. rewrite fexp_eq in Hbig |- *. lia. }
      assert (Hs' : 53 + d2 - d1 <= s) by (subst s; lia).
      pose proof (digits2_pos_bounds mx) as [Hmx _]. fold d1 in Hmx.
      pose proof (digits2_pos_bounds my) as [_ Hmy2]. fold d2 in Hmy2.
      destruct (bounded_canonical mx ex Ha) as (_ & Hd1le & _). fold d1 in Hd1le.
      assert (Hd1 : 0 < d1) by (subst d1; lia).
      assert (Hd2 : 0 < d2) by (subst d2; lia).
      assert (Hbig' : 2 ^ 52 * 2 ^ d2 <= m').
      { rewrite Hm', <- Z.pow_add_r by lia.
        replace (52 + d2) with (d1 - 1 + (53 + d2 - d1)) by lia.
        rewrite Z.pow_add_r by lia.
        apply Z.mul_le_mono_nonneg; try assumption; try (apply Z.pow_nonneg; lia).
        apply Z.pow_le_mono_r; lia. }
      assert (Hq52 : 2 ^ 52 <= q).
      { destruct (Z.le_gt_cases (2 ^ 52) q) as [|Hlt]; [assumption|]. exfalso.
        assert (Z.pos my * (q + 1) <= Z.pos my * 2 ^ 52)
          by (apply Z.mul_le_mono_nonneg_l; lia).
        assert (Z.pos my * 2 ^ 52 < 2 ^ 52 * 2 ^ d2) by lia. lia. }
      pose proof (Zdigits2_lower q 52 ltac:(lia) Hq52). lia. }
    pose proof (binary_round_aux_spec q e' _ x Hpos Hdig) as H.
    cbv zeta in H. destruct H as [Hlow Hhigh].
    split; [|exact Hhigh].
    intros Hlt. destruct (Hlow Hlt) as (H1 & H2 & H3 & _). auto.
Qed.

(** ** Addition *)

Lemma shl_align_value (mx : positive) (ex ez : Z) :
  ez <= ex ->
  Z.pos (fst (shl_align mx ex ez)) = Z.pos mx * 2 ^ (ex - ez).
Proof.
  intros Hle. unfold shl_align. destruct (ez - ex) as [|d|d] eqn:Hd; cbn [fst].
  - replace (ex - ez) with 0 by lia. lia.
  - lia.
  - rewrite iter_xO. f_equal. f_equal. lia.
Qed.

Lemma add_rounded (a b : JS.number) :
  nonneg a -> nonneg b -> rounded (value a + value b) (JS.add a b).
Proof.
  intros Ha Hb.
  destruct a as [[]| | |[] mx ex]; cbn [nonneg] in Ha; try exact (False_ind _ Ha);
    destruct b as [[]| | |[] my ey]; cbn [nonneg] in Hb; try exact (False_ind _ Hb).
  - apply (rounded_ext 0); [cbn [value]; ring|]. exact rounded_zero.
  - apply (rounded_ext (value (S754_finite false my ey))); [cbn [value]; ring|].
    apply (rounded_self (S754_finite false my ey)). exact Hb.
  - apply (rounded_ext (value (S754_finite false mx ex))); [cbn [value]; ring|].
    apply (rounded_self (S754_finite false mx ex)). exact Ha.
  - unfold JS.add, SFadd. cbn [cond_Zopp].
    set (ez := Z.min ex ey).
    pose proof (shl_align_value mx ex ez ltac:(subst ez; lia)) as Hx.
    pose proof (shl_align_value my ey ez ltac:(subst ez; lia)) as Hy.
    set (P := fst (shl_align mx ex ez)) in *.
    set (R := fst (shl_align my ey ez)) in *.
    cbn [Z.add binary_normalize].
    eapply rounded_ext; [|apply binary_round_spec; reflexivity].
    rewrite Pos2Z.inj_add, Hx, Hy, inject_Z_plus, !inject_Z_mult.
    rewrite <- !bpow_inject by (subst ez; lia). cbn [value].
    assert (Hex : (bpow ex == bpow (ex - ez) * bpow ez)%Q).
    { rewrite <- bpow_add. replace (ex - ez + ez) with ex by lia. reflexivity. }
    assert (Hey : (bpow ey == bpow (ey - ez) * bpow ez)%Q).
    { rewrite <- bpow_add. replace (ey - ez + ez) with ey by lia. reflexivity. }
    rewrite Hex, Hey. ring.
Qed.

(** ** Powers of two *)

Lemma pow2_value (n : Z) :
  - 1074 <= n <= 1023 ->
  nonneg (JS.pow2 n) /\ (value (JS.pow2 n) == bpow n)%Q.
Proof.
  intros Hn. unfold JS.pow2.
  change (JS.Number 1) with (S754_finite false 4503599627370496 (- 52)).
  unfold SFldexp.
  assert (Hx : (bpow n == inject_Z (Z.pos 4503599627370496) * bpow (- 52 + n))%Q).
  { rewrite bpow_add. change (inject_Z (Z.pos 4503599627370496) * bpow (- 52))%Q
      with (4503599627370496 * bpow (- 52))%Q.
    assert (H1 : (4503599627370496 * bpow (- 52) == 1)%Q) by (vm_compute; reflexivity).
    rewrite Qmult_assoc, H1. ring. }
  destruct (binary_round_spec 4503599627370496 (- 52 + n) (bpow n) Hx)
    as [[Hlow _] Hexact].
  cbv zeta in Hexact.
  change (Z.pos (digits2_pos 4503599627370496)) with 53 in Hexact.
  rewrite fexp_eq in Hexact.
  assert (Hlt : (bpow n < overflow_threshold)%Q).
  { apply Qle_lt_trans with (bpow 1023); [apply bpow_le; lia|].
    vm_compute. reflexivity. }
  destruct (Hlow Hlt) as (Hnn & _). split; [exact Hnn|].
  set (E := Z.max (53 + (- 52 + n) - 53) (- 1074)) in *.
  apply (Hexact Hlt (2 ^ (n - E))).
  rewrite <- bpow_inject by (subst E; lia). rewrite <- bpow_add.
  replace (n - E + E) with n by lia. reflexivity.
Qed.

(** ** The final ratio of the solver *)

Lemma Qmult_le_nonneg_l (x y z : Q) : (0 <= z -> x <= y -> z * x <= z * y)%Q.
Proof.
  intros Hz Hxy. rewrite (Qmult_comm z x), (Qmult_comm z y).
  apply Qmult_le_compat_r; assumption.
Qed.

Lemma tiny_small : (tiny <= 1 # 1000000000000000000000000000000)%Q.
Proof. vm_compute. discriminate. Qed.

Lemma threshold_large : (1000 < overflow_threshold)%Q.
Proof. vm_compute. reflexivity. Qed.

(** [Number] of a non-negative integer below the threshold: the relative
    error is at most [2^-52]. *)
Lemma Number_bounds (z : Z) :
  0 <= z -> (inject_Z z < overflow_threshold)%Q ->
  nonneg (JS.Number z)
  /\ (inject_Z z * (1 - (1 # 4503599627370496)) <= value (JS.Number z))%Q
  /\ (value (JS.Number z) <= inject_Z z * (1 + (1 # 4503599627370496)))%Q.
Proof.
  intros Hz Hlt. destruct (Number_rounded z Hz) as [Hlow _].
  destruct (Hlow Hlt) as (Hnn & H1 & H2). split; [exact Hnn|].
  destruct (Z.eq_dec z 0) as [->|Hne].
  - change (JS.Number 0) with (S754_zero false). cbn [value].
    change (inject_Z 0) with 0%Q. split; lra.
  - assert (H1z : (1 <= inject_Z z)%Q).
    { change 1%Q with (inject_Z 1). rewrite <- Zle_Qle. lia. }
    pose proof tiny_small. unfold unit_roundoff in *. split; lra.
Qed.




(** ** Pascal's triangle *)

Section Pascal.

Lemma binom_0_r (n : nat) : binom n 0 = 1.
Proof. destruct n; reflexivity. Qed.

Lemma binom_above (n k : nat) : (n < k)%nat -> binom n k = 0.
Proof.
  revert k. induction n as [|n IH]; intros [|k] Hlt; simpl; try lia.
  rewrite !IH by lia. reflexivity.
Qed.

Lemma binom_diag (n : nat) : binom n n = 1.
Proof.
  induction n as [|n IH]; simpl; [reflexivity|].
  rewrite IH, binom_above by lia. reflexivity.
Qed.

Lemma binom_nonneg (n k : nat) : 0 <= binom n k.
Proof.
  revert k. induction n as [|n IH]; intros [|k]; simpl; try lia.
  pose proof (IH k). pose proof (IH (S k)). lia.
Qed.

Lemma binom_pos (n k : nat) : (k <= n)%nat -> 0 < binom n k.
Proof.
  revert k. induction n as [|n IH]; intros [|k] Hle; simpl; try lia.
  pose proof (IH k ltac:(lia)). pose proof (binom_nonneg n (S k)). lia.
Qed.

(** The absorption identity behind the multiply-then-divide step. *)
Lemma binom_absorb (n k : nat) :
  (Z.of_nat k + 1) * binom n (S k) = (Z.of_nat n - Z.of_nat k) * binom n k.
Proof.
  revert k. induction n as [|n IH]; intros k.
  - destruct k; simpl; lia.
  - destruct k as [|k].
    + pose proof (IH 0%nat) as H0. cbn [binom]. rewrite !binom_0_r in *. lia.
    + pose proof (IH k) as Hk. pose proof (IH (S k)) as HSk.
      cbn [binom]. rewrite !Nat2Z.inj_succ in *.
      replace (Z.succ (Z.of_nat n) - Z.succ (Z.of_nat k))
        with (Z.of_nat n - Z.of_nat k) by lia.
      rewrite !Z.mul_add_distr_l. rewrite HSk, <- Hk. ring.
Qed.

Lemma binom_sym (n k : nat) : (k <= n)%nat -> binom n k = binom n (n - k).
Proof.
  revert k. induction n as [|n IH]; intros k Hle.
  - assert (k = 0%nat) as -> by lia. reflexivity.
  - destruct k as [|k].
    + rewrite Nat.sub_0_r, binom_diag. reflexivity.
    + destruct (Nat.eq_dec k n) as [->|Hne].
      * rewrite Nat.sub_diag, binom_diag. reflexivity.
      * replace (S n - S k)%nat with (S (n - S k)) by lia.
        cbn [binom]. rewrite (IH k) by lia. rewrite (IH (S k)) by lia.
        replace (n - k)%nat with (S (n - S k)) by lia. lia.
Qed.

(** The entries of row [n] from column [k] on. *)
Lemma binom_row_step (n k : nat) (len : nat) :
  Zsum (map (fun j => binom (S n) (Z.to_nat j)) (Zrange (Z.of_nat (S k)) len))
  = Zsum (map (fun j => binom n (Z.to_nat j)) (Zrange (Z.of_nat k) len))
    + Zsum (map (fun j => binom n (Z.to_nat j)) (Zrange (Z.of_nat (S k)) len)).
Proof.
  revert k. induction len as [|len IH]; intros k; [reflexivity|].
  cbn [Zrange map Zsum fold_right]. fold (Zsum).
  replace (Z.of_nat (S k) + 1) with (Z.of_nat (S (S k))) by lia.
  replace (Z.of_nat k + 1) with (Z.of_nat (S k)) by lia.
  fold (Zsum (map (fun j => binom (S n) (Z.to_nat j)) (Zrange (Z.of_nat (S (S k))) len))).
  fold (Zsum (map (fun j => binom n (Z.to_nat j)) (Zrange (Z.of_nat (S k)) len))).
  fold (Zsum (map (fun j => binom n (Z.to_nat j)) (Zrange (Z.of_nat (S (S k))) len))).
  rewrite (IH (S k)). rewrite !Nat2Z.id. cbn [binom]. lia.
Qed.

End Pascal.

(** ** Sums over integer ranges *)

Lemma Zsum_app (l1 l2 : list Z) : Zsum (l1 ++ l2) = Zsum l1 + Zsum l2.
Proof. induction l1 as [|x l1 IH]; simpl; [reflexivity|]. rewrite IH. lia. Qed.

Lemma Zrange_snoc (lo : Z) (len : nat) :
  Zrange lo (S len) = Zrange lo len ++ [lo + Z.of_nat len].
Proof.
  revert lo. induction len as [|len IH]; intros lo.
  - simpl. f_equal. lia.
  - change (Zrange lo (S (S len))) with (lo :: Zrange (lo + 1) (S len)).
    rewrite IH. simpl. do 2 f_equal. f_equal. lia.
Qed.

Lemma in_Zrange (lo : Z) (len : nat) (x : Z) :
  In x (Zrange lo len) <-> lo <= x < lo + Z.of_nat len.
Proof.
  revert lo. induction len as [|len IH]; intros lo; simpl.
  - lia.
  - rewrite IH. lia.
Qed.

Lemma in_interval (lo hi x : Z) : In x (interval lo hi) <-> lo <= x <= hi.
Proof. unfold interval. rewrite in_Zrange. lia. Qed.

Lemma Zsum_map_ext (f g : Z -> Z) (l : list Z) :
  (forall x, In x l -> f x = g x) -> Zsum (map f l) = Zsum (map g l).
Proof.
  intros H. induction l as [|x l IH]; simpl; [reflexivity|].
  rewrite H by (left; reflexivity). rewrite IH; [reflexivity|].
  intros y Hy. apply H. right. exact Hy.
Qed.

Lemma Zsum_map_zero (f : Z -> Z) (l : list Z) :
  (forall x, In x l -> f x = 0) -> Zsum (map f l) = 0.
Proof.
  intros H. induction l as [|x l IH]; simpl; [reflexivity|].
  rewrite H by (left; reflexivity). rewrite IH; [reflexivity|].
  intros y Hy. apply H. right. exact Hy.
Qed.


(** ** The rows of Pascal's triangle sum to powers of two *)

Lemma binom_row_sum (n : nat) :
  Zsum (map (fun j => binom n (Z.to_nat j)) (Zrange 0 (S n))) = 2 ^ Z.of_nat n.
Proof.
  induction n as [|n IH]; [reflexivity|].
  change (Zrange 0 (S (S n))) with (0 :: Zrange (Z.of_nat 1) (S n)).
  cbn [map Zsum fold_right]. fold Zsum.
  fold (Zsum (map (fun j => binom (S n) (Z.to_nat j)) (Zrange (Z.of_nat 1) (S n)))).
  rewrite (binom_row_step n 0 (S n)).
  change (Z.of_nat 0) with 0. rewrite IH.
  rewrite Zrange_snoc, map_app, Zsum_app.
  change (Zrange 0 (S n)) with (0 :: Zrange (Z.of_nat 1) n) in IH.
  cbn [map Zsum fold_right] in IH. fold Zsum in IH.
  fold (Zsum (map (fun j => binom n (Z.to_nat j)) (Zrange (Z.of_nat 1) n))) in IH.
  cbn [map Zsum fold_right]. 
  replace (Z.to_nat (Z.of_nat 1 + Z.of_nat n)) with (S n) by lia.
  rewrite (binom_above n (S n)) by lia.
  change (Z.to_nat 0) with 0%nat in *. rewrite binom_0_r in IH.
  change (binom (S n) 0) with 1.
  replace (2 ^ Z.of_nat (S n)) with (2 * 2 ^ Z.of_nat n)
    by (rewrite (Nat2Z.inj_succ n), Z.pow_succ_r; lia).
  lia.
Qed.

(** ** [combinations] computes the binomial coefficient *)

Lemma combinations_loop_binom (fuel n j : nat) :
  combinations_loop fuel (Z.of_nat n) (Z.of_nat j + 1) (binom n j)
  = binom n (j + fuel).
Proof.
  revert j. induction fuel as [|fuel IH]; intros j.
  - rewrite Nat.add_0_r. reflexivity.
  - cbn [combinations_loop].
    replace (binom n j * (Z.of_nat n - (Z.of_nat j + 1) + 1))
      with (binom n (S j) * (Z.of_nat j + 1))
      by (pose proof (binom_absorb n j); lia).
    rewrite Z.quot_mul by lia.
    replace (Z.of_nat j + 1 + 1) with (Z.of_nat (S j) + 1) by lia.
    rewrite IH. f_equal. lia.
Qed.

Lemma combinations_loop_from_one (n k : Z) :
  0 <= n -> 0 <= k ->
  combinations_loop (Z.to_nat k) n 1 1 = binom (Z.to_nat n) (Z.to_nat k).
Proof.
  intros Hn Hk.
  pose proof (combinations_loop_binom (Z.to_nat k) (Z.to_nat n) 0) as H.
  rewrite Z2Nat.id in H by lia. rewrite binom_0_r in H. exact H.
Qed.

Lemma combinations_binomial (n k : Z) : combinations n k = binomial n k.
Proof.
  unfold combinations, binomial, reduced_k.
  destruct (Z.ltb_spec k 0) as [Hk|Hk]; cbn [orb].
  { rewrite orb_true_r. reflexivity. }
  destruct (Z.ltb_spec n k) as [Hnk|Hnk]; cbn [orb].
  { destruct (Z.ltb_spec n 0); [reflexivity|]. cbn [orb].
    symmetry. apply binom_above. lia. }
  destruct (Z.ltb_spec n 0) as [Hn|Hn]; [lia|]. cbn [orb].
  destruct (Z.eqb_spec k 0) as [->|Hk0]; cbn [orb].
  { symmetry. apply binom_0_r. }
  destruct (Z.eqb_spec k n) as [->|Hkn].
  { symmetry. apply binom_diag. }
  destruct (Z.ltb_spec n (2 * k)).
  - rewrite combinations_loop_from_one by lia.
    rewrite (binom_sym (Z.to_nat n) (Z.to_nat k)) by lia.
    f_equal. lia.
  - apply combinations_loop_from_one; lia.
Qed.

Lemma binomial_nonneg (n k : Z) : 0 <= binomial n k.
Proof.
  unfold binomial. destruct ((n <? 0) || (k <? 0)); [lia|]. apply binom_nonneg.
Qed.

Lemma binomial_pos (n k : Z) : 0 <= k <= n -> 0 < binomial n k.
Proof.
  intros H. unfold binomial.
  destruct (Z.ltb_spec n 0); [lia|]. destruct (Z.ltb_spec k 0); [lia|].
  cbn [orb]. apply binom_pos. lia.
Qed.

Lemma binomial_above (n k : Z) : n < k -> binomial n k = 0.
Proof.
  intros H. unfold binomial.
  destruct (Z.ltb_spec n 0); [reflexivity|]. destruct (Z.ltb_spec k 0); [lia|].
  cbn [orb]. apply binom_above. lia.
Qed.

Lemma binomial_row_sum (n : Z) :
  0 <= n -> Zsum (map (binomial n) (interval 0 n)) = 2 ^ n.
Proof.
  intros Hn. unfold interval.
  replace (Z.to_nat (n - 0 + 1)) with (S (Z.to_nat n)) by lia.
  rewrite <- (Z2Nat.id n) at 3 by lia. rewrite <- binom_row_sum.
  apply Zsum_map_ext. intros x Hx. apply in_Zrange in Hx.
  unfold binomial.
  destruct (Z.ltb_spec n 0); [lia|]. destruct (Z.ltb_spec x 0); [lia|].
  reflexivity.
Qed.

(** ** The cache of [combinations] is transparent *)

Lemma memo_ok_empty : memo_ok ∅.
Proof. intros n k v H. rewrite lookup_empty in H. discriminate. Qed.

Lemma memo_ok_insert (comboMemo : gmap (Z * Z) Z) (n k : Z) :
  memo_ok comboMemo ->
  memo_ok (<[(n, k) := combinations_loop (Z.to_nat k) n 1 1]> comboMemo).
Proof.
  intros Hok n' k' v. rewrite lookup_insert.
  destruct (decide ((n, k) = (n', k'))) as [Heq|Hne].
  - injection Heq as <- <-. intros [= <-]. reflexivity.
  - apply Hok.
Qed.

Lemma combinations_memo_correct (comboMemo : gmap (Z * Z) Z) (n k : Z) :
  memo_ok comboMemo ->
  fst (combinations_memo comboMemo n k) = combinations n k
  /\ memo_ok (snd (combinations_memo comboMemo n k)).
Proof.
  intros Hok. unfold combinations_memo, combinations.
  destruct ((k <? 0) || (n <? k)); [split; [reflexivity|exact Hok]|].
  destruct ((k =? 0) || (k =? n)); [split; [reflexivity|exact Hok]|].
  cbv zeta.
  destruct (comboMemo !! (n, reduced_k n k)) as [cached|] eqn:Hlook.
  - destruct (negb (cached =? 0)); cbn [fst snd].
    + split; [apply Hok; exact Hlook|exact Hok].
    + split; [reflexivity|apply memo_ok_insert; exact Hok].
  - cbn [fst snd]. split; [reflexivity|apply memo_ok_insert; exact Hok].
Qed.

(** ** The solver enumerates exactly the feasible tuples *)

Lemma Zsum_cons (x : Z) (l : list Z) : Zsum (x :: l) = x + Zsum l.
Proof. reflexivity. Qed.

Lemma Zsum_nonneg (l : list Z) : (forall x, In x l -> 0 <= x) -> 0 <= Zsum l.
Proof.
  intros H. induction l as [|x l IH]; [cbn; lia|].
  rewrite Zsum_cons. pose proof (H x (or_introl eq_refl)).
  assert (0 <= Zsum l) by (apply IH; intros y Hy; apply H; right; exact Hy).
  lia.
Qed.

Lemma for_up_sum (c : Z) (f : Z -> Z) (body : Z -> Z -> Z) (fuel : nat) :
  forall i acc,
    (forall j a, In j (Zrange i fuel) -> body j a = a + c * f j) ->
    for_up body fuel i acc = acc + c * Zsum (map f (Zrange i fuel)).
Proof.
  induction fuel as [|fuel IH]; intros i acc Hbody; cbn [for_up Zrange map].
  - simpl. lia.
  - rewrite IH.
    + rewrite Hbody by (left; reflexivity). simpl. lia.
    + intros j a Hj. apply Hbody. right. exact Hj.
Qed.

Lemma feasible_cons (handSize otherCount take : Z) (takes : list Z) :
  feasible handSize otherCount (take :: takes)
  = feasible (handSize - take) otherCount takes.
Proof.
  unfold feasible. cbn [Zsum fold_right]. fold (Zsum takes).
  replace (handSize - (take + Zsum takes)) with (handSize - take - Zsum takes) by lia.
  f_equal. apply eq_true_iff_eq. rewrite !Z.leb_le. lia.
Qed.

Lemma tuple_ways_cons (handSize otherCount take : Z) (g : HyperGroup)
    (rest : list HyperGroup) (takes : list Z) :
  tuple_ways handSize otherCount (g :: rest) (take :: takes)
  = binomial (countInDeck g) take
    * tuple_ways (handSize - take) otherCount rest takes.
Proof.
  unfold tuple_ways. cbn [group_ways Zsum fold_right]. fold (Zsum takes).
  replace (handSize - (take + Zsum takes)) with (handSize - take - Zsum takes) by lia.
  ring.
Qed.

Lemma ways_from_take (handSize otherCount take : Z) (g : HyperGroup)
    (rest : list HyperGroup) (tuples : list (list Z)) :
  Zsum (map (tuple_ways handSize otherCount (g :: rest))
          (List.filter (feasible handSize otherCount) (map (cons take) tuples)))
  = binomial (countInDeck g) take
    * Zsum (map (tuple_ways (handSize - take) otherCount rest)
              (List.filter (feasible (handSize - take) otherCount) tuples)).
Proof.
  induction tuples as [|ts tuples IH]; [simpl; lia|].
  cbn [map List.filter]. rewrite feasible_cons.
  destruct (feasible (handSize - take) otherCount ts); [|exact IH].
  rewrite !map_cons, !Zsum_cons, IH, tuple_ways_cons. ring.
Qed.

(** The sum over the tuples of [g :: rest] splits on the take from [g]. *)
Lemma ways_from_cons (handSize otherCount : Z) (g : HyperGroup)
    (rest : list HyperGroup) :
  ways_from handSize otherCount (g :: rest)
  = Zsum (map (fun take => binomial (countInDeck g) take
                           * ways_from (handSize - take) otherCount rest)
            (interval (minDesired g) (maxDesired g))).
Proof.
  unfold ways_from. cbn [allocations].
  induction (interval (minDesired g) (maxDesired g)) as [|take l IH];
    [reflexivity|].
  cbn [flat_map]. rewrite map_cons, Zsum_cons.
  rewrite List.filter_app, map_app, Zsum_app, IH, ways_from_take. reflexivity.
Qed.

(** With non-negative lower bounds every tuple has a non-negative sum. *)
Lemma allocations_sum_nonneg (groups : list HyperGroup) (takes : list Z) :
  Forall (fun g => 0 <= minDesired g) groups ->
  In takes (allocations groups) -> 0 <= Zsum takes.
Proof.
  revert takes. induction groups as [|g rest IH]; intros takes Hmin Hin.
  - destruct Hin as [<-|[]]. simpl. lia.
  - inversion Hmin as [|g' rest' Hg Hrest]; subst.
    cbn [allocations] in Hin. apply in_flat_map in Hin.
    destruct Hin as [take [Htake Hin]]. apply in_map_iff in Hin.
    destruct Hin as [ts [<- Hts]]. apply in_interval in Htake.
    pose proof (IH ts Hrest Hts). simpl. fold (Zsum ts). lia.
Qed.

Lemma filter_none {A : Type} (p : A -> bool) (l : list A) :
  (forall x, In x l -> p x = false) -> List.filter p l = [].
Proof.
  intros H. induction l as [|x l IH]; [reflexivity|].
  simpl. rewrite H by (left; reflexivity). apply IH.
  intros y Hy. apply H. right. exact Hy.
Qed.

Lemma ways_from_negative (handSize otherCount : Z) (groups : list HyperGroup) :
  Forall (fun g => 0 <= minDesired g) groups ->
  handSize < 0 -> ways_from handSize otherCount groups = 0.
Proof.
  intros Hmin Hneg. unfold ways_from.
  rewrite filter_none; [reflexivity|].
  intros ts Hts. pose proof (allocations_sum_nonneg groups ts Hmin Hts).
  unfold feasible. destruct (Z.leb_spec (Zsum ts) handSize); [lia|reflexivity].
Qed.

Lemma Zrange_app (lo : Z) (a b : nat) :
  Zrange lo (a + b) = Zrange lo a ++ Zrange (lo + Z.of_nat a) b.
Proof.
  revert lo. induction a as [|a IH]; intros lo.
  - simpl. f_equal. lia.
  - cbn [Nat.add Zrange app]. rewrite IH.
    replace (lo + Z.of_nat (S a)) with (lo + 1 + Z.of_nat a) by lia.
    reflexivity.
Qed.

(** Dropping a tail of the range on which the summand vanishes. *)
Lemma Zsum_interval_truncate (f : Z -> Z) (lo hi' hi : Z) :
  hi' <= hi -> (forall t, hi' < t <= hi -> f t = 0) ->
  Zsum (map f (interval lo hi')) = Zsum (map f (interval lo hi)).
Proof.
  intros Hle Hzero.
  destruct (Z.lt_ge_cases hi' lo) as [Hempty|Hne].
  - unfold interval at 1. replace (Z.to_nat (hi' - lo + 1)) with 0%nat by lia.
    symmetry. apply Zsum_map_zero. intros t Ht. apply in_interval in Ht.
    apply Hzero. lia.
  - unfold interval.
    replace (Z.to_nat (hi - lo + 1))
      with (Z.to_nat (hi' - lo + 1) + Z.to_nat (hi - hi'))%nat by lia.
    rewrite Zrange_app, map_app, Zsum_app.
    rewrite (Zsum_map_zero f (Zrange _ (Z.to_nat (hi - hi')))); [lia|].
    intros t Ht. apply in_Zrange in Ht. apply Hzero. lia.
Qed.

Lemma ways_from_nil (handSize otherCount : Z) :
  ways_from handSize otherCount []
  = if (0 <=? handSize) && (handSize <=? otherCount)
    then binomial otherCount handSize else 0.
Proof.
  unfold ways_from, feasible, tuple_ways. cbn [allocations List.filter Zsum fold_right].
  rewrite Z.sub_0_r.
  destruct ((0 <=? handSize) && (handSize <=? otherCount));
    cbn [map Zsum fold_right group_ways]; rewrite ?Z.sub_0_r; lia.
Qed.

Lemma solve_ways_from (otherCount : Z) (groups : list HyperGroup) :
  Forall (fun g => 0 <= minDesired g) groups ->
  forall remainingHand currentWays total,
    solve otherCount groups remainingHand currentWays total
    = total + currentWays * ways_from remainingHand otherCount groups.
Proof.
  induction groups as [|g rest IH]; intros Hmin remainingHand currentWays total.
  - cbn [solve]. rewrite ways_from_nil, combinations_binomial.
    destruct (Z.ltb_spec remainingHand 0) as [Hneg|Hpos].
    + destruct (Z.leb_spec 0 remainingHand); [lia|]. cbn [andb]. lia.
    + destruct (Z.leb_spec 0 remainingHand); [|lia]. cbn [andb].
      destruct (remainingHand <=? otherCount); lia.
  - inversion Hmin as [|g' rest' Hg Hrest]; subst.
    cbn [solve].
    destruct (Z.ltb_spec remainingHand 0) as [Hneg|Hpos].
    { rewrite ways_from_negative by assumption. lia. }
    rewrite (for_up_sum currentWays
               (fun take => binomial (countInDeck g) take
                            * ways_from (remainingHand - take) otherCount rest)).
    + f_equal. f_equal. rewrite ways_from_cons.
      rewrite Z.max_r by exact Hg.
      apply (Zsum_interval_truncate _ (minDesired g)); [lia|].
      intros t Ht.
      destruct (Z.lt_ge_cases (countInDeck g) t) as [Hcount|Hcount].
      * rewrite binomial_above by exact Hcount. lia.
      * rewrite (ways_from_negative (remainingHand - t)) by (assumption || lia).
        lia.
    + intros take a _. cbv zeta. rewrite combinations_binomial.
      pose proof (binomial_nonneg (countInDeck g) take) as Hnn.
      destruct (Z.ltb_spec 0 (binomial (countInDeck g) take)) as [Hw|Hw].
      * rewrite (IH Hrest). ring.
      * replace (binomial (countInDeck g) take) with 0 by lia. lia.
Qed.

Lemma fold_left_count (groups : list HyperGroup) (acc : Z) :
  fold_left (fun a g => a + countInDeck g) groups acc
  = acc + Zsum (map countInDeck groups).
Proof.
  revert acc. induction groups as [|g rest IH]; intros acc; simpl; [lia|].
  rewrite IH. fold (Zsum (map countInDeck rest)). lia.
Qed.

(** The solver's result on every configuration it does not reject. *)
Lemma calculateMultivariateHyper_accepted (deckSize handSize : Z)
    (groups : list HyperGroup) :
  0 <= handSize <= deckSize ->
  Forall (fun g => 0 <= minDesired g) groups ->
  Zsum (map countInDeck groups) <= deckSize ->
  calculateMultivariateHyper deckSize handSize groups
  = percentage (successful_ways deckSize handSize groups)
      (binomial deckSize handSize).
Proof.
  intros Hhand Hmin Hsum. unfold calculateMultivariateHyper.
  destruct (Z.ltb_spec deckSize handSize); [lia|].
  destruct (Z.ltb_spec handSize 0); [lia|]. cbn [orb].
  rewrite fold_left_count, Z.add_0_l.
  destruct (Z.ltb_spec deckSize (Zsum (map countInDeck groups))); [lia|].
  cbv zeta. rewrite combinations_binomial.
  pose proof (binomial_pos deckSize handSize Hhand).
  destruct (Z.eqb_spec (binomial deckSize handSize) 0); [lia|].
  rewrite solve_ways_from by exact Hmin.
  unfold successful_ways. f_equal. lia.
Qed.

(** ** [allocations] lists every tuple within the bounds, each once *)

Lemma in_allocations (groups : list HyperGroup) (takes : list Z) :
  In takes (allocations groups) <-> Forall2 within_bounds groups takes.
Proof.
  revert takes. induction groups as [|g rest IH]; intros takes; cbn [allocations].
  - split.
    + intros [<-|[]]. constructor.
    + intros H. inversion H. left. reflexivity.
  - rewrite in_flat_map. split.
    + intros [take [Htake Hin]]. apply in_map_iff in Hin.
      destruct Hin as [ts [<- Hts]]. constructor.
      * apply in_interval. exact Htake.
      * apply IH. exact Hts.
    + intros H. inversion H as [|g' take rest' ts Hb Hrest]; subst.
      exists take. split; [apply in_interval; exact Hb|].
      apply in_map. apply IH. exact Hrest.
Qed.

Lemma NoDup_Zrange (lo : Z) (len : nat) : NoDup (Zrange lo len).
Proof.
  revert lo. induction len as [|len IH]; intros lo; cbn [Zrange].
  - constructor.
  - constructor; [|apply IH].
    rewrite list_elem_of_In, in_Zrange. lia.
Qed.

Lemma NoDup_allocations (groups : list HyperGroup) : NoDup (allocations groups).
Proof.
  induction groups as [|g rest IH]; cbn [allocations].
  - apply NoDup_singleton.
  - unfold interval.
    generalize (NoDup_Zrange (minDesired g) (Z.to_nat (maxDesired g - minDesired g + 1))).
    generalize (Zrange (minDesired g) (Z.to_nat (maxDesired g - minDesired g + 1))).
    intros l Hl. induction Hl as [|take l Hnotin Hl IHl]; cbn [flat_map].
    + constructor.
    + apply NoDup_app. split; [|split].
      * apply NoDup_fmap_2; [|exact IH]. intros ts1 ts2 [= ->]. reflexivity.
      * intros ts Hts Hts'. apply list_elem_of_In in Hts, Hts'.
        apply in_map_iff in Hts. destruct Hts as [ts1 [<- _]].
        apply in_flat_map in Hts'. destruct Hts' as [take' [Htake' Hin]].
        apply in_map_iff in Hin. destruct Hin as [ts2 [[= -> _] _]].
        apply Hnotin. apply list_elem_of_In. exact Htake'.
      * exact IHl.
Qed.

(** ** Facts of double arithmetic *)

Lemma div_eucl_shift_self (m : positive) :
  Z.div_eucl (Z.shiftl (Z.pos m) 53) (Z.pos m) = (2 ^ 53, 0).
Proof.
  rewrite Z.shiftl_mul_pow2 by lia.
  pose proof (Z.div_mul (2 ^ 53) (Z.pos m) ltac:(lia)) as Hq.
  pose proof (Z.mod_mul (2 ^ 53) (Z.pos m) ltac:(lia)) as Hr.
  rewrite (Z.mul_comm (Z.pos m)).
  unfold Z.div in Hq. unfold Z.modulo in Hr.
  destruct (Z.div_eucl (2 ^ 53 * Z.pos m) (Z.pos m)) as [q r].
  cbn [fst snd] in *. subst. reflexivity.
Qed.

(** A finite non-zero double divided by itself is exactly [1]. *)
Lemma div_self (s : bool) (m : positive) (e : Z) :
  JS.div (S754_finite s m e) (S754_finite s m e) = JS.Number 1.
Proof.
  unfold JS.div, SFdiv, SFdiv_core_binary. cbv zeta.
  rewrite !Z.sub_diag.
  change (Z.min (fexp JS.prec JS.emax 0) 0) with (-53).
  change (0 - -53) with 53.
  cbv iota.
  rewrite div_eucl_shift_self.
  replace (new_location (Z.pos m) 0) with loc_Exact
    by (unfold new_location; destruct (Z.even (Z.pos m)); reflexivity).
  rewrite xorb_nilpotent. reflexivity.
Qed.

Lemma percentage_self (a : Z) :
  is_finite (JS.Number a) = true -> percentage a a = JS.Number 100.
Proof.
  unfold percentage. destruct (JS.Number a) as [| | |s m e]; try discriminate.
  intros _. rewrite div_self. reflexivity.
Qed.

Lemma add_nan_l (y : JS.number) : JS.add JS.NaN y = JS.NaN.
Proof. reflexivity. Qed.

Lemma add_nan_r (x : JS.number) : JS.add x JS.NaN = JS.NaN.
Proof. destruct x; reflexivity. Qed.

(** ** The structure of the standings *)

Lemma calculateSwissStandings_loop_map (fuel : nat) (numPlayers numRounds w : Z) :
  calculateSwissStandings_loop fuel numPlayers numRounds w
  = map (standing numPlayers numRounds) (Zrange_down w fuel).
Proof.
  revert w. induction fuel as [|fuel IH]; intros w; [reflexivity|].
  cbn [calculateSwissStandings_loop Zrange_down map]. rewrite IH. reflexivity.
Qed.

Lemma calculateSwissStandings_map (numPlayers numRounds : Z) :
  calculateSwissStandings numPlayers numRounds
  = map (standing numPlayers numRounds)
      (Zrange_down numRounds (Z.to_nat (numRounds + 1))).
Proof. apply calculateSwissStandings_loop_map. Qed.

Lemma in_Zrange_down (hi : Z) (len : nat) (x : Z) :
  In x (Zrange_down hi len) <-> hi - Z.of_nat len < x <= hi.
Proof.
  revert hi. induction len as [|len IH]; intros hi; cbn [Zrange_down In].
  - lia.
  - rewrite IH. lia.
Qed.

Lemma in_calculateSwissStandings (numPlayers numRounds w : Z) :
  0 <= w <= numRounds ->
  In (standing numPlayers numRounds w) (calculateSwissStandings numPlayers numRounds).
Proof.
  intros Hw. rewrite calculateSwissStandings_map. apply in_map.
  apply in_Zrange_down. lia.
Qed.

(** Once [NaN] enters the running sum it stays. *)
Lemma fold_count_nan (standings : list SwissStanding) :
  fold_left (fun acc s => JS.add acc (count s)) standings JS.NaN = JS.NaN.
Proof.
  induction standings as [|s rest IH]; [reflexivity|].
  cbn [fold_left]. rewrite add_nan_l. exact IH.
Qed.

Lemma total_count_nan (standings : list SwissStanding) (s : SwissStanding) :
  In s standings -> count s = JS.NaN -> total_count standings = JS.NaN.
Proof.
  unfold total_count. generalize (JS.Number 0).
  induction standings as [|s' rest IH]; intros acc Hin Hnan; [destruct Hin|].
  cbn [fold_left]. destruct Hin as [->|Hin].
  - rewrite Hnan, add_nan_r. apply fold_count_nan.
  - apply IH; assumption.
Qed.

(** ** Comparisons of doubles *)

Lemma SFcompare_swap (x y : JS.number) :
  SFcompare y x = option_map CompOpp (SFcompare x y).
Proof.
  destruct x as [sx|sx| |sx mx ex], y as [sy|sy| |sy my ey];
    try destruct sx; try destruct sy; try reflexivity;
    cbn [SFcompare option_map]; rewrite (Z.compare_antisym ey ex);
    destruct (ey ?= ex); cbn [CompOpp]; try reflexivity;
    repeat (rewrite Pos.compare_cont_antisym; cbn [CompOpp]); reflexivity.
Qed.

Lemma lt_not_le (x y : JS.number) : JS.lt x y = true -> JS.le y x = false.
Proof.
  unfold JS.lt, JS.le, SFltb, SFleb. rewrite (SFcompare_swap x y).
  destruct (SFcompare x y) as [[]|]; cbn; congruence.
Qed.

Lemma le_not_lt (x y : JS.number) : JS.le x y = true -> JS.lt y x = false.
Proof.
  unfold JS.lt, JS.le, SFltb, SFleb. rewrite (SFcompare_swap x y).
  destruct (SFcompare x y) as [[]|]; cbn; congruence.
Qed.

(** ** The chance map *)

Lemma makeItChance_loop_other (standings : list SwissStanding)
    (targetRank cum : JS.number) (m : gmap Z JS.number) (k : Z) :
  ~ In k (map wins standings) ->
  makeItChance_loop standings targetRank cum m !! k = m !! k.
Proof.
  revert cum m. induction standings as [|s rest IH]; intros cum m Hk; [reflexivity|].
  cbn [makeItChance_loop]. rewrite IH.
  - apply lookup_insert_ne. intros Heq. apply Hk. left. exact Heq.
  - intros Hin. apply Hk. right. exact Hin.
Qed.

Lemma makeItChance_loop_lookup (standings : list SwissStanding)
    (targetRank cum : JS.number) (m : gmap Z JS.number)
    (i : nat) (s : SwissStanding) :
  List.NoDup (map wins standings) ->
  nth_error standings i = Some s ->
  makeItChance_loop standings targetRank cum m !! wins s
  = Some (bucket_chance targetRank
            (fold_left (fun acc s => JS.add acc (count s)) (firstn i standings) cum)
            (count s)).
Proof.
  revert cum m i. induction standings as [|s' rest IH]; intros cum m i Hnd Hnth.
  - destruct i; discriminate.
  - inversion Hnd as [|k l Hnotin Hnd']; subst.
    destruct i as [|i]; cbn [nth_error] in Hnth.
    + injection Hnth as ->. cbn [makeItChance_loop firstn fold_left].
      rewrite makeItChance_loop_other by exact Hnotin.
      apply lookup_insert_eq.
    + cbn [makeItChance_loop firstn fold_left]. apply IH; assumption.
Qed.

Lemma NoDup_Zrange_down (hi : Z) (len : nat) : List.NoDup (Zrange_down hi len).
Proof.
  revert hi. induction len as [|len IH]; intros hi; cbn [Zrange_down].
  - constructor.
  - constructor; [|apply IH]. rewrite in_Zrange_down. lia.
Qed.

Lemma wins_calculateSwissStandings (numPlayers numRounds : Z) :
  map wins (calculateSwissStandings numPlayers numRounds)
  = Zrange_down numRounds (Z.to_nat (numRounds + 1)).
Proof.
  rewrite calculateSwissStandings_map, map_map. apply map_id.
Qed.

(** The chance stored for bucket [i]. *)
Lemma makeItChanceMap_lookup (totalPlayers totalRounds targetRank : Z)
    (i : nat) (s : SwissStanding) :
  nth_error (calculateSwissStandings totalPlayers totalRounds) i = Some s ->
  makeItChanceMap totalPlayers totalRounds targetRank !! wins s
  = Some (bucket_chance (JS.Number targetRank)
            (cumulative_before (calculateSwissStandings totalPlayers totalRounds) i)
            (count s)).
Proof.
  intros Hnth. unfold makeItChanceMap, cumulative_before, total_count.
  apply makeItChance_loop_lookup; [|exact Hnth].
  rewrite wins_calculateSwissStandings. apply NoDup_Zrange_down.
Qed.

(** ** The embedding on known inputs *)

Example combinations_60_30 : combinations 60 30 = 118264581564861424.
Proof. reflexivity. Qed.

Example toFixed2_tie : JS.toFixed2 (JS.div (JS.Number 1) (JS.Number 8))
                       = JS.div (JS.Number 13) (JS.Number 100).
Proof. vm_compute. reflexivity. Qed.

Example toFixed2_below_tie : JS.toFixed2 (JS.div (JS.Number 1005) (JS.Number 1000))
                             = JS.Number 1.
Proof. vm_compute. reflexivity. Qed.

Example standings_64_6 :
  map count (calculateSwissStandings 64 6)
  = map JS.Number [1; 6; 15; 20; 15; 6; 1].
Proof. vm_compute. reflexivity. Qed.

Example top8_of_64_from_scratch :
  calculateTopXProbability 64 6 8 0 0 = JS.div (JS.Number 25) (JS.Number 2).
Proof. vm_compute. reflexivity. Qed.

Example whole_deck_group :
  calculateMultivariateHyper 40 5 [tmp_group 40 0 5] = JS.Number 100.
Proof. vm_compute. reflexivity. Qed.

(** ** The sum of the standings *)

Lemma rounded_near (x : Q) (r : JS.number) :
  rounded x r -> (bpow (- 1024) <= x)%Q -> (x < overflow_threshold)%Q ->
  nonneg r /\ (x * (1 - eta) <= value r)%Q /\ (value r <= x * (1 + eta))%Q.
Proof.
  intros [Hlow _] HL HT. destruct (Hlow HT) as (Hn & H1 & H2).
  split; [exact Hn|].
  assert (Ht : (bpow (- 1024) == 2251799813685248 * tiny)%Q) by (vm_compute; reflexivity).
  pose proof tiny_pos. unfold unit_roundoff, eta in *. split; lra.
Qed.

Lemma near_round (k : Z) (x v : Q) (r : JS.number) :
  near k x v -> rounded v r ->
  (bpow (- 1024) <= v)%Q -> (v < overflow_threshold)%Q ->
  0 <= k -> (inject_Z k * eta <= 1)%Q ->
  nonneg r /\ near (k + 2) x (value r).
Proof.
  intros (Hx & H1 & H2) Hr HL HT Hk Hsmall.
  destruct (rounded_near v r Hr HL HT) as (Hn & Hr1 & Hr2).
  split; [exact Hn|]. unfold near. split; [exact Hx|].
  rewrite inject_Z_plus. change (inject_Z 2) with 2%Q.
  assert (HK : (0 <= inject_Z k)%Q).
  { change 0%Q with (inject_Z 0). rewrite <- Zle_Qle. exact Hk. }
  pose proof (Qmult_le_0_compat _ _ Hx HK) as HxK.
  assert (HxKe : (x * inject_Z k * eta <= x)%Q).
  { rewrite <- Qmult_assoc. rewrite <- (Qmult_1_r x) at 2.
    apply Qmult_le_nonneg_l; assumption. }
  unfold eta in *. split; lra.
Qed.

Lemma near_mul_3_1 (x v y w : Q) :
  near 3 x v -> near 1 y w -> near 5 (x * y) (v * w).
Proof.
  intros (Hx & Hv1 & Hv2) (Hy & Hw1 & Hw2). unfold near, eta in *.
  change (inject_Z 3) with 3%Q in *. change (inject_Z 1) with 1%Q in *.
  change (inject_Z 5) with 5%Q. pose proof (Qmult_le_0_compat _ _ Hx Hy) as Hxy.
  split; [exact Hxy|]. split.
  - apply Qle_trans with
      ((x * (1 - 3 * (1 # 1125899906842624))) * (y * (1 - 1 * (1 # 1125899906842624))))%Q.
    + assert (Heq : ((x * (1 - 3 * (1 # 1125899906842624)))
                     * (y * (1 - 1 * (1 # 1125899906842624)))
                     == (x * y) * ((1 - 3 * (1 # 1125899906842624))
                                   * (1 - 1 * (1 # 1125899906842624))))%Q) by ring.
      rewrite Heq. apply Qmult_le_nonneg_l; [exact Hxy|]. vm_compute. discriminate.
    + apply Qmult_le_compat_nonneg; split; try assumption; lra.
  - apply Qle_trans with
      ((x * (1 + 3 * (1 # 1125899906842624))) * (y * (1 + 1 * (1 # 1125899906842624))))%Q.
    + apply Qmult_le_compat_nonneg; split; try assumption; lra.
    + assert (Heq : ((x * (1 + 3 * (1 # 1125899906842624)))
                     * (y * (1 + 1 * (1 # 1125899906842624)))
                     == (x * y) * ((1 + 3 * (1 # 1125899906842624))
                                   * (1 + 1 * (1 # 1125899906842624))))%Q) by ring.
      rewrite Heq. apply Qmult_le_nonneg_l; [exact Hxy|]. vm_compute. discriminate.
Qed.

Lemma Number_near (z : Z) :
  0 <= z -> (inject_Z z < overflow_threshold)%Q ->
  nonneg (JS.Number z) /\ near 1 (inject_Z z) (value (JS.Number z)).
Proof.
  intros Hz HT. destruct (Number_bounds z Hz HT) as (Hn & H1 & H2).
  split; [exact Hn|]. unfold near, eta. change (inject_Z 1) with 1%Q.
  assert (Hq : (0 <= inject_Z z)%Q).
  { change 0%Q with (inject_Z 0). rewrite <- Zle_Qle. exact Hz. }
  split; [exact Hq|]. split; lra.
Qed.

Lemma Zsum_member_le (l : list Z) (y : Z) :
  (forall x, In x l -> 0 <= x) -> In y l -> y <= Zsum l.
Proof.
  induction l as [|x l IH]; intros Hall Hin; [destruct Hin|].
  rewrite Zsum_cons. destruct Hin as [->|Hin].
  - assert (0 <= Zsum l) by (apply Zsum_nonneg; intros; apply Hall; right; assumption).
    lia.
  - pose proof (Hall x (or_introl eq_refl)).
    assert (y <= Zsum l) by (apply IH; [intros; apply Hall; right; assumption|exact Hin]).
    lia.
Qed.

Lemma binomial_le_pow2 (n k : Z) : 0 <= k <= n -> binomial n k <= 2 ^ n.
Proof.
  intros Hk. rewrite <- (binomial_row_sum n) by lia.
  apply Zsum_member_le.
  - intros x Hx. apply in_map_iff in Hx. destruct Hx as [j [<- _]].
    apply binomial_nonneg.
  - apply in_map. apply in_interval. lia.
Qed.

Lemma Zsum_Zrange_down (f : Z -> Z) (hi : Z) (len : nat) :
  Zsum (map f (Zrange_down hi len))
  = Zsum (map f (Zrange (hi - Z.of_nat len + 1) len)).
Proof.
  revert hi. induction len as [|len IH]; intros hi; [reflexivity|].
  rewrite Zrange_snoc, map_app, Zsum_app.
  cbn [Zrange_down map]. rewrite Zsum_cons, IH. cbn [map Zsum fold_right].
  replace (hi - Z.of_nat (S len) + 1 + Z.of_nat len) with hi by lia.
  replace (hi - 1 - Z.of_nat len + 1) with (hi - Z.of_nat (S len) + 1) by lia.
  lia.
Qed.

Lemma binomial_down_sum (n : Z) :
  0 <= n ->
  Zsum (map (binomial n) (Zrange_down n (Z.to_nat (n + 1)))) = 2 ^ n.
Proof.
  intros Hn. rewrite Zsum_Zrange_down, <- (binomial_row_sum n Hn).
  unfold interval. f_equal. f_equal.
  replace (Z.to_nat (n - 0 + 1)) with (Z.to_nat (n + 1)) by lia.
  f_equal. lia.
Qed.

Lemma bpow_inverse (e : Z) : (bpow e * bpow (- e) == 1)%Q.
Proof. rewrite <- bpow_add. replace (e + - e) with 0 by lia. reflexivity. Qed.

Lemma near_ext (k : Z) (x x' v v' : Q) :
  (x == x')%Q -> (v == v')%Q -> near k x v -> near k x' v'.
Proof.
  intros Hx Hv (H0 & H1 & H2). unfold near. rewrite <- Hx, <- Hv. auto.
Qed.

Lemma near_scale (k : Z) (x v s : Q) :
  near k x v -> (0 <= s)%Q -> near k (x * s) (v * s).
Proof.
  intros (H0 & H1 & H2) Hs. unfold near. split; [|split].
  - apply Qmult_le_0_compat; assumption.
  - assert (Heq : (x * s * (1 - inject_Z k * eta)
                   == x * (1 - inject_Z k * eta) * s)%Q) by ring.
    rewrite Heq. apply Qmult_le_compat_r; assumption.
  - assert (Heq : (x * s * (1 + inject_Z k * eta)
                   == x * (1 + inject_Z k * eta) * s)%Q) by ring.
    rewrite Heq. apply Qmult_le_compat_r; assumption.
Qed.

Lemma inject_Z_ge_1 (z : Z) : 1 <= z -> (1 <= inject_Z z)%Q.
Proof. intros H. change 1%Q with (inject_Z 1). rewrite <- Zle_Qle. exact H. Qed.

Lemma inject_Z_nonneg (z : Z) : 0 <= z -> (0 <= inject_Z z)%Q.
Proof. intros H. change 0%Q with (inject_Z 0). rewrite <- Zle_Qle. exact H. Qed.

Lemma pow_1023_below : (inject_Z (2 ^ 1023) * (9 # 8) < overflow_threshold)%Q.
Proof. vm_compute. reflexivity. Qed.

(** The chance of [w] wins, [Number(C(numRounds, w)) / 2 ** numRounds], is
    within [3 * 2^-50] of [C(numRounds, w) / 2^numRounds]. *)
Lemma probability_near (numRounds w : Z) :
  0 <= numRounds <= 1023 -> 0 <= w <= numRounds ->
  let q := JS.div (JS.Number (binomial numRounds w)) (JS.pow2 numRounds) in
  let e1 := (inject_Z (binomial numRounds w) * bpow (- numRounds))%Q in
  nonneg q /\ near 3 e1 (value q) /\ (bpow (- 1023) <= e1)%Q /\ (e1 <= 1)%Q.
Proof.
  intros HR Hw. cbv zeta.
  set (c := binomial numRounds w).
  assert (Hc1 : 1 <= c) by (pose proof (binomial_pos numRounds w Hw); subst c; lia).
  assert (Hc2 : c <= 2 ^ numRounds) by (apply binomial_le_pow2, Hw).
  pose proof pow_1023_below as HT1023.
  assert (Hpow : (inject_Z (2 ^ numRounds) <= inject_Z (2 ^ 1023))%Q).
  { rewrite <- Zle_Qle. apply Z.pow_le_mono_r; lia. }
  assert (H1023 : (0 < inject_Z (2 ^ 1023))%Q) by (vm_compute; reflexivity).
  assert (HcQ : (inject_Z c <= inject_Z (2 ^ numRounds))%Q) by (rewrite <- Zle_Qle; exact Hc2).
  assert (HcT : (inject_Z c < overflow_threshold)%Q) by lra.
  destruct (Number_near c ltac:(lia) HcT) as (Ha & Hna).
  destruct (pow2_value numRounds ltac:(lia)) as (Hb & Hvb).
  set (a := JS.Number c) in *. set (b := JS.pow2 numRounds) in *.
  pose proof (bpow_pos numRounds) as HB. pose proof (bpow_pos (- numRounds)) as HBi.
  pose proof (bpow_inverse numRounds) as Hinv.
  pose proof (bpow_inject numRounds ltac:(lia)) as HBinj.
  set (B := bpow numRounds) in *. set (Bi := bpow (- numRounds)) in *.
  set (X1 := (value a * Bi)%Q).
  assert (HX1 : (X1 * value b == value a)%Q).
  { subst X1. rewrite Hvb, <- Qmult_assoc, (Qmult_comm Bi B), Hinv. ring. }
  assert (Hvbpos : (0 < value b)%Q) by (rewrite Hvb; exact HB).
  pose proof (div_rounded a b X1 Ha Hb Hvbpos HX1) as Hq.
  set (e1 := (inject_Z c * Bi)%Q).
  assert (Hn1 : near 1 e1 X1) by (apply near_scale; [exact Hna|lra]).
  assert (He1lo : (bpow (- 1023) <= e1)%Q).
  { apply Qle_trans with Bi; [apply bpow_le; lia|].
    subst e1. rewrite <- (Qmult_1_l Bi) at 1.
    apply Qmult_le_compat_r; [apply inject_Z_ge_1, Hc1|lra]. }
  assert (He1hi : (e1 <= 1)%Q).
  { subst e1. rewrite <- Hinv, HBinj.
    apply Qmult_le_compat_r; [exact HcQ|lra]. }
  assert (Hhalf : (bpow (- 1023) == 2 * bpow (- 1024))%Q) by (vm_compute; reflexivity).
  pose proof (bpow_pos (- 1024)) as HL.
  pose proof threshold_large as HTl.
  destruct Hn1 as (Hn1a & Hn1b & Hn1c).
  change (inject_Z 1) with 1%Q in Hn1b, Hn1c. unfold eta in Hn1b, Hn1c.
  destruct (near_round 1 e1 X1 _ (conj Hn1a (conj Hn1b Hn1c)) Hq)
    as (Hqn & Hnq); [lra|lra|lia|vm_compute; discriminate|].
  change (1 + 2) with 3 in Hnq. auto.
Qed.

(** The count of one bucket is within [7 * 2^-50] of its expected value. *)
Lemma count_near (numPlayers numRounds w : Z) :
  1 <= numPlayers <= 2 ^ 1023 -> 0 <= numRounds <= 1023 -> 0 <= w <= numRounds ->
  nonneg (count (standing numPlayers numRounds w))
  /\ near 7 (expected_count numPlayers numRounds w)
       (value (count (standing numPlayers numRounds w)))
  /\ (bpow (- 1023) <= expected_count numPlayers numRounds w)%Q
  /\ (expected_count numPlayers numRounds w <= inject_Z numPlayers)%Q.
Proof.
  intros HP HR Hw. cbn [standing count]. rewrite combinations_binomial.
  destruct (probability_near numRounds w HR Hw) as (Hqn & Hnq & He1lo & He1hi).
  set (q := JS.div (JS.Number (binomial numRounds w)) (JS.pow2 numRounds)) in *.
  set (e1 := (inject_Z (binomial numRounds w) * bpow (- numRounds))%Q) in *.
  pose proof pow_1023_below as HT1023.
  assert (H1023 : (0 < inject_Z (2 ^ 1023))%Q) by (vm_compute; reflexivity).
  assert (Hhalf : (bpow (- 1023) == 2 * bpow (- 1024))%Q) by (vm_compute; reflexivity).
  pose proof (bpow_pos (- 1024)) as HL.
  assert (HPT : (inject_Z numPlayers < overflow_threshold)%Q).
  { assert ((inject_Z numPlayers <= inject_Z (2 ^ 1023))%Q) by (rewrite <- Zle_Qle; lia).
    lra. }
  destruct (Number_near numPlayers ltac:(lia) HPT) as (HPn & HnP).
  set (p := JS.Number numPlayers) in *. set (pi := inject_Z numPlayers) in *.
  pose proof (near_mul_3_1 _ _ _ _ Hnq HnP) as Hn5.
  pose proof (mul_rounded q p Hqn HPn) as Hm.
  assert (Hpi1 : (1 <= pi)%Q) by (apply inject_Z_ge_1; lia).
  assert (Hpi2 : (pi <= inject_Z (2 ^ 1023))%Q) by (subst pi; rewrite <- Zle_Qle; lia).
  assert (He10 : (0 <= e1)%Q) by (destruct Hnq as [H _]; exact H).
  assert (Hep1 : (e1 <= e1 * pi)%Q).
  { rewrite <- (Qmult_1_r e1) at 1. apply Qmult_le_nonneg_l; [exact He10|exact Hpi1]. }
  assert (Hep2 : (e1 * pi <= pi)%Q).
  { rewrite <- (Qmult_1_l pi) at 2. apply Qmult_le_compat_r; [exact He1hi|lra]. }
  destruct Hn5 as (Hn5a & Hn5b & Hn5c).
  change (inject_Z 5) with 5%Q in Hn5b, Hn5c. unfold eta in Hn5b, Hn5c.
  destruct (near_round 5 (e1 * pi) _ _ (conj Hn5a (conj Hn5b Hn5c)) Hm)
    as (Hcn & Hnc); [lra|lra|lia|vm_compute; discriminate|].
  change (5 + 2) with 7 in Hnc.
  assert (Heq : (e1 * pi == expected_count numPlayers numRounds w)%Q).
  { unfold expected_count. fold pi. subst e1. ring. }
  split; [exact Hcn|]. split; [|split].
  - eapply near_ext; [| |exact Hnc]; [exact Heq|reflexivity].
  - rewrite <- Heq. lra.
  - rewrite <- Heq. exact Hep2.
Qed.

Lemma near_add (k k' : Z) (x v y w : Q) :
  near k x v -> near k' y w -> k' <= k -> near k (x + y) (v + w).
Proof.
  intros (Hx & Hv1 & Hv2) (Hy & Hw1 & Hw2) Hk. unfold near.
  assert (HK : (y * inject_Z k' <= y * inject_Z k)%Q).
  { apply Qmult_le_nonneg_l; [exact Hy|]. rewrite <- Zle_Qle. exact Hk. }
  unfold eta in *. split; [lra|]. split; lra.
Qed.

Lemma Qsum_nonneg (l : list Q) :
  Forall (fun x => (0 <= x)%Q) l -> (0 <= Qsum l)%Q.
Proof.
  induction 1 as [|x l Hx _ IH]; cbn [Qsum fold_right]; [lra|].
  fold (Qsum l). lra.
Qed.

(** Adding the counts one by one: each addition costs at most [2 * 2^-50]
    more, relatively. *)
Lemma fold_counts_near (numPlayers numRounds : Z) (ws : list Z) :
  1 <= numPlayers <= 2 ^ 1023 -> 0 <= numRounds <= 1023 ->
  forall (acc : JS.number) (A : Q) (k : Z),
    Forall (fun w => 0 <= w <= numRounds) ws ->
    nonneg acc -> near k A (value acc) -> 7 <= k ->
    (inject_Z (k + 2 * Z.of_nat (length ws)) * eta <= 1 # 8)%Q ->
    (A + Qsum (map (expected_count numPlayers numRounds) ws)
     <= inject_Z numPlayers)%Q ->
    let r := fold_left (fun acc s => JS.add acc (count s))
               (map (standing numPlayers numRounds) ws) acc in
    nonneg r
    /\ near (k + 2 * Z.of_nat (length ws))
         (A + Qsum (map (expected_count numPlayers numRounds) ws)) (value r).
Proof.
  intros HP HR. induction ws as [|w ws IH]; intros acc A k Hws Hacc Hnear Hk Hsmall Hsum r.
  - subst r. cbn [map fold_left length Qsum fold_right]. split; [exact Hacc|].
    replace (k + 2 * Z.of_nat 0) with k by lia.
    eapply near_ext; [| |exact Hnear]; [ring|reflexivity].
  - subst r. cbn [map fold_left].
    inversion Hws as [|w' ws' Hw Hws']; subst w' ws'.
    destruct (count_near numPlayers numRounds w HP HR Hw) as (Hpn & Hpnear & Helo & Hehi).
    set (p := count (standing numPlayers numRounds w)) in *.
    set (e := expected_count numPlayers numRounds w) in *.
    cbn [map Qsum fold_right length] in Hsum, Hsmall |- *.
    fold (Qsum (map (expected_count numPlayers numRounds) ws)) in Hsum |- *.
    fold e in Hsum |- *.
    set (rest := Qsum (map (expected_count numPlayers numRounds) ws)) in *.
    assert (Hrest : (0 <= rest)%Q).
    { subst rest. apply Qsum_nonneg. apply Forall_map.
      apply List.Forall_forall. intros w' Hw'.
      rewrite List.Forall_forall in Hws'.
      destruct (count_near numPlayers numRounds w' HP HR (Hws' w' Hw'))
        as (_ & (H0 & _) & _). exact H0. }
    pose proof (near_add k 7 A (value acc) e (value p) Hnear Hpnear Hk) as Hadd.
    pose proof (add_rounded acc p Hacc Hpn) as Hround.
    pose proof (nonneg_value acc Hacc) as Hacc0.
    assert (HkQ : (inject_Z k * eta <= 1 # 8)%Q).
    { apply Qle_trans with (inject_Z (k + 2 * Z.of_nat (S (length ws))) * eta)%Q;
        [|exact Hsmall].
      apply Qmult_le_compat_r; [rewrite <- Zle_Qle; lia|unfold eta; lra]. }
    assert (Hhalf : (bpow (- 1023) == 2 * bpow (- 1024))%Q) by (vm_compute; reflexivity).
    pose proof (bpow_pos (- 1024)) as HL.
    destruct Hpnear as (He0 & Hp1 & Hp2).
    change (inject_Z 7) with 7%Q in Hp1, Hp2.
    destruct Hadd as (HA0 & Hadd1 & Hadd2).
    assert (HAe : (A + e <= inject_Z (2 ^ 1023))%Q).
    { assert ((inject_Z numPlayers <= inject_Z (2 ^ 1023))%Q) by (rewrite <- Zle_Qle; lia).
      lra. }
    assert (HAek : ((A + e) * (inject_Z k * eta) <= (A + e) * (1 # 8))%Q)
      by (apply Qmult_le_nonneg_l; assumption).
    pose proof pow_1023_below as HT.
    destruct (near_round k (A + e) (value acc + value p) (JS.add acc p)
                (conj HA0 (conj Hadd1 Hadd2)) Hround) as (Hn' & Hnear').
    + unfold eta in *. lra.
    + assert (Heq : ((A + e) * (1 + inject_Z k * eta)
                     == (A + e) + (A + e) * (inject_Z k * eta))%Q) by ring.
      rewrite Heq in Hadd2. lra.
    + lia.
    + unfold eta in *. lra.
    + destruct (IH (JS.add acc p) (A + e)%Q (k + 2) Hws' Hn' Hnear' ltac:(lia))
        as (Hrn & Hrnear).
      * replace (k + 2 + 2 * Z.of_nat (length ws))
          with (k + 2 * Z.of_nat (S (length ws))) by lia.
        exact Hsmall.
      * lra.
      * split; [exact Hrn|].
        replace (k + 2 * Z.of_nat (S (length ws)))
          with (k + 2 + 2 * Z.of_nat (length ws)) by lia.
        eapply near_ext; [| |exact Hrnear]; [ring|reflexivity].
Qed.

Lemma Qsum_expected (numPlayers numRounds : Z) (ws : list Z) :
  (Qsum (map (expected_count numPlayers numRounds) ws)
   == inject_Z (Zsum (map (binomial numRounds) ws))
      * inject_Z numPlayers * bpow (- numRounds))%Q.
Proof.
  induction ws as [|w ws IH]; cbn [map Qsum fold_right].
  - change (inject_Z (Zsum [])) with 0%Q. ring.
  - fold (Qsum (map (expected_count numPlayers numRounds) ws)).
    rewrite IH, Zsum_cons, inject_Z_plus. unfold expected_count. ring.
Qed.

Lemma expected_total (numPlayers numRounds : Z) :
  0 <= numRounds ->
  (Qsum (map (expected_count numPlayers numRounds)
           (Zrange_down numRounds (Z.to_nat (numRounds + 1))))
   == inject_Z numPlayers)%Q.
Proof.
  intros HR. rewrite Qsum_expected, binomial_down_sum by exact HR.
  rewrite <- (bpow_inject numRounds) by exact HR.
  pose proof (bpow_inverse numRounds) as Hinv.
  assert (Heq : (bpow numRounds * inject_Z numPlayers * bpow (- numRounds)
                 == inject_Z numPlayers * (bpow numRounds * bpow (- numRounds)))%Q) by ring.
  rewrite Heq, Hinv. ring.
Qed.

(** The computed sum of the counts is within [(2 * numRounds + 9) * 2^-50]
    of [numPlayers], relatively. *)
Lemma total_count_near (numPlayers numRounds : Z) :
  1 <= numPlayers <= 2 ^ 1023 -> 0 <= numRounds <= 1023 ->
  nonneg (total_count (calculateSwissStandings numPlayers numRounds))
  /\ near (2 * numRounds + 9) (inject_Z numPlayers)
       (value (total_count (calculateSwissStandings numPlayers numRounds))).
Proof.
  intros HP HR. unfold total_count. rewrite calculateSwissStandings_map.
  set (ws := Zrange_down numRounds (Z.to_nat (numRounds + 1))).
  assert (Hlen : length ws = Z.to_nat (numRounds + 1)).
  { subst ws. generalize (Z.to_nat (numRounds + 1)) as n. generalize numRounds as hi.
    intros hi n. revert hi. induction n as [|n IH]; intros hi; [reflexivity|].
    cbn [Zrange_down length]. rewrite IH. reflexivity. }
  assert (Hws : Forall (fun w => 0 <= w <= numRounds) ws).
  { apply List.Forall_forall. intros w Hw. subst ws. apply in_Zrange_down in Hw. lia. }
  pose proof (expected_total numPlayers numRounds ltac:(lia)) as Htot. fold ws in Htot.
  destruct (fold_counts_near numPlayers numRounds ws HP HR (JS.Number 0) 0%Q 7 Hws)
    as (Hn & Hnear).
  - exact I.
  - unfold near. change (value (JS.Number 0)) with 0%Q. split; [lra|]. split; lra.
  - lia.
  - rewrite Hlen. apply Qle_trans with (inject_Z 2055 * eta)%Q; [|vm_compute; discriminate].
    apply Qmult_le_compat_r; [rewrite <- Zle_Qle; lia|unfold eta; lra].
  - rewrite Htot. lra.
  - split; [exact Hn|]. rewrite Hlen in Hnear.
    replace (7 + 2 * Z.of_nat (Z.to_nat (numRounds + 1))) with (2 * numRounds + 9)
      in Hnear by lia.
    eapply near_ext; [| |exact Hnear]; [rewrite Htot; ring|reflexivity].
Qed.

(** With no player every count is [+0], and so is the sum. *)
Lemma fold_counts_zero (numRounds : Z) (ws : list Z) :
  0 <= numRounds <= 1023 -> Forall (fun w => 0 <= w <= numRounds) ws ->
  fold_left (fun acc s => JS.add acc (count s)) (map (standing 0 numRounds) ws)
    (JS.Number 0)
  = JS.Number 0.
Proof.
  intros HR. induction 1 as [|w ws Hw _ IH]; [reflexivity|].
  cbn [map fold_left]. cbn [standing count]. rewrite combinations_binomial.
  destruct (probability_near numRounds w HR Hw) as (Hq & _). cbv zeta in Hq.
  destruct (JS.div _ _) as [[]| | |[] m e]; cbn [nonneg] in Hq;
    try exact (False_ind _ Hq); exact IH.
Qed.

(** ** Signs *)

Lemma SFopp_involutive (r : JS.number) : SFopp (SFopp r) = r.
Proof. destruct r as [[]|[]| |[] m e]; reflexivity. Qed.

Lemma value_opp (r : JS.number) : (value (SFopp r) == - value r)%Q.
Proof. destruct r as [[]|[]| |[] m e]; cbn [SFopp value negb]; ring. Qed.

Lemma binary_round_aux_opp (m e : Z) (l : location) :
  binary_round_aux JS.prec JS.emax true m e l
  = SFopp (binary_round_aux JS.prec JS.emax false m e l).
Proof.
  unfold binary_round_aux.
  destruct (shr_fexp JS.prec JS.emax m e l) as [mrs1 e1].
  destruct (shr_fexp JS.prec JS.emax _ e1 loc_Exact) as [mrs2 e2].
  destruct (shr_m mrs2); [reflexivity| |reflexivity].
  destruct (e2 <=? JS.emax - JS.prec); reflexivity.
Qed.

Lemma binary_round_opp (p : positive) (e : Z) :
  binary_round JS.prec JS.emax true p e
  = SFopp (binary_round JS.prec JS.emax false p e).
Proof.
  unfold binary_round.
  destruct (shl_align p e _) as [mz ez]. apply binary_round_aux_opp.
Qed.

Lemma Number_opp (z : Z) : z <> 0 -> JS.Number (- z) = SFopp (JS.Number z).
Proof.
  intros Hz. unfold JS.Number. destruct z as [|p|p]; [contradiction| |];
    cbn [Z.opp binary_normalize].
  - apply binary_round_opp.
  - rewrite binary_round_opp, SFopp_involutive. reflexivity.
Qed.

(** ** Canonical doubles are determined by their value *)

Lemma magnitude (p : positive) (e : Z) :
  (bpow (Z.pos (digits2_pos p) + e - 1) <= inject_Z (Z.pos p) * bpow e)%Q
  /\ (inject_Z (Z.pos p) * bpow e < bpow (Z.pos (digits2_pos p) + e))%Q.
Proof.
  pose proof (digits2_pos_bounds p) as [Hlo Hhi].
  set (d := Z.pos (digits2_pos p)) in *.
  assert (Hd : 0 < d) by (subst d; lia).
  pose proof (bpow_pos e) as Hb. split.
  - replace (d + e - 1) with (d - 1 + e) by lia. rewrite bpow_add.
    rewrite (bpow_inject (d - 1)) by lia. apply scaled_le. exact Hlo.
  - rewrite bpow_add, (bpow_inject d) by lia.
    apply Qmult_lt_r; [exact Hb|]. rewrite <- Zlt_Qlt. exact Hhi.
Qed.

Lemma same_magnitude (p q : positive) (e f : Z) :
  (inject_Z (Z.pos p) * bpow e == inject_Z (Z.pos q) * bpow f)%Q ->
  Z.pos (digits2_pos p) + e = Z.pos (digits2_pos q) + f.
Proof.
  intros Heq. destruct (magnitude p e) as [H1 H2]. destruct (magnitude q f) as [H3 H4].
  set (a := Z.pos (digits2_pos p) + e) in *. set (b := Z.pos (digits2_pos q) + f) in *.
  destruct (Z.lt_trichotomy a b) as [Hlt|[Heq'|Hgt]]; [exfalso|exact Heq'|exfalso].
  - pose proof (bpow_le a (b - 1) ltac:(lia)). lra.
  - pose proof (bpow_le b (a - 1) ltac:(lia)). lra.
Qed.

Lemma nonneg_unique (a b : JS.number) :
  nonneg a -> nonneg b -> (value a == value b)%Q -> a = b.
Proof.
  intros Ha Hb Hv.
  destruct a as [[]| | |[] ma ea]; cbn [nonneg] in Ha; try exact (False_ind _ Ha);
    destruct b as [[]| | |[] mb eb]; cbn [nonneg] in Hb; try exact (False_ind _ Hb).
  - reflexivity.
  - exfalso. pose proof (finite_value_pos mb eb) as H. rewrite <- Hv in H.
    cbn [value] in H. lra.
  - exfalso. pose proof (finite_value_pos ma ea) as H. rewrite Hv in H.
    cbn [value] in H. lra.
  - cbn [value] in Hv. pose proof (same_magnitude _ _ _ _ Hv) as Hmag.
    unfold bounded, canonical_mantissa in Ha, Hb.
    apply andb_true_iff in Ha, Hb. destruct Ha as [Ha _]. destruct Hb as [Hb _].
    apply Z.eqb_eq in Ha, Hb. rewrite Hmag in Ha.
    assert (He : ea = eb) by congruence. subst eb.
    apply Qmult_inj_r in Hv; [|pose proof (bpow_pos ea); lra].
    rewrite inject_Z_injective in Hv. congruence.
Qed.

Lemma nonneg_regular (r : JS.number) : nonneg r -> regular r.
Proof. destruct r as [[]| | |[] m e]; cbn; auto. Qed.

(** ** Integers that are doubles *)

Lemma Number_positive (z : Z) :
  0 < z ->
  ((inject_Z z < overflow_threshold)%Q /\
   exists m e, JS.Number z = S754_finite false m e
               /\ bounded JS.prec JS.emax m e = true)
  \/ ((overflow_threshold <= inject_Z z)%Q /\ JS.Number z = JS.Infinity).
Proof.
  intros Hz. destruct (Number_rounded z ltac:(lia)) as [Hlow Hhigh].
  destruct (Qlt_le_dec (inject_Z z) overflow_threshold) as [Hlt|Hge].
  - left. split; [exact Hlt|]. destruct (Hlow Hlt) as (Hn & H1 & _).
    assert (Hz1 : (1 <= inject_Z z)%Q) by (apply inject_Z_ge_1; lia).
    pose proof tiny_small as Ht. unfold unit_roundoff in H1.
    destruct (JS.Number z) as [[]| | |[] m e]; cbn [nonneg] in Hn;
      try exact (False_ind _ Hn).
    + exfalso. cbn [value] in H1. lra.
    + exists m, e. split; [reflexivity|exact Hn].
  - right. split; [exact Hge|]. apply Hhigh, Hge.
Qed.

Lemma is_double_positive (z : Z) :
  is_double z -> 0 < z ->
  (inject_Z z < overflow_threshold)%Q
  /\ exists m e, JS.Number z = S754_finite false m e
                 /\ bounded JS.prec JS.emax m e = true.
Proof.
  intros Hd Hz. destruct (Number_positive z Hz) as [H|[_ Hinf]]; [exact H|].
  exfalso. unfold is_double in Hd. rewrite Hinf in Hd. cbn [JS.Infinity value] in Hd.
  assert (Hz1 : (1 <= inject_Z z)%Q) by (apply inject_Z_ge_1; lia). lra.
Qed.

Lemma is_double_opp (z : Z) : is_double z -> is_double (- z).
Proof.
  intros Hd. destruct (Z.eq_dec z 0) as [->|Hne]; [exact Hd|].
  unfold is_double in *. rewrite Number_opp by exact Hne.
  rewrite value_opp, Hd, inject_Z_opp. reflexivity.
Qed.

Lemma Number_regular (z : Z) : is_double z -> regular (JS.Number z).
Proof.
  intros Hd. destruct (Z.lt_trichotomy z 0) as [Hneg|[->|Hpos]].
  - destruct (is_double_positive (- z) (is_double_opp z Hd) ltac:(lia))
      as (_ & m & e & Hn & Hb).
    replace z with (- - z) by lia. rewrite Number_opp by lia.
    rewrite Hn. exact Hb.
  - exact I.
  - destruct (is_double_positive z Hd Hpos) as (_ & m & e & Hn & Hb).
    rewrite Hn. exact Hb.
Qed.

Lemma is_double_0 : is_double 0.
Proof. unfold is_double. reflexivity. Qed.

Lemma regular_Number (a : JS.number) (z : Z) :
  regular a -> (value a == inject_Z z)%Q -> is_double z -> a = JS.Number z.
Proof.
  intros Ha Hv Hd.
  destruct a as [[]| | |s m e]; cbn [regular] in Ha; try exact (False_ind _ Ha).
  - cbn [value] in Hv. change 0%Q with (inject_Z 0) in Hv.
    rewrite inject_Z_injective in Hv. subst z. reflexivity.
  - pose proof (finite_value_pos m e) as Hpos. cbn [value] in Hpos, Hv.
    destruct s.
    + assert (Hz : z < 0).
      { rewrite Zlt_Qlt. change (inject_Z 0) with 0%Q. lra. }
      destruct (is_double_positive (- z) (is_double_opp z Hd) ltac:(lia))
        as (_ & m' & e' & Hn & Hb).
      replace z with (- - z) by lia. rewrite Number_opp by lia.
      assert (Heq : S754_finite false m e = JS.Number (- z)).
      { apply nonneg_unique; [exact Ha|rewrite Hn; exact Hb|].
        pose proof (is_double_opp z Hd) as Hd'. unfold is_double in Hd'.
        rewrite Hd', inject_Z_opp. cbn [value]. lra. }
      rewrite <- Heq. reflexivity.
    + assert (Hz : 0 < z).
      { rewrite Zlt_Qlt. change (inject_Z 0) with 0%Q. lra. }
      destruct (is_double_positive z Hd Hz) as (_ & m' & e' & Hn & Hb).
      apply nonneg_unique; [exact Ha|rewrite Hn; exact Hb|].
      unfold is_double in Hd. rewrite Hd. cbn [value]. exact Hv.
Qed.

(** ** [binary_normalize]: rounding a signed integer multiple of a power of two *)

Lemma round_exact (p : positive) (e : Z) (z : Z) :
  (inject_Z (Z.pos p) * bpow e == inject_Z z)%Q -> is_double z ->
  binary_round JS.prec JS.emax false p e = JS.Number z.
Proof.
  intros Hx Hd.
  pose proof (finite_value_pos p e) as Hpos. cbn [value] in Hpos.
  assert (Hz : 0 < z).
  { rewrite Zlt_Qlt. change (inject_Z 0) with 0%Q. lra. }
  destruct (is_double_positive z Hd Hz) as (Hlt & m & e' & Hn & Hb).
  assert (Hx' : (inject_Z z == inject_Z (Z.pos p) * bpow e)%Q) by (symmetry; exact Hx).
  destruct (binary_round_full p e (inject_Z z) Hx') as [[Hlow _] Hfull].
  cbv zeta in Hfull. destruct (Hfull Hlt) as [Hexact _].
  destruct (Hlow Hlt) as (Hnn & _).
  apply nonneg_unique; [exact Hnn|rewrite Hn; exact Hb|].
  pose proof Hd as Hd'. unfold is_double in Hd'. rewrite Hd'.
  rewrite Hn in Hd'. cbn [value] in Hd'.
  apply (Hexact (Z.pos m)).
  assert (Hmag : Z.pos (digits2_pos p) + e = Z.pos (digits2_pos m) + e').
  { apply same_magnitude. rewrite Hx, Hd'. reflexivity. }
  rewrite Hmag. unfold bounded, canonical_mantissa in Hb.
  apply andb_true_iff in Hb. destruct Hb as [Hb _]. apply Z.eqb_eq in Hb.
  rewrite Hb. symmetry. exact Hd'.
Qed.

Lemma normalize_exact (M e z : Z) :
  (inject_Z M * bpow e == inject_Z z)%Q -> is_double z ->
  binary_normalize JS.prec JS.emax M e false = JS.Number z.
Proof.
  intros Hx Hd. pose proof (bpow_pos e) as Hb.
  destruct M as [|p|p]; cbn [binary_normalize].
  - assert (Hz : z = 0).
    { apply inject_Z_injective. change (inject_Z 0) with 0%Q in *. lra. }
    subst z. reflexivity.
  - apply round_exact; assumption.
  - rewrite binary_round_opp.
    assert (Hz : z <> 0).
    { intros ->. pose proof (finite_value_pos p e) as Hpos. cbn [value] in Hpos.
      change (Z.neg p) with (- Z.pos p) in Hx. rewrite inject_Z_opp in Hx.
      change (inject_Z 0) with 0%Q in Hx. lra. }
    rewrite (round_exact p e (- z)).
    + rewrite <- Number_opp by lia. f_equal. lia.
    + change (Z.neg p) with (- Z.pos p) in Hx. rewrite inject_Z_opp in Hx.
      rewrite inject_Z_opp. lra.
    + apply is_double_opp, Hd.
Qed.

Lemma round_positive (p : positive) (e : Z) :
  - 1074 <= e ->
  let x := (inject_Z (Z.pos p) * bpow e)%Q in
  let r := binary_round JS.prec JS.emax false p e in
  ((overflow_threshold <= x)%Q /\ r = JS.Infinity)
  \/ ((x < overflow_threshold)%Q
      /\ (exists m e', r = S754_finite false m e'
                       /\ bounded JS.prec JS.emax m e' = true)
      /\ (forall y, nonneg y ->
            ((x <= value y)%Q -> (value r <= value y)%Q)
            /\ ((value y <= x)%Q -> (value y <= value r)%Q))).
Proof.
  intros He x r.
  destruct (binary_round_full p e x ltac:(reflexivity)) as [[Hlow Hhigh] Hfull].
  cbv zeta in Hfull. fold r in Hlow, Hhigh, Hfull.
  destruct (Qlt_le_dec x overflow_threshold) as [Hlt|Hge].
  - right. split; [exact Hlt|]. destruct (Hfull Hlt) as [_ Hmono].
    split; [|exact Hmono].
    destruct (Hlow Hlt) as (Hn & H1 & _).
    assert (Hx : (2 * tiny <= x)%Q).
    { rewrite <- tiny_eq. subst x.
      apply Qle_trans with (inject_Z 1 * bpow e)%Q.
      - change (inject_Z 1) with 1%Q. rewrite Qmult_1_l. apply bpow_le. exact He.
      - apply scaled_le. lia. }
    pose proof tiny_pos as Ht. unfold unit_roundoff in H1.
    destruct r as [[]| | |[] m e']; cbn [nonneg] in Hn; try exact (False_ind _ Hn).
    + exfalso. cbn [value] in H1. lra.
    + exists m, e'. split; [reflexivity|exact Hn].
  - left. split; [exact Hge|]. apply Hhigh, Hge.
Qed.

Lemma normalize_sign (M e : Z) :
  - 1074 <= e ->
  JS.lt (binary_normalize JS.prec JS.emax M e false) (JS.Number 0) = (M <? 0).
Proof.
  intros He. destruct M as [|p|p]; cbn [binary_normalize].
  - reflexivity.
  - destruct (round_positive p e He) as [[_ ->]|(_ & (m & e' & -> & _) & _)];
      reflexivity.
  - rewrite binary_round_opp.
    destruct (round_positive p e He) as [[_ ->]|(_ & (m & e' & -> & _) & _)];
      reflexivity.
Qed.

Lemma normalize_le (M e : Z) (y : JS.number) :
  - 1074 <= e -> regular y -> (inject_Z M * bpow e <= value y)%Q ->
  let r := binary_normalize JS.prec JS.emax M e false in
  r = S754_infinity true \/ (regular r /\ (value r <= value y)%Q).
Proof.
  intros He Hy Hle r. subst r. destruct M as [|p|p]; cbn [binary_normalize].
  - right. split; [exact I|]. cbn [value]. change (inject_Z 0) with 0%Q in Hle. lra.
  - right. pose proof (finite_value_pos p e) as Hpos. cbn [value] in Hpos.
    assert (Hyn : nonneg y).
    { destruct y as [[]| | |[] my ey]; cbn [regular] in Hy; cbn [nonneg];
        try exact Hy. exfalso.
      pose proof (finite_value_pos my ey) as Hp. cbn [value] in Hp, Hle. lra. }
    destruct (round_positive p e He) as [[Hge _]|(_ & (m & e' & Hr & Hb) & Hmono)].
    + exfalso. pose proof (rounded_self y Hyn) as [Hlow Hhigh].
      assert (Hinf : y = JS.Infinity) by (apply Hhigh; lra).
      rewrite Hinf in Hyn. exact Hyn.
    + split; [rewrite Hr; exact Hb|].
      destruct (Hmono y Hyn) as [Hup _]. apply Hup. exact Hle.
  - rewrite binary_round_opp.
    destruct (round_positive p e He) as [[_ ->]|(_ & (m & e' & Hr & Hb) & Hmono)];
      [left; reflexivity|].
    right. rewrite Hr in *. cbn [SFopp negb]. split; [exact Hb|].
    pose proof (finite_value_pos m e') as Hpos. cbn [value] in Hpos.
    destruct y as [[]| | |[] my ey]; cbn [regular] in Hy;
      try exact (False_ind _ Hy).
    + cbn [value]. lra.
    + cbn [value] in Hle |- *.
      destruct (Hmono (S754_finite false my ey) Hy) as [_ Hdown].
      cbn [value] in Hdown.
      change (Z.neg p) with (- Z.pos p) in Hle. rewrite inject_Z_opp in Hle.
      assert (H : (inject_Z (Z.pos my) * bpow ey <= inject_Z (Z.pos p) * bpow e)%Q) by lra.
      specialize (Hdown H). lra.
    + pose proof (finite_value_pos my ey) as Hp. cbn [value] in Hp |- *. lra.
Qed.

Lemma normalize_ge (M e : Z) (y : JS.number) :
  - 1074 <= e -> regular y -> (value y <= inject_Z M * bpow e)%Q ->
  let r := binary_normalize JS.prec JS.emax M e false in
  r = S754_infinity false \/ (regular r /\ (value y <= value r)%Q).
Proof.
  intros He Hy Hle r. subst r. destruct M as [|p|p]; cbn [binary_normalize].
  - right. split; [exact I|]. cbn [value]. change (inject_Z 0) with 0%Q in Hle. lra.
  - destruct (round_positive p e He) as [[_ ->]|(_ & (m & e' & Hr & Hb) & Hmono)];
      [left; reflexivity|].
    right. rewrite Hr in *. split; [exact Hb|].
    pose proof (finite_value_pos m e') as Hpos. cbn [value] in Hpos.
    destruct y as [[]| | |[] my ey]; cbn [regular] in Hy;
      try exact (False_ind _ Hy).
    + cbn [value]. lra.
    + pose proof (finite_value_pos my ey) as Hp. cbn [value] in Hp |- *. lra.
    + destruct (Hmono (S754_finite false my ey) Hy) as [_ Hdown].
      apply Hdown. exact Hle.
  - rewrite binary_round_opp. right.
    pose proof (finite_value_pos p e) as Hpos. cbn [value] in Hpos.
    change (Z.neg p) with (- Z.pos p) in Hle. rewrite inject_Z_opp in Hle.
    destruct y as [[]| | |[] my ey]; cbn [regular] in Hy;
      try exact (False_ind _ Hy).
    + exfalso. cbn [value] in Hle. lra.
    + cbn [value] in Hle.
      assert (Hle' : (inject_Z (Z.pos p) * bpow e
                      <= value (S754_finite false my ey))%Q) by (cbn [value]; lra).
      destruct (round_positive p e He) as [[Hge _]|(_ & (m & e' & Hr & Hb) & Hmono)].
      * exfalso. pose proof (bounded_below_threshold my ey Hy). lra.
      * rewrite Hr. cbn [SFopp negb]. split; [exact Hb|].
        destruct (Hmono (S754_finite false my ey) Hy) as [Hup _].
        specialize (Hup Hle'). rewrite Hr in Hup. cbn [value] in Hup |- *. lra.
    + exfalso. pose proof (finite_value_pos my ey) as Hp. cbn [value] in Hp, Hle.
      lra.
Qed.

(** ** Sums and differences of doubles *)

Lemma aligned_value (s : bool) (m : positive) (e ez : Z) :
  ez <= e ->
  (inject_Z (cond_Zopp s (Z.pos (fst (shl_align m e ez)))) * bpow ez
   == value (S754_finite s m e))%Q.
Proof.
  intros Hle. rewrite shl_align_value by exact Hle.
  assert (He : (bpow e == bpow (e - ez) * bpow ez)%Q).
  { rewrite <- bpow_add. replace (e - ez + ez) with e by lia. reflexivity. }
  cbn [value]. rewrite He.
  destruct s; cbn [cond_Zopp]; rewrite ?inject_Z_opp, inject_Z_mult,
    <- bpow_inject by lia; ring.
Qed.

Lemma regular_exponent (s : bool) (m : positive) (e : Z) :
  regular (S754_finite s m e) -> - 1074 <= e.
Proof. intros H. destruct (bounded_canonical m e H) as (He & _). lia. Qed.

Lemma add_exact (a b : JS.number) (z : Z) :
  regular a -> regular b -> (value a + value b == inject_Z z)%Q -> is_double z ->
  JS.add a b = JS.Number z.
Proof.
  intros Ha Hb Hv Hd.
  destruct a as [[]| | |sx mx ex]; cbn [regular] in Ha; try exact (False_ind _ Ha);
    destruct b as [[]| | |sy my ey]; cbn [regular] in Hb; try exact (False_ind _ Hb).
  - cbn [JS.add SFadd].
    apply regular_Number; [exact I| |exact Hd]. rewrite <- Hv. cbn [value]. ring.
  - cbn [JS.add SFadd].
    apply regular_Number; [exact Hb| |exact Hd]. rewrite <- Hv. cbn [value]. ring.
  - cbn [JS.add SFadd].
    apply regular_Number; [exact Ha| |exact Hd]. rewrite <- Hv. cbn [value]. ring.
  - unfold JS.add, SFadd. apply normalize_exact; [|exact Hd].
    rewrite inject_Z_plus, Qmult_plus_distr_l, !aligned_value by lia. exact Hv.
Qed.


Lemma sub_sign (a b : JS.number) :
  regular a -> regular b ->
  (JS.lt (JS.sub a b) (JS.Number 0) = true <-> (value a < value b)%Q).
Proof.
  intros Ha Hb.
  destruct a as [[]| | |sx mx ex]; cbn [regular] in Ha; try exact (False_ind _ Ha);
    destruct b as [[]| | |sy my ey]; cbn [regular] in Hb; try exact (False_ind _ Hb).
  - cbn. split; [discriminate|]. intros H. lra.
  - pose proof (finite_value_pos my ey) as Hp. cbn [value] in Hp.
    destruct sy; cbn; cbn [value] in *; split; try discriminate; try reflexivity;
      intros; lra.
  - pose proof (finite_value_pos mx ex) as Hp. cbn [value] in Hp.
    destruct sx; cbn; cbn [value] in *; split; try discriminate; try reflexivity;
      intros; lra.
  - unfold JS.sub, SFsub.
    pose proof (regular_exponent sx mx ex Ha). pose proof (regular_exponent sy my ey Hb).
    rewrite normalize_sign by lia.
    set (ez := Z.min ex ey).
    pose proof (aligned_value sx mx ex ez ltac:(subst ez; lia)) as Hx.
    pose proof (aligned_value sy my ey ez ltac:(subst ez; lia)) as Hy.
    set (A := cond_Zopp sx _) in *. set (B := cond_Zopp sy _) in *.
    rewrite <- Hx, <- Hy. rewrite Z.ltb_lt. split.
    + intros Hlt. apply Qmult_lt_r; [apply bpow_pos|]. rewrite <- Zlt_Qlt. lia.
    + intros Hlt. apply Qmult_lt_r in Hlt; [|apply bpow_pos].
      rewrite <- Zlt_Qlt in Hlt. lia.
Qed.

Lemma add_le (a b y : JS.number) :
  regular a -> regular b -> regular y -> (value a + value b <= value y)%Q ->
  JS.add a b = S754_infinity true
  \/ (regular (JS.add a b) /\ (value (JS.add a b) <= value y)%Q).
Proof.
  intros Ha Hb Hy Hle.
  destruct a as [[]| | |sx mx ex]; cbn [regular] in Ha; try exact (False_ind _ Ha);
    destruct b as [[]| | |sy my ey]; cbn [regular] in Hb; try exact (False_ind _ Hb).
  - right. cbn [JS.add SFadd]. split; [exact I|]. cbn [value] in *. lra.
  - right. cbn [JS.add SFadd]. split; [exact Hb|]. cbn [value] in *. lra.
  - right. cbn [JS.add SFadd]. split; [exact Ha|]. cbn [value] in *. lra.
  - unfold JS.add, SFadd.
    pose proof (regular_exponent sx mx ex Ha). pose proof (regular_exponent sy my ey Hb).
    apply normalize_le; [lia|exact Hy|].
    rewrite inject_Z_plus, Qmult_plus_distr_l, !aligned_value by lia. exact Hle.
Qed.

Lemma add_ge (a b y : JS.number) :
  regular a -> regular b -> regular y -> (value y <= value a + value b)%Q ->
  JS.add a b = S754_infinity false
  \/ (regular (JS.add a b) /\ (value y <= value (JS.add a b))%Q).
Proof.
  intros Ha Hb Hy Hle.
  destruct a as [[]| | |sx mx ex]; cbn [regular] in Ha; try exact (False_ind _ Ha);
    destruct b as [[]| | |sy my ey]; cbn [regular] in Hb; try exact (False_ind _ Hb).
  - right. cbn [JS.add SFadd]. split; [exact I|]. cbn [value] in *. lra.
  - right. cbn [JS.add SFadd]. split; [exact Hb|]. cbn [value] in *. lra.
  - right. cbn [JS.add SFadd]. split; [exact Ha|]. cbn [value] in *. lra.
  - unfold JS.add, SFadd.
    pose proof (regular_exponent sx mx ex Ha). pose proof (regular_exponent sy my ey Hb).
    apply normalize_ge; [lia|exact Hy|].
    rewrite inject_Z_plus, Qmult_plus_distr_l, !aligned_value by lia. exact Hle.
Qed.

(** ** Comparing doubles *)

Lemma canonical_lt (m1 m2 : positive) (e1 e2 : Z) :
  bounded JS.prec JS.emax m1 e1 = true -> bounded JS.prec JS.emax m2 e2 = true ->
  e1 < e2 ->
  (inject_Z (Z.pos m1) * bpow e1 < inject_Z (Z.pos m2) * bpow e2)%Q.
Proof.
  intros H1 H2 Hlt.
  destruct (bounded_canonical m1 e1 H1) as (He1 & Hd1 & _).
  destruct (bounded_canonical m2 e2 H2) as (He2 & Hd2 & Hc2).
  assert (Hd : Z.pos (digits2_pos m2) = 53) by lia.
  pose proof (digits2_pos_bounds m1) as [_ Hup1].
  pose proof (digits2_pos_bounds m2) as [Hlo2 _]. rewrite Hd in Hlo2.
  assert (Hm1 : Z.pos m1 < 2 ^ 53).
  { assert (2 ^ Z.pos (digits2_pos m1) <= 2 ^ 53) by (apply Z.pow_le_mono_r; lia).
    lia. }
  pose proof (scaled_lt _ _ e1 Hm1) as Ha. rewrite inject_Z_pow53 in Ha.
  pose proof (scaled_le _ _ e2 Hlo2) as Hb.
  change (53 - 1) with 52 in Hb. rewrite inject_Z_pow52 in Hb.
  pose proof (bpow_le (e1 + 1) e2 ltac:(lia)) as Hc. rewrite bpow_succ in Hc.
  lra.
Qed.

Lemma lt_positive (m1 m2 : positive) (e1 e2 : Z) :
  bounded JS.prec JS.emax m1 e1 = true -> bounded JS.prec JS.emax m2 e2 = true ->
  (match (e1 ?= e2) with
   | Lt => Lt
   | Gt => Gt
   | Eq => Pos.compare_cont Eq m1 m2
   end = Lt
   <-> (inject_Z (Z.pos m1) * bpow e1 < inject_Z (Z.pos m2) * bpow e2)%Q)
  /\ (match (e1 ?= e2) with
      | Lt => Lt
      | Gt => Gt
      | Eq => Pos.compare_cont Eq m1 m2
      end = Gt
      <-> (inject_Z (Z.pos m2) * bpow e2 < inject_Z (Z.pos m1) * bpow e1)%Q).
Proof.
  intros H1 H2. destruct (Z.compare_spec e1 e2) as [Heq|Hlt|Hgt].
  - subst e2. change (Pos.compare_cont Eq m1 m2) with (m1 ?= m2)%positive.
    pose proof (bpow_pos e1) as Hb.
    destruct (Pos.compare_spec m1 m2) as [Hm|Hm|Hm].
    + subst m2. split; split; try discriminate; intros; lra.
    + pose proof (scaled_lt (Z.pos m1) (Z.pos m2) e1 ltac:(lia)).
      split; split; try discriminate; try reflexivity; intros; lra.
    + pose proof (scaled_lt (Z.pos m2) (Z.pos m1) e1 ltac:(lia)).
      split; split; try discriminate; try reflexivity; intros; lra.
  - pose proof (canonical_lt m1 m2 e1 e2 H1 H2 Hlt).
    split; split; try discriminate; try reflexivity; intros; lra.
  - pose proof (canonical_lt m2 m1 e2 e1 H2 H1 ltac:(lia)).
    split; split; try discriminate; try reflexivity; intros; lra.
Qed.

Lemma lt_value (a b : JS.number) :
  regular a -> regular b -> (JS.lt a b = true <-> (value a < value b)%Q).
Proof.
  intros Ha Hb.
  destruct a as [[]| | |sx mx ex]; cbn [regular] in Ha; try exact (False_ind _ Ha);
    destruct b as [[]| | |sy my ey]; cbn [regular] in Hb; try exact (False_ind _ Hb).
  - cbn. split; [discriminate|]. intros H. lra.
  - pose proof (finite_value_pos my ey) as Hp. cbn [value] in Hp.
    destruct sy; cbn; cbn [value] in *; split; try discriminate; try reflexivity;
      intros; lra.
  - pose proof (finite_value_pos mx ex) as Hp. cbn [value] in Hp.
    destruct sx; cbn; cbn [value] in *; split; try discriminate; try reflexivity;
      intros; lra.
  - pose proof (finite_value_pos mx ex) as Hpx.
    pose proof (finite_value_pos my ey) as Hpy. cbn [value] in Hpx, Hpy.
    destruct (lt_positive mx my ex ey Ha Hb) as [Hlt Hgt].
    unfold JS.lt, SFltb, SFcompare. cbn [value].
    set (c := match ex ?= ey with
              | Lt => Lt | Gt => Gt | Eq => Pos.compare_cont Eq mx my end) in *.
    destruct sx, sy.
    + assert (Hopp : match ex ?= ey with
                     | Lt => Gt | Gt => Lt
                     | Eq => CompOpp (Pos.compare_cont Eq mx my) end = CompOpp c)
        by (subst c; destruct (ex ?= ey); reflexivity).
      rewrite Hopp. destruct Hgt as [Hgt1 Hgt2].
      destruct c; cbn [CompOpp].
      * split; [discriminate|]. intros Hq.
        assert (Hf : Eq = Gt) by (apply Hgt2; lra). discriminate.
      * split; [discriminate|]. intros Hq.
        assert (Hf : Lt = Gt) by (apply Hgt2; lra). discriminate.
      * split; [intros _|reflexivity]. specialize (Hgt1 eq_refl). lra.
    + split; [intros _; lra|reflexivity].
    + split; [discriminate|intros; lra].
    + fold c. destruct Hlt as [Hlt1 Hlt2]. destruct c.
      * split; [discriminate|]. intros Hq. specialize (Hlt2 Hq). discriminate.
      * split; [intros _|reflexivity]. apply Hlt1. reflexivity.
      * split; [discriminate|]. intros Hq. specialize (Hlt2 Hq). discriminate.
Qed.

(** ** Safe integers are doubles *)

Lemma safe_is_double (z : Z) : Z.abs z <= 2 ^ 53 -> is_double z.
Proof.
  intros Hz.
  assert (Hpos : forall n, 0 <= n <= 2 ^ 53 -> is_double n).
  { intros n Hn. destruct (Z.eq_dec n (2 ^ 53)) as [->|Hne].
    - vm_compute. reflexivity.
    - apply Number_exact. lia. }
  destruct (Z.le_gt_cases 0 z) as [H|H]; [apply Hpos; lia|].
  replace z with (- - z) by lia. apply is_double_opp, Hpos. lia.
Qed.


(** ** The solver on sums taken in doubles *)

Lemma totalInGroups_exact (groups : list HyperGroup) (acc : Z) :
  is_double acc -> totals_exact acc groups ->
  fold_left (fun a g => JS.add a (JS.Number (countInDeck g))) groups (JS.Number acc)
  = JS.Number (acc + Zsum (map countInDeck groups))
  /\ is_double (acc + Zsum (map countInDeck groups)).
Proof.
  revert acc. induction groups as [|g rest IH]; intros acc Hacc Hall;
    cbn [fold_left map]; rewrite ?Zsum_cons.
  - change (Zsum []) with 0. rewrite Z.add_0_r. split; [reflexivity|exact Hacc].
  - destruct Hall as (Hg & Hsum & Hrest).
    rewrite (add_exact _ _ (acc + countInDeck g)
               (Number_regular _ Hacc) (Number_regular _ Hg)); [| |exact Hsum].
    + rewrite Z.add_assoc. apply IH; assumption.
    + unfold is_double in Hacc, Hg. rewrite Hacc, Hg, inject_Z_plus. reflexivity.
Qed.

Lemma totals_exact_safe (groups : list HyperGroup) (acc : Z) :
  Forall (fun g => 0 <= countInDeck g) groups -> 0 <= acc ->
  acc + Zsum (map countInDeck groups) <= 2 ^ 53 ->
  totals_exact acc groups.
Proof.
  intros Hall. revert acc. induction Hall as [|g rest Hg Hrest IH];
    intros acc Hacc Hsum; cbn [totals_exact map] in *; [exact I|].
  rewrite Zsum_cons in Hsum.
  assert (Hpos : 0 <= Zsum (map countInDeck rest)).
  { clear - Hrest. induction Hrest as [|h t Hh _ IHt]; cbn [map];
      rewrite ?Zsum_cons; [cbn; lia|lia]. }
  split; [apply safe_is_double; lia|]. split; [apply safe_is_double; lia|].
  apply IH; lia.
Qed.

Lemma totalInGroups_ge (back : list HyperGroup) (acc y : JS.number) :
  regular y ->
  Forall (fun g => is_double (countInDeck g) /\ 0 <= countInDeck g) back ->
  acc = S754_infinity false \/ (regular acc /\ (value y <= value acc)%Q) ->
  let total :=
    fold_left (fun a g => JS.add a (JS.Number (countInDeck g))) back acc in
  total = S754_infinity false \/ (regular total /\ (value y <= value total)%Q).
Proof.
  intros Hy Hall. revert acc.
  induction Hall as [|g rest [Hd Hpos] _ IH]; intros acc Hacc; cbn [fold_left];
    [exact Hacc|].
  apply IH. pose proof (Number_regular _ Hd) as Hrg.
  destruct Hacc as [->|[Hr Hv]].
  - left. destruct (JS.Number (countInDeck g)) as [[]| | |s m e];
      cbn [regular] in Hrg; try exact (False_ind _ Hrg); reflexivity.
  - apply add_ge; [exact Hr|exact Hrg|exact Hy|].
    unfold is_double in Hd. rewrite Hd.
    pose proof (inject_Z_nonneg _ Hpos). lra.
Qed.


(** * The claims *)

(** ** Exact combinatorics *)

(** C8: [combinations(n, k)] returns [0] for every [k < 0] or [k > n], and
    returns [1] for every [n >= 0] when [k = 0] or [k = n].  Both answers are
    given before the cache is looked at, so they hold for every state of
    [comboMemo], which is left as it was. *)
Theorem combinations_edges (comboMemo : gmap (Z * Z) Z) (n k : Z) :
  (k < 0 \/ n < k ->
   combinations_memo comboMemo n k = (0, comboMemo) /\ combinations n k = 0)
  /\ (0 <= n -> k = 0 \/ k = n ->
      combinations_memo comboMemo n k = (1, comboMemo) /\ combinations n k = 1).
Proof.
  unfold combinations_memo, combinations. split.
  - intros Hout.
    assert ((k <? 0) || (n <? k) = true) as ->; [|split; reflexivity].
    apply orb_true_iff. rewrite !Z.ltb_lt. exact Hout.
  - intros Hn Hedge.
    assert ((k <? 0) || (n <? k) = false) as ->.
    { apply orb_false_iff. rewrite !Z.ltb_ge. lia. }
    assert ((k =? 0) || (k =? n) = true) as ->; [|split; reflexivity].
    apply orb_true_iff. rewrite !Z.eqb_eq. exact Hedge.
Qed.

Lemma combinations_edges_witness :
  combinations_memo ∅ 5 7 = (0, ∅) /\ combinations_memo ∅ 5 5 = (1, ∅).
Proof.
  split.
  - apply (proj1 (combinations_edges ∅ 5 7)). right. lia.
  - apply (proj2 (combinations_edges ∅ 5 5)); [lia|]. right. reflexivity.
Defined.

(** C9: for every [n] with [0 <= n <= 40], the sum of [combinations(n, k)]
    for [k] from [0] to [n] is exactly [2^n], as integers of unbounded size. *)
Theorem combinations_row_sum (n : Z) :
  0 <= n <= 40 -> Zsum (map (combinations n) (interval 0 n)) = 2 ^ n.
Proof.
  intros [Hn _]. rewrite <- (binomial_row_sum n Hn).
  apply Zsum_map_ext. intros k _. apply combinations_binomial.
Qed.

Lemma combinations_row_sum_witness :
  Zsum (map (combinations 40) (interval 0 40)) = 2 ^ 40.
Proof. apply (combinations_row_sum 40). lia. Defined.

(** ** The solver *)

(** C5 as worded fails: the two groups hold [2^53 + 1] cards, more than the
    deck of [2^53], but the program adds the counts as doubles and gets
    [2^53]; the deck passes the test, and a hand of no card succeeds with
    certainty. *)
Lemma group_total_rounds_down :
  Zsum (map countInDeck [tmp_group (2 ^ 53) 0 0; tmp_group 1 0 0]) > 2 ^ 53
  /\ Doubles.calculateMultivariateHyper (2 ^ 53) 0
       [tmp_group (2 ^ 53) 0 0; tmp_group 1 0 0] = JS.Number 100
  /\ Doubles.calculateMultivariateHyper (2 ^ 53) 0
       [tmp_group (2 ^ 53) 0 0; tmp_group 1 0 0] <> JS.Number 0.
Proof.
  assert (H : Doubles.calculateMultivariateHyper (2 ^ 53) 0
                [tmp_group (2 ^ 53) 0 0; tmp_group 1 0 0] = JS.Number 100)
    by (vm_compute; reflexivity).
  split; [cbn; lia|]. split; [exact H|]. rewrite H. vm_compute. discriminate.
Qed.

(** C5, amended: [calculateMultivariateHyper] returns [0], and raises
    nothing, on every input in which [handSize > deckSize], or
    [C(deckSize, handSize)] is [0], or the [countInDeck] of the groups add up
    to more than [deckSize] and the program's sum is the exact one: the deck
    size, the counts and the running totals of the counts are doubles, as
    they are for counts that are not negative and add up to at most [2^53].
    It is enough that the first groups add up in this way to more than
    [deckSize], when the counts of the others are not negative. *)
Theorem calculateMultivariateHyper_rejects (deckSize handSize : Z)
    (groups : list HyperGroup) :
  (handSize > deckSize ->
   Doubles.calculateMultivariateHyper deckSize handSize groups = JS.Number 0)
  /\ (Zsum (map countInDeck groups) > deckSize ->
      is_double deckSize -> totals_exact 0 groups ->
      Doubles.calculateMultivariateHyper deckSize handSize groups = JS.Number 0)
  /\ (forall front back, groups = front ++ back ->
      Zsum (map countInDeck front) > deckSize ->
      is_double deckSize -> totals_exact 0 front ->
      Forall (fun g => is_double (countInDeck g) /\ 0 <= countInDeck g) back ->
      Doubles.calculateMultivariateHyper deckSize handSize groups = JS.Number 0)
  /\ (combinations deckSize handSize = 0 ->
      Doubles.calculateMultivariateHyper deckSize handSize groups = JS.Number 0)
  /\ (Forall (fun g => 0 <= countInDeck g) groups ->
      Zsum (map countInDeck groups) <= 2 ^ 53 -> totals_exact 0 groups).
Proof.
  assert (Hfront : forall front back, groups = front ++ back ->
            Zsum (map countInDeck front) > deckSize ->
            is_double deckSize -> totals_exact 0 front ->
            Forall (fun g => is_double (countInDeck g) /\ 0 <= countInDeck g) back ->
            Doubles.calculateMultivariateHyper deckSize handSize groups
            = JS.Number 0).
  { intros front back -> Hsum Hdeck Hall Hback.
    unfold Doubles.calculateMultivariateHyper.
    destruct ((deckSize <? handSize) || (handSize <? 0)); [reflexivity|].
    destruct (totalInGroups_exact front 0 is_double_0 Hall) as [Hfold Hd].
    rewrite Z.add_0_l in Hfold, Hd. rewrite fold_left_app, Hfold. cbv zeta.
    pose proof (Number_regular _ Hd) as Hrd.
    pose proof (Number_regular _ Hdeck) as Hrdeck.
    destruct (totalInGroups_ge back _ _ Hrd Hback
                (or_intror (conj Hrd (Qle_refl _)))) as [Hinf|[Hr Hv]].
    - rewrite Hinf.
      destruct (JS.Number deckSize) as [[]| | |s m e]; cbn [regular] in Hrdeck;
        try exact (False_ind _ Hrdeck); reflexivity.
    - destruct (lt_value _ _ Hrdeck Hr) as [_ Hlt]. rewrite Hlt; [reflexivity|].
      unfold is_double in Hdeck, Hd. rewrite Hdeck.
      apply Qlt_le_trans with (inject_Z (Zsum (map countInDeck front)));
        [rewrite <- Zlt_Qlt; lia|rewrite <- Hd; exact Hv]. }
  split; [|split; [|split; [|split]]].
  - intros Hhand. unfold Doubles.calculateMultivariateHyper.
    destruct (Z.ltb_spec deckSize handSize); [reflexivity|lia].
  - intros Hsum Hdeck Hall.
    apply (Hfront groups []); [rewrite app_nil_r; reflexivity|exact Hsum
                              |exact Hdeck|exact Hall|constructor].
  - exact Hfront.
  - intros Hzero. unfold Doubles.calculateMultivariateHyper.
    destruct ((deckSize <? handSize) || (handSize <? 0)); [reflexivity|].
    cbv zeta. destruct (JS.lt _ _); [reflexivity|].
    rewrite Hzero. reflexivity.
  - intros Hall Hsum. apply totals_exact_safe; [exact Hall|lia|lia].
Qed.

Lemma calculateMultivariateHyper_rejects_witness :
  Doubles.calculateMultivariateHyper 5 7 [tmp_group 3 1 3] = JS.Number 0
  /\ Doubles.calculateMultivariateHyper 5 2 [tmp_group 4 0 1; tmp_group 3 1 3]
     = JS.Number 0
  /\ Doubles.calculateMultivariateHyper 5 (- 1) [] = JS.Number 0
  /\ Doubles.calculateMultivariateHyper 10 0
       [tmp_group (2 ^ 53) 0 0; tmp_group 1 0 0] = JS.Number 0.
Proof.
  pose proof (calculateMultivariateHyper_rejects 5 7 [tmp_group 3 1 3]) as H1.
  pose proof (calculateMultivariateHyper_rejects 5 2
                [tmp_group 4 0 1; tmp_group 3 1 3]) as H2.
  pose proof (calculateMultivariateHyper_rejects 5 (- 1) []) as H3.
  pose proof (calculateMultivariateHyper_rejects 10 0
                [tmp_group (2 ^ 53) 0 0; tmp_group 1 0 0]) as H4.
  split; [|split; [|split]].
  - apply (proj1 H1). lia.
  - destruct H2 as (_ & H2 & _ & _ & H2'). apply H2.
    + cbn. lia.
    + vm_compute. reflexivity.
    + apply H2'; [|cbn; lia].
      repeat constructor; cbn; lia.
  - apply (proj1 (proj2 (proj2 (proj2 H3)))). reflexivity.
  - destruct H4 as (_ & _ & H4 & _).
    apply (H4 [tmp_group (2 ^ 53) 0 0] [tmp_group 1 0 0]).
    + reflexivity.
    + cbn. lia.
    + vm_compute. reflexivity.
    + cbn [totals_exact countInDeck tmp_group]. repeat split; vm_compute; reflexivity.
    + constructor; [split; [vm_compute; reflexivity|cbn; lia]|constructor].
Defined.

(** ** The qualification estimator *)

(** C6 as worded fails: with [currentWins = 2^53] and [currentLosses = 1] the
    record exceeds the [2^53] rounds, but the sum [2^53 + 1] is no double and
    the program's [currentWins + currentLosses] is [2^53]; [remainingRounds]
    is [0], not negative, and the result is [100]. *)
Lemma record_sum_rounds_down :
  2 ^ 53 + 1 > 2 ^ 53
  /\ calculateTopXProbability 1 (2 ^ 53) 1 (2 ^ 53) 1 = JS.Number 100
  /\ calculateTopXProbability 1 (2 ^ 53) 1 (2 ^ 53) 1 <> JS.Number 0.
Proof.
  assert (H : calculateTopXProbability 1 (2 ^ 53) 1 (2 ^ 53) 1 = JS.Number 100)
    by (vm_compute; reflexivity).
  split; [lia|]. split; [exact H|]. rewrite H. vm_compute. discriminate.
Qed.

(** C6, amended: on arguments that are doubles, [calculateTopXProbability]
    returns [0] whenever [currentWins + currentLosses > totalRounds] and
    some double lies above [totalRounds] and not above the sum, as the sum
    itself does when it is a double, which every integer of absolute value
    at most [2^53] is; it returns [100] whenever
    [currentWins + currentLosses <= totalRounds] and
    [targetRank >= totalPlayers]; and
    [calculateTopXProbability(64, 6, 64, 0, 0)] is [100]. *)
Theorem calculateTopXProbability_early
    (totalPlayers totalRounds targetRank currentWins currentLosses : Z) :
  is_double totalRounds -> is_double currentWins -> is_double currentLosses ->
  (forall d, is_double d -> totalRounds < d <= currentWins + currentLosses ->
   calculateTopXProbability totalPlayers totalRounds targetRank
     currentWins currentLosses = JS.Number 0)
  /\ (currentWins + currentLosses > totalRounds ->
      is_double (currentWins + currentLosses) ->
      calculateTopXProbability totalPlayers totalRounds targetRank
        currentWins currentLosses = JS.Number 0)
  /\ (currentWins + currentLosses <= totalRounds -> targetRank >= totalPlayers ->
      calculateTopXProbability totalPlayers totalRounds targetRank
        currentWins currentLosses = JS.Number 100)
  /\ (forall z, Z.abs z <= 2 ^ 53 -> is_double z)
  /\ calculateTopXProbability 64 6 64 0 0 = JS.Number 100.
Proof.
  intros HR HW HL.
  pose proof (Number_regular _ HR) as HrR.
  pose proof (Number_regular _ HW) as HrW.
  pose proof (Number_regular _ HL) as HrL.
  unfold is_double in HR, HW, HL.
  assert (Hzero : forall d, is_double d ->
            totalRounds < d <= currentWins + currentLosses ->
            calculateTopXProbability totalPlayers totalRounds targetRank
              currentWins currentLosses = JS.Number 0).
  { intros d Hd [Hlo Hhi]. unfold calculateTopXProbability.
    pose proof (Number_regular _ Hd) as Hrd. unfold is_double in Hd.
    assert (Hneg : JS.lt (JS.sub (JS.Number totalRounds)
                            (JS.add (JS.Number currentWins) (JS.Number currentLosses)))
                     (JS.Number 0) = true).
    { destruct (add_ge _ _ _ HrW HrL Hrd) as [Hinf|[HrS Hval]].
      - rewrite HW, HL, Hd, <- inject_Z_plus, <- Zle_Qle. exact Hhi.
      - rewrite Hinf.
        destruct (JS.Number totalRounds) as [[]| | |s m e]; cbn [regular] in HrR;
          try exact (False_ind _ HrR); reflexivity.
      - apply (sub_sign _ _ HrR HrS). rewrite HR.
        apply Qlt_le_trans with (inject_Z d); [|rewrite <- Hd; exact Hval].
        rewrite <- Zlt_Qlt. exact Hlo. }
    rewrite Hneg. reflexivity. }
  split; [exact Hzero|]. split; [|split; [|split]].
  - intros Hgt Hsum. apply (Hzero _ Hsum). lia.
  - intros Hle Hrank. unfold calculateTopXProbability.
    assert (Hnot : JS.lt (JS.sub (JS.Number totalRounds)
                            (JS.add (JS.Number currentWins) (JS.Number currentLosses)))
                     (JS.Number 0) = false).
    { destruct (add_le _ _ _ HrW HrL HrR) as [Hinf|[HrS Hval]].
      - rewrite HW, HL, HR, <- inject_Z_plus, <- Zle_Qle. exact Hle.
      - rewrite Hinf.
        destruct (JS.Number totalRounds) as [[]| | |s m e]; cbn [regular] in HrR;
          try exact (False_ind _ HrR); reflexivity.
      - destruct (JS.lt _ _) eqn:Hlt; [|reflexivity]. exfalso.
        apply (sub_sign _ _ HrR HrS) in Hlt. lra. }
    rewrite Hnot. destruct (Z.leb_spec totalPlayers targetRank); [reflexivity|lia].
  - exact safe_is_double.
  - vm_compute. reflexivity.
Qed.

Lemma calculateTopXProbability_early_witness :
  calculateTopXProbability 64 6 8 4 3 = JS.Number 0
  /\ calculateTopXProbability 32 5 40 2 1 = JS.Number 100
  /\ calculateTopXProbability 1 5 1 (2 ^ 53) 1 = JS.Number 0.
Proof.
  split; [|split].
  - apply (proj1 (proj2 (calculateTopXProbability_early 64 6 8 4 3
                    ltac:(vm_compute; reflexivity) ltac:(vm_compute; reflexivity)
                    ltac:(vm_compute; reflexivity))));
      [lia|vm_compute; reflexivity].
  - apply (proj1 (proj2 (proj2 (calculateTopXProbability_early 32 5 40 2 1
                    ltac:(vm_compute; reflexivity) ltac:(vm_compute; reflexivity)
                    ltac:(vm_compute; reflexivity))))); lia.
  - apply (proj1 (calculateTopXProbability_early 1 5 1 (2 ^ 53) 1
                    ltac:(vm_compute; reflexivity) ltac:(vm_compute; reflexivity)
                    ltac:(vm_compute; reflexivity)) (2 ^ 53));
      [vm_compute; reflexivity|lia].
Defined.

(** ** The draw table *)

(** C7: in the table [calculateProbabilities(40, 3, 5)] the row for zero
    copies has an at-least probability of [100], and the at-least
    probabilities do not increase as the number of copies grows. *)
Theorem calculateProbabilities_40_3_5 :
  map drawCount (calculateProbabilities 40 3 5) = [0; 1; 2; 3]
  /\ option_map cumulativeAtLeast (head (calculateProbabilities 40 3 5))
     = Some (JS.Number 100)
  /\ non_increasing (map cumulativeAtLeast (calculateProbabilities 40 3 5)) = true.
Proof. vm_compute. repeat split. Qed.

(** ** The known value *)

(** C2 as worded fails: the chance of at least one copy of a 3-of in a
    5-card hand from 40 cards does not round to 39.76, and is below 34. *)
Lemma known_value_is_not_39_76 :
  JS.toFixed2 (calculateMultivariateHyper 40 5 [tmp_group 3 1 3])
  <> JS.div (JS.Number 3976) (JS.Number 100)
  /\ JS.lt (calculateMultivariateHyper 40 5 [tmp_group 3 1 3]) (JS.Number 34) = true.
Proof. vm_compute. split; [discriminate|reflexivity]. Qed.

(** C2, amended: [calculateMultivariateHyper(40, 5, [one group with
    countInDeck = 3, minDesired = 1, maxDesired = 3])] is the double
    [(222111 / 658008) * 100], which is 33.76 to two decimals. *)
Theorem known_value (i n : string) :
  let p := calculateMultivariateHyper 40 5
             [{| id := i; name := n; countInDeck := 3;
                 minDesired := 1; maxDesired := 3 |}] in
  p = percentage 222111 658008
  /\ JS.toFixed2 p = JS.div (JS.Number 3376) (JS.Number 100).
Proof. vm_compute. split; reflexivity. Qed.

(** C10 as worded fails: with 1030 cards and a hand of 515 the total count
    exceeds the largest double and the result is [NaN]. *)
Lemma empty_groups_overflow :
  calculateMultivariateHyper 1030 515 [] = JS.NaN
  /\ calculateMultivariateHyper 1030 515 [] <> JS.Number 100.
Proof. vm_compute. split; [reflexivity|discriminate]. Qed.

Lemma forallb_interval (p : Z -> bool) (lo hi x : Z) :
  forallb p (interval lo hi) = true -> lo <= x <= hi -> p x = true.
Proof.
  intros Hall Hx. rewrite forallb_forall in Hall. apply Hall.
  apply in_interval. exact Hx.
Qed.

Lemma finite_total_upto_60 (deckSize handSize : Z) :
  0 <= handSize <= deckSize -> deckSize <= 60 ->
  finite_total deckSize handSize = true.
Proof.
  intros Hhand Hdeck.
  assert (Hall : forallb (fun d => forallb (finite_total d) (interval 0 d))
                   (interval 0 60) = true) by (vm_compute; reflexivity).
  apply (forallb_interval _ 0 deckSize handSize); [|lia].
  apply (forallb_interval _ 0 60 deckSize Hall). lia.
Qed.

(** C10, amended: for every [deckSize >= 0] and [0 <= handSize <= deckSize]
    for which [C(deckSize, handSize)] converts to a finite double, as it does
    for every deck of at most 60 cards, [calculateMultivariateHyper] with no
    groups returns exactly [100]. *)
Theorem calculateMultivariateHyper_no_groups (deckSize handSize : Z) :
  0 <= handSize <= deckSize ->
  finite_total deckSize handSize = true \/ deckSize <= 60 ->
  calculateMultivariateHyper deckSize handSize [] = JS.Number 100.
Proof.
  intros Hhand Hfin.
  assert (Hfinite : finite_total deckSize handSize = true).
  { destruct Hfin as [H|H]; [exact H|].
    apply finite_total_upto_60; [exact Hhand|exact H]. }
  rewrite calculateMultivariateHyper_accepted;
    [|exact Hhand|constructor|cbn; lia].
  unfold successful_ways. cbn [map Zsum fold_right].
  rewrite ways_from_nil, Z.sub_0_r.
  destruct (Z.leb_spec 0 handSize); [|lia].
  destruct (Z.leb_spec handSize deckSize); [|lia]. cbn [andb].
  apply percentage_self. unfold finite_total in Hfinite.
  rewrite combinations_binomial in Hfinite. exact Hfinite.
Qed.

Lemma calculateMultivariateHyper_no_groups_witness :
  calculateMultivariateHyper 1029 514 [] = JS.Number 100
  /\ calculateMultivariateHyper 40 5 [] = JS.Number 100.
Proof.
  split.
  - apply (calculateMultivariateHyper_no_groups 1029 514); [lia|].
    left. vm_compute. reflexivity.
  - apply (calculateMultivariateHyper_no_groups 40 5); [lia|]. right. lia.
Defined.

(** ** The standings *)

(** C4 as worded fails: with 1030 rounds both [2 ** 1030] and
    [C(1030, 515)] are [Infinity] as doubles, the bucket of 515 wins gets the
    count [NaN], and so does the sum, which is within no tolerance of 64;
    and with as many players as the largest double, [2^1024 - 2^971], and 62
    rounds, the sum of the counts is [Infinity]. *)
Lemma standings_sum_overflow :
  total_count (calculateSwissStandings 64 1030) = JS.NaN
  /\ (forall tol, within tol (total_count (calculateSwissStandings 64 1030))
                    (JS.Number 64) = false)
  /\ JS.Number (2 ^ 1024 - 2 ^ 971) = S754_finite false (2 ^ 53 - 1) 971
  /\ total_count (calculateSwissStandings (2 ^ 1024 - 2 ^ 971) 62) = JS.Infinity.
Proof.
  assert (Hnan : total_count (calculateSwissStandings 64 1030) = JS.NaN).
  { apply (total_count_nan _ (standing 64 1030 515)).
    - apply in_calculateSwissStandings. lia.
    - vm_compute. reflexivity. }
  split; [exact Hnan|]. split; [intros tol; rewrite Hnan; reflexivity|].
  split; vm_compute; reflexivity.
Qed.

(** C4, amended: for every number of rounds up to 1023, for which
    [2 ** numRounds] is a finite double, and every [numPlayers] from [0] to
    [2^1023], the counts add up to a finite double that differs from
    [numPlayers] by at most [numPlayers * (2 * numRounds + 9) * 2^-50], which
    is within [10^-6] as long as [numPlayers * (2 * numRounds + 9)] is at most
    [2^30]; for [calculateSwissStandings(64, 6)] the sum is exactly 64 and
    the entry with 6 wins has count exactly 1. *)
Theorem calculateSwissStandings_counts (numPlayers numRounds : Z) :
  0 <= numPlayers <= 2 ^ 1023 -> 0 <= numRounds <= 1023 ->
  let total := total_count (calculateSwissStandings numPlayers numRounds) in
  let P := inject_Z numPlayers in
  let tol := (P * inject_Z (2 * numRounds + 9) * eta)%Q in
  nonneg total
  /\ (P - tol <= value total)%Q /\ (value total <= P + tol)%Q
  /\ (numPlayers * (2 * numRounds + 9) <= 2 ^ 30 ->
      (P - (1 # 1000000) <= value total)%Q /\ (value total <= P + (1 # 1000000))%Q)
  /\ total_count (calculateSwissStandings 64 6) = JS.Number 64
  /\ within tolerance (total_count (calculateSwissStandings 64 6)) (JS.Number 64)
     = true
  /\ (forall s, In s (calculateSwissStandings 64 6) -> wins s = 6 ->
        count s = JS.Number 1).
Proof.
  intros HP HR total P tol.
  assert (Hmain : nonneg total /\ (P - tol <= value total)%Q /\ (value total <= P + tol)%Q).
  { destruct (Z.eq_dec numPlayers 0) as [H0|Hne].
    - assert (Htot : total = JS.Number 0).
      { subst total numPlayers. unfold total_count.
        rewrite calculateSwissStandings_map. apply fold_counts_zero; [exact HR|].
        apply List.Forall_forall. intros w Hw. apply in_Zrange_down in Hw. lia. }
      rewrite Htot. subst tol P. rewrite H0.
      change (value (JS.Number 0)) with 0%Q. change (inject_Z 0) with 0%Q.
      split; [exact I|]. split; lra.
    - destruct (total_count_near numPlayers numRounds ltac:(lia) HR)
        as (Hn & H0 & H1 & H2).
      fold total P in Hn, H0, H1, H2. split; [exact Hn|]. subst tol.
      split; lra. }
  destruct Hmain as (Hn & Hlo & Hhi).
  split; [exact Hn|]. split; [exact Hlo|]. split; [exact Hhi|]. split; [|split; [|split]].
  - intros Hsmall.
    assert (Htol : (tol <= 1 # 1000000)%Q).
    { subst tol P. rewrite <- inject_Z_mult.
      apply Qle_trans with (inject_Z (2 ^ 30) * eta)%Q; [|vm_compute; discriminate].
      apply Qmult_le_compat_r; [rewrite <- Zle_Qle; exact Hsmall|unfold eta; lra]. }
    split; lra.
  - vm_compute. reflexivity.
  - vm_compute. reflexivity.
  - intros s Hs Hw. vm_compute in Hs.
    repeat (destruct Hs as [<-|Hs]; [try discriminate Hw; vm_compute; reflexivity|]).
    destruct Hs.
Qed.

Lemma calculateSwissStandings_counts_witness :
  nonneg (total_count (calculateSwissStandings 1000 100))
  /\ (1000 - (1 # 1000000)
      <= value (total_count (calculateSwissStandings 1000 100)))%Q
  /\ (value (total_count (calculateSwissStandings 1000 100))
      <= 1000 + (1 # 1000000))%Q.
Proof.
  destruct (calculateSwissStandings_counts 1000 100 ltac:(lia) ltac:(lia))
    as (Hn & _ & _ & Htol & _).
  split; [exact Hn|]. apply Htol. lia.
Defined.

(** ** The chance map *)

(** C3: in [calculateTopXProbability], the bucket at which the running
    total first exceeds [targetRank], with the cumulative total before it
    strictly below [targetRank] and the one after it strictly above, gets
    exactly [(targetRank - cumulativeBefore) / bucketSize]; a bucket whose
    cumulative total after inclusion is [<= targetRank] gets the chance [1];
    and any other bucket, preceded by a cumulative total that is already
    [>= targetRank], gets [0]. *)
Theorem makeItChanceMap_buckets (totalPlayers totalRounds targetRank : Z)
    (i : nat) (s : SwissStanding) :
  nth_error (calculateSwissStandings totalPlayers totalRounds) i = Some s ->
  let before :=
    cumulative_before (calculateSwissStandings totalPlayers totalRounds) i in
  let after := JS.add before (count s) in
  let chance := makeItChanceMap totalPlayers totalRounds targetRank !! wins s in
  (JS.lt before (JS.Number targetRank) = true ->
   JS.lt (JS.Number targetRank) after = true ->
   chance = Some (JS.div (JS.sub (JS.Number targetRank) before) (count s)))
  /\ (JS.le after (JS.Number targetRank) = true -> chance = Some (JS.Number 1))
  /\ (JS.le (JS.Number targetRank) before = true ->
      JS.le after (JS.Number targetRank) = false ->
      chance = Some (JS.Number 0)).
Proof.
  intros Hnth before after chance. subst chance.
  rewrite (makeItChanceMap_lookup _ _ _ i s Hnth). fold before.
  unfold bucket_chance. fold after. repeat apply conj.
  - intros Hbelow Habove. rewrite (lt_not_le _ _ Habove), Hbelow. reflexivity.
  - intros Hle. rewrite Hle. reflexivity.
  - intros Hge Hnot. rewrite Hnot, (le_not_lt _ _ Hge). reflexivity.
Qed.

Lemma makeItChanceMap_buckets_witness :
  makeItChanceMap 64 6 8 !! 4
  = Some (JS.div (JS.sub (JS.Number 8) (JS.Number 7)) (JS.Number 15))
  /\ makeItChanceMap 64 6 8 !! 5 = Some (JS.Number 1)
  /\ makeItChanceMap 64 6 8 !! 3 = Some (JS.Number 0).
Proof.
  split; [|split].
  - apply (proj1 (makeItChanceMap_buckets 64 6 8 2 (standing 64 6 4) eq_refl));
      vm_compute; reflexivity.
  - apply (proj1 (proj2 (makeItChanceMap_buckets 64 6 8 1 (standing 64 6 5) eq_refl))).
    vm_compute. reflexivity.
  - apply (proj2 (proj2 (makeItChanceMap_buckets 64 6 8 3 (standing 64 6 3) eq_refl)));
      vm_compute; reflexivity.
Defined.

(** * Further properties of the engine *)

(** ** [combinations] *)

Lemma factorial_pos (n : nat) : 0 < factorial n.
Proof. induction n as [|n IH]; cbn [factorial]; [lia|]. nia. Qed.

Lemma binom_factorial (n k : nat) :
  (k <= n)%nat -> binom n k * factorial k * factorial (n - k) = factorial n.
Proof.
  induction k as [|k IH]; intros Hle.
  - rewrite binom_0_r, Nat.sub_0_r. cbn [factorial]. lia.
  - specialize (IH ltac:(lia)).
    replace (n - k)%nat with (S (n - S k)) in IH by lia.
    cbn [factorial] in IH |- *.
    pose proof (binom_absorb n k) as Habs.
    replace (Z.of_nat (S (n - S k))) with (Z.of_nat n - Z.of_nat k) in IH by lia.
    replace (Z.of_nat (S k)) with (Z.of_nat k + 1) by lia.
    rewrite <- IH.
    transitivity ((Z.of_nat k + 1) * binom n (S k)
                  * (factorial k * factorial (n - S k))); [ring|].
    rewrite Habs. ring.
Qed.

(** X1: for [0 <= k <= n] with [n] at most [2^53], so that [n - i + 1] is
    exact in the loop, [combinations(n, k) * k! * (n - k)!] is [n!]: the
    iterative multiply-then-divide loop, with its symmetry reduction,
    computes the binomial coefficient exactly. *)
Theorem combinations_factorial (n k : Z) :
  0 <= k <= n -> n <= 2 ^ 53 ->
  combinations n k * factorial (Z.to_nat k) * factorial (Z.to_nat (n - k))
  = factorial (Z.to_nat n).
Proof.
  intros Hk _. rewrite combinations_binomial. unfold binomial.
  destruct (Z.ltb_spec n 0); [lia|]. destruct (Z.ltb_spec k 0); [lia|].
  cbn [orb]. rewrite Z2Nat.inj_sub by lia. apply binom_factorial. lia.
Qed.

Lemma combinations_factorial_witness :
  combinations 60 30 * factorial 30 * factorial 30 = factorial 60.
Proof. apply (combinations_factorial 60 30); lia. Defined.

(** X2: [combinations(n, k) = combinations(n, n - k)] for every
    [0 <= k <= n] with [n] at most [2^53]. *)
Theorem combinations_symmetry (n k : Z) :
  0 <= k <= n -> n <= 2 ^ 53 -> combinations n k = combinations n (n - k).
Proof.
  intros Hk _. rewrite !combinations_binomial. unfold binomial.
  destruct (Z.ltb_spec n 0); [lia|]. destruct (Z.ltb_spec k 0); [lia|].
  destruct (Z.ltb_spec (n - k) 0); [lia|]. cbn [orb].
  rewrite Z2Nat.inj_sub by lia. apply binom_sym. lia.
Qed.

Lemma combinations_symmetry_witness : combinations 40 5 = combinations 40 35.
Proof. apply (combinations_symmetry 40 5); lia. Defined.

(** X3: Pascal's rule, [combinations(n + 1, k + 1) = combinations(n, k) +
    combinations(n, k + 1)] for all [n, k >= 0] below [2^53], for which
    [n + 1] and [k + 1] are exact, also past the diagonal where the values
    are zero. *)
Theorem combinations_pascal (n k : Z) :
  0 <= n < 2 ^ 53 -> 0 <= k < 2 ^ 53 ->
  combinations (n + 1) (k + 1) = combinations n k + combinations n (k + 1).
Proof.
  intros [Hn _] [Hk _]. rewrite !combinations_binomial. unfold binomial.
  destruct (Z.ltb_spec (n + 1) 0); [lia|]. destruct (Z.ltb_spec (k + 1) 0); [lia|].
  destruct (Z.ltb_spec n 0); [lia|]. destruct (Z.ltb_spec k 0); [lia|].
  cbn [orb].
  replace (Z.to_nat (n + 1)) with (S (Z.to_nat n)) by lia.
  replace (Z.to_nat (k + 1)) with (S (Z.to_nat k)) by lia.
  reflexivity.
Qed.

Lemma combinations_pascal_witness :
  combinations 41 6 = combinations 40 5 + combinations 40 6.
Proof. apply (combinations_pascal 40 5); lia. Defined.

(** X4: on a cache whose entries are right, [combinations] returns what the
    uncached computation returns and keeps the entries right; asking again
    returns the same value and leaves the cache as it is. *)
Theorem combinations_memo_stable (comboMemo : gmap (Z * Z) Z) (n k : Z) :
  memo_ok comboMemo ->
  let r := combinations_memo comboMemo n k in
  fst r = combinations n k
  /\ memo_ok (snd r)
  /\ combinations_memo (snd r) n k = r.
Proof.
  intros Hok r. subst r.
  destruct (combinations_memo_correct comboMemo n k Hok) as [Hval Hok'].
  split; [exact Hval|]. split; [exact Hok'|].
  revert Hval Hok'. unfold combinations_memo, combinations.
  destruct ((k <? 0) || (n <? k)) eqn:Hout; [reflexivity|].
  destruct ((k =? 0) || (k =? n)) eqn:Hedge; [reflexivity|].
  cbv zeta. intros Hval Hok'.
  apply orb_false_iff in Hout, Hedge.
  destruct Hout as [Hk0 Hkn]. destruct Hedge as [Hne0 Hnen].
  apply Z.ltb_ge in Hk0, Hkn. apply Z.eqb_neq in Hne0, Hnen.
  assert (Hpos : combinations_loop (Z.to_nat (reduced_k n k)) n 1 1 <> 0).
  { pose proof (combinations_binomial n k) as Hb.
    unfold combinations in Hb.
    destruct (Z.ltb_spec k 0); [lia|]. destruct (Z.ltb_spec n k); [lia|].
    cbn [orb] in Hb.
    destruct (Z.eqb_spec k 0); [lia|]. destruct (Z.eqb_spec k n); [lia|].
    cbn [orb] in Hb. rewrite Hb.
    pose proof (binomial_pos n k ltac:(lia)). lia. }
  destruct (comboMemo !! (n, reduced_k n k)) as [cached|] eqn:Hlook.
  - destruct (Z.eqb_spec cached 0) as [Hz|Hnz]; cbn [negb fst snd] in *.
    + rewrite lookup_insert_eq.
      destruct (Z.eqb_spec (combinations_loop (Z.to_nat (reduced_k n k)) n 1 1) 0);
        [contradiction|reflexivity].
    + rewrite Hlook.
      destruct (Z.eqb_spec cached 0); [contradiction|reflexivity].
  - cbn [fst snd] in *. rewrite lookup_insert_eq.
    destruct (Z.eqb_spec (combinations_loop (Z.to_nat (reduced_k n k)) n 1 1) 0);
      [contradiction|reflexivity].
Qed.

Lemma combinations_memo_stable_witness :
  fst (combinations_memo ∅ 10 7) = combinations 10 7
  /\ combinations_memo (snd (combinations_memo ∅ 10 7)) 10 7
     = combinations_memo ∅ 10 7.
Proof.
  destruct (combinations_memo_stable ∅ 10 7 memo_ok_empty) as (Hv & _ & Hhit).
  split; [exact Hv|exact Hhit].
Defined.

(** ** The solver does not depend on the order of the groups *)












(** ** At least and exactly *)

Lemma interval_single (j : Z) : interval j j = [j].
Proof.
  unfold interval. replace (Z.to_nat (j - j + 1)) with 1%nat by lia. reflexivity.
Qed.

(** X6: with one group, the hands [solve] counts for "at least [i] copies"
    ([minDesired = i], [maxDesired = handSize]) are as many as those it counts
    for "exactly [j] copies", summed over [j] from [i] to [handSize]: the
    two columns of the draw table are made from consistent counts. *)
Theorem at_least_is_sum_of_exact (otherCount targetCount handSize i : Z) :
  0 <= i ->
  solve otherCount [tmp_group targetCount i handSize] handSize 1 0
  = Zsum (map (fun j => solve otherCount [tmp_group targetCount j j] handSize 1 0)
            (interval i handSize)).
Proof.
  intros Hi.
  rewrite solve_ways_from by (repeat constructor; exact Hi).
  rewrite ways_from_cons. cbn [tmp_group countInDeck minDesired maxDesired].
  rewrite Z.add_0_l, Z.mul_1_l.
  apply Zsum_map_ext. intros j Hj. apply in_interval in Hj.
  rewrite solve_ways_from by (repeat constructor; cbn; lia).
  rewrite ways_from_cons. cbn [tmp_group countInDeck minDesired maxDesired].
  rewrite interval_single. cbn [map]. rewrite Zsum_cons. cbn [Zsum fold_right]. lia.
Qed.

Lemma at_least_is_sum_of_exact_witness :
  solve 37 [tmp_group 3 1 5] 5 1 0
  = Zsum (map (fun j => solve 37 [tmp_group 3 j j] 5 1 0) (interval 1 5)).
Proof. apply (at_least_is_sum_of_exact 37 3 5 1). lia. Defined.

(** ** Vandermonde's identity and the total count *)

Lemma Zsum_map_nat_ext (f g : nat -> Z) (l : list nat) :
  (forall x, In x l -> f x = g x) -> Zsum (map f l) = Zsum (map g l).
Proof.
  intros H. induction l as [|x l IH]; [reflexivity|].
  rewrite !map_cons, !Zsum_cons, H by (left; reflexivity).
  rewrite IH; [reflexivity|]. intros y Hy. apply H. right. exact Hy.
Qed.

Lemma Zsum_map_nat_zero (f : nat -> Z) (l : list nat) :
  (forall x, In x l -> f x = 0) -> Zsum (map f l) = 0.
Proof.
  intros H. induction l as [|x l IH]; [reflexivity|].
  rewrite map_cons, Zsum_cons, H by (left; reflexivity).
  rewrite IH; [reflexivity|]. intros y Hy. apply H. right. exact Hy.
Qed.

Lemma Zsum_map_nat_add (f g : nat -> Z) (l : list nat) :
  Zsum (map (fun x => f x + g x) l) = Zsum (map f l) + Zsum (map g l).
Proof.
  induction l as [|x l IH]; [reflexivity|].
  rewrite !map_cons, !Zsum_cons, IH. lia.
Qed.

Lemma Zsum_seq_shift (f : nat -> Z) (a n : nat) :
  Zsum (map f (seq (S a) n)) = Zsum (map (fun s => f (S s)) (seq a n)).
Proof. rewrite <- seq_shift, map_map. reflexivity. Qed.

Lemma vandermonde_nat (K M : nat) :
  forall h, Zsum (map (fun t => binom K t * binom M (h - t)) (seq 0 (S h)))
            = binom (K + M) h.
Proof.
  induction K as [|K IH]; intros h.
  - cbn [seq]. rewrite map_cons, Zsum_cons, Nat.sub_0_r.
    rewrite Zsum_map_nat_zero.
    + cbn [binom Nat.add]. lia.
    + intros t Ht. apply in_seq in Ht. destruct t; [lia|]. reflexivity.
  - destruct h as [|h].
    + cbn [seq map]. rewrite Zsum_cons. cbn [Nat.add Nat.sub binom Zsum fold_right].
      rewrite binom_0_r. lia.
    + change (seq 0 (S (S h))) with (0%nat :: seq 1 (S h)).
      rewrite map_cons, Zsum_cons, Zsum_seq_shift.
      rewrite (Zsum_map_nat_ext _
                 (fun s => binom K s * binom M (h - s)
                           + binom K (S s) * binom M (S h - S s))).
      2:{ intros s _. cbn [binom Nat.sub]. ring. }
      rewrite Zsum_map_nat_add, (IH h).
      pose proof (IH (S h)) as HS.
      change (seq 0 (S (S h))) with (0%nat :: seq 1 (S h)) in HS.
      rewrite map_cons, Zsum_cons, Zsum_seq_shift in HS.
      rewrite binom_0_r, Nat.sub_0_r in HS.
      cbn [Nat.add]. cbn [binom]. fold (K + M)%nat.
      change (binom (S K) 0) with 1. rewrite Nat.sub_0_r. lia.
Qed.

Lemma Zrange_seq (a n : nat) : Zrange (Z.of_nat a) n = map Z.of_nat (seq a n).
Proof.
  revert a. induction n as [|n IH]; intros a; [reflexivity|].
  cbn [Zrange seq map]. f_equal.
  replace (Z.of_nat a + 1) with (Z.of_nat (S a)) by lia. apply IH.
Qed.

Lemma vandermonde (K M h : Z) :
  0 <= K -> 0 <= M -> 0 <= h ->
  Zsum (map (fun t => binomial K t * binomial M (h - t)) (interval 0 h))
  = binomial (K + M) h.
Proof.
  intros HK HM Hh. unfold interval.
  replace (Z.to_nat (h - 0 + 1)) with (S (Z.to_nat h)) by lia.
  change 0 with (Z.of_nat 0) at 1. rewrite Zrange_seq, map_map.
  unfold binomial at 3.
  destruct (Z.ltb_spec (K + M) 0); [lia|]. destruct (Z.ltb_spec h 0); [lia|].
  cbn [orb]. rewrite Z2Nat.inj_add by lia.
  rewrite <- vandermonde_nat. apply Zsum_map_nat_ext.
  intros t Ht. apply in_seq in Ht. unfold binomial.
  destruct (Z.ltb_spec K 0); [lia|]. destruct (Z.ltb_spec M 0); [lia|].
  destruct (Z.ltb_spec (Z.of_nat t) 0); [lia|].
  destruct (Z.ltb_spec (h - Z.of_nat t) 0); [lia|]. cbn [orb].
  rewrite Nat2Z.id. f_equal. f_equal. lia.
Qed.

Lemma binomial_negative (n k : Z) : k < 0 -> binomial n k = 0.
Proof.
  intros Hk. unfold binomial. destruct (Z.ltb_spec k 0); [|lia].
  rewrite orb_true_r. reflexivity.
Qed.

Lemma ways_from_nil_binomial (handSize otherCount : Z) :
  ways_from handSize otherCount [] = binomial otherCount handSize.
Proof.
  rewrite ways_from_nil.
  destruct (Z.leb_spec 0 handSize); cbn [andb];
    [|symmetry; apply binomial_negative; lia].
  destruct (Z.leb_spec handSize otherCount); [reflexivity|].
  symmetry. apply binomial_above. lia.
Qed.

Lemma unconstrained_min (H : Z) (groups : list HyperGroup) :
  Forall (fun g => 0 <= minDesired g) (map (unconstrained H) groups).
Proof.
  induction groups as [|g rest IH]; constructor; [|exact IH]. cbn. lia.
Qed.

(** Without constraints every hand counts. *)
Lemma ways_from_unconstrained (H otherCount : Z) (groups : list HyperGroup) :
  0 <= otherCount -> Forall (fun g => 0 <= countInDeck g) groups ->
  forall r, r <= H ->
    ways_from r otherCount (map (unconstrained H) groups)
    = binomial (otherCount + Zsum (map countInDeck groups)) r.
Proof.
  intros Ho Hcount. induction Hcount as [|g rest Hg Hrest IH]; intros r Hr.
  - cbn [map Zsum fold_right]. rewrite Z.add_0_r. apply ways_from_nil_binomial.
  - cbn [map]. rewrite Zsum_cons.
    destruct (Z.lt_ge_cases r 0) as [Hneg|Hpos].
    { rewrite ways_from_negative by
        (assumption || apply (unconstrained_min H (g :: rest))).
      symmetry. apply binomial_negative. exact Hneg. }
    rewrite ways_from_cons. cbn [unconstrained countInDeck minDesired maxDesired].
    assert (Hsum : 0 <= Zsum (map countInDeck rest)).
    { clear IH. induction Hrest as [|g' rest' Hg' _ IH']; [cbn; lia|].
      rewrite map_cons, Zsum_cons. lia. }
    rewrite (Zsum_map_ext _
               (fun t => binomial (countInDeck g) t
                         * binomial (otherCount + Zsum (map countInDeck rest)) (r - t))).
    2:{ intros t Ht. apply in_interval in Ht. rewrite IH by lia. reflexivity. }
    rewrite <- (Zsum_interval_truncate _ 0 r H Hr).
    2:{ intros t Ht. rewrite (binomial_negative _ (r - t)) by lia. lia. }
    rewrite vandermonde by lia. f_equal. lia.
Qed.

Lemma calculateProbabilities_head (deckSize targetCount handSize : Z) :
  0 <= targetCount <= deckSize -> 0 <= handSize <= deckSize ->
  finite_total deckSize handSize = true ->
  exists row rest,
    calculateProbabilities deckSize targetCount handSize = row :: rest
    /\ drawCount row = 0
    /\ cumulativeAtLeast row = JS.Number 100.
Proof.
  intros Htarget Hhand Hfin. unfold calculateProbabilities. cbv zeta.
  replace (Z.to_nat (Z.min targetCount handSize + 1))
    with (S (Z.to_nat (Z.min targetCount handSize))) by lia.
  cbn [calculateProbabilities_loop]. eexists. eexists.
  split; [reflexivity|]. split; [reflexivity|].
  cbn [cumulativeAtLeast].
  rewrite calculateMultivariateHyper_accepted;
    [|exact Hhand|repeat constructor; cbn; lia|cbn; lia].
  unfold successful_ways. cbn [map tmp_group countInDeck].
  change [tmp_group targetCount 0 handSize]
    with (map (unconstrained handSize) [tmp_group targetCount 0 0]).
  rewrite ways_from_unconstrained;
    [|cbn; lia|repeat constructor; cbn; lia|lia].
  cbn [map tmp_group countInDeck Zsum fold_right].
  replace (deckSize - (targetCount + 0) + (targetCount + 0)) with deckSize by lia.
  rewrite percentage_self; [reflexivity|].
  unfold finite_total in Hfin. rewrite combinations_binomial in Hfin. exact Hfin.
Qed.



(** ** The successful hands are never more than all hands *)









(** ** The ratio *)






(** ** The shape of the draw table *)

Lemma calculateProbabilities_loop_drawCount (fuel : nat)
    (deckSize targetCount handSize i : Z) :
  map drawCount (calculateProbabilities_loop fuel deckSize targetCount handSize i)
  = Zrange i fuel.
Proof.
  revert i. induction fuel as [|fuel IH]; intros i; [reflexivity|].
  cbn [calculateProbabilities_loop map drawCount Zrange]. rewrite IH. reflexivity.
Qed.

(** X9: the rows of [calculateProbabilities] are those of [0], [1], ...,
    [min(targetCount, handSize)] copies in this order; there is no row at all
    when that minimum is negative, and one row, for zero copies, when the
    deck holds no target card. *)
Theorem calculateProbabilities_rows (deckSize targetCount handSize : Z) :
  map drawCount (calculateProbabilities deckSize targetCount handSize)
  = interval 0 (Z.min targetCount handSize)
  /\ (Z.min targetCount handSize < 0 ->
      calculateProbabilities deckSize targetCount handSize = [])
  /\ (targetCount = 0 -> 0 <= handSize ->
      map drawCount (calculateProbabilities deckSize targetCount handSize) = [0]).
Proof.
  unfold calculateProbabilities. cbv zeta.
  rewrite calculateProbabilities_loop_drawCount. unfold interval.
  rewrite Z.sub_0_r. split; [reflexivity|]. split.
  - intros Hneg.
    replace (Z.to_nat (Z.min targetCount handSize + 1)) with 0%nat by lia.
    reflexivity.
  - intros -> Hhand. rewrite Z.min_l by lia. reflexivity.
Qed.

Lemma calculateProbabilities_rows_witness :
  calculateProbabilities 40 (-1) 5 = []
  /\ map drawCount (calculateProbabilities 40 0 5) = [0].
Proof.
  destruct (calculateProbabilities_rows 40 (-1) 5) as (_ & Hempty & _).
  destruct (calculateProbabilities_rows 40 0 5) as (_ & _ & Hone).
  split; [apply Hempty; lia|apply Hone; lia].
Defined.

(** ** The shape of the standings *)

Lemma combinations_mirror (n k : Z) :
  0 <= k <= n -> combinations n (n - k) = combinations n k.
Proof.
  intros Hk. rewrite !combinations_binomial. unfold binomial.
  destruct (Z.ltb_spec n 0); [lia|]. destruct (Z.ltb_spec k 0); [lia|].
  destruct (Z.ltb_spec (n - k) 0); [lia|]. cbn [orb].
  rewrite Z2Nat.inj_sub by lia. symmetry. apply binom_sym. lia.
Qed.

(** X10: [calculateSwissStandings] returns [numRounds + 1] entries (none for
    a negative number of rounds); every entry has [0 <= wins <= numRounds]
    and [wins + losses = numRounds]; and the table is symmetric: the entry
    whose wins are the losses of another has the same count and bounds. *)
Theorem calculateSwissStandings_shape (numPlayers numRounds : Z) :
  length (calculateSwissStandings numPlayers numRounds) = Z.to_nat (numRounds + 1)
  /\ (forall s, In s (calculateSwissStandings numPlayers numRounds) ->
        0 <= wins s <= numRounds /\ wins s + losses s = numRounds)
  /\ (forall s s',
        In s (calculateSwissStandings numPlayers numRounds) ->
        In s' (calculateSwissStandings numPlayers numRounds) ->
        wins s' = losses s ->
        count s' = count s /\ lowerBound s' = lowerBound s
        /\ upperBound s' = upperBound s).
Proof.
  rewrite calculateSwissStandings_map. split; [|split].
  - rewrite length_map. generalize (Z.to_nat (numRounds + 1)). intros n.
    generalize numRounds at 1. induction n as [|n IH]; intros hi; [reflexivity|].
    cbn [Zrange_down length]. rewrite IH. reflexivity.
  - intros s Hs. apply in_map_iff in Hs. destruct Hs as [w [<- Hw]].
    apply in_Zrange_down in Hw. cbn [standing wins losses]. lia.
  - intros s s' Hs Hs' Hmirror.
    apply in_map_iff in Hs, Hs'.
    destruct Hs as [w [<- Hw]]. destruct Hs' as [w' [<- Hw']].
    apply in_Zrange_down in Hw, Hw'.
    cbn [standing wins losses] in Hmirror. subst w'.
    cbn [standing count lowerBound upperBound].
    rewrite (combinations_mirror numRounds w) by lia. repeat split.
Qed.

(** ** Conversions of integers never give [NaN] *)

Lemma iter_pos_shr_1_nonneg (p : positive) (mrs : shr_record) :
  0 <= shr_m mrs -> 0 <= shr_m (SpecFloat.iter_pos shr_1 p mrs).
Proof.
  revert mrs. induction p as [p IH|p IH|]; intros mrs H; cbn [SpecFloat.iter_pos].
  - apply IH, IH, shr_1_nonneg, H.
  - apply IH, IH, H.
  - apply shr_1_nonneg, H.
Qed.

Lemma shr_fexp_nonneg (m e : Z) (l : location) :
  0 <= m -> 0 <= shr_m (fst (shr_fexp JS.prec JS.emax m e l)).
Proof.
  intros Hm. unfold shr_fexp, shr.
  assert (H0 : 0 <= shr_m (shr_record_of_loc m l))
    by (destruct l as [|[]]; exact Hm).
  destruct (fexp JS.prec JS.emax (Zdigits2 m + e) - e) as [|p|p]; cbn [fst];
    [exact H0| |exact H0].
  apply iter_pos_shr_1_nonneg, H0.
Qed.

Lemma round_nearest_even_nonneg (m : Z) (l : location) :
  0 <= m -> 0 <= round_nearest_even m l.
Proof.
  intros Hm. destruct l as [|[]]; cbn [round_nearest_even]; try lia.
  destruct (Z.even m); lia.
Qed.

(** Rounding a non-negative mantissa gives a zero, a finite double or an
    infinity of the given sign. *)
Lemma binary_round_aux_sign (sx : bool) (mx ex : Z) (lx : location) :
  0 <= mx ->
  match binary_round_aux JS.prec JS.emax sx mx ex lx with
  | S754_zero s | S754_infinity s | S754_finite s _ _ => s = sx
  | S754_nan => False
  end.
Proof.
  intros Hm. unfold binary_round_aux.
  pose proof (shr_fexp_nonneg mx ex lx Hm) as H1.
  destruct (shr_fexp JS.prec JS.emax mx ex lx) as [mrs' e']. cbn [fst] in H1.
  pose proof (shr_fexp_nonneg _ e' loc_Exact
                (round_nearest_even_nonneg _ (loc_of_shr_record mrs') H1)) as H2.
  destruct (shr_fexp JS.prec JS.emax
              (round_nearest_even (shr_m mrs') (loc_of_shr_record mrs')) e' loc_Exact)
    as [mrs'' e'']. cbn [fst] in H2.
  destruct (shr_m mrs'') as [|p|p]; [reflexivity| |lia].
  destruct (e'' <=? JS.emax - JS.prec); reflexivity.
Qed.

Lemma Number_sign (z : Z) :
  match JS.Number z with
  | S754_zero s | S754_infinity s | S754_finite s _ _ => s = (z <? 0)
  | S754_nan => False
  end.
Proof.
  unfold JS.Number, binary_normalize, binary_round.
  destruct z as [|p|p]; [reflexivity| |].
  - destruct (shl_align p 0 _) as [mz ez].
    apply (binary_round_aux_sign false (Z.pos mz) ez loc_Exact). lia.
  - destruct (shl_align p 0 _) as [mz ez].
    apply (binary_round_aux_sign true (Z.pos mz) ez loc_Exact). lia.
Qed.

Lemma Number_not_nan (z : Z) : JS.is_nan (JS.Number z) = false.
Proof. pose proof (Number_sign z) as H. destruct (JS.Number z); tauto. Qed.

(** ** Constraints that cannot be met *)





(** * The deck file *)

(** ** Splitting and joining lines *)

Lemma split_line (l r : list Z) :
  ~ In 10 l -> Str.split 10 (l ++ 10 :: r) = l :: Str.split 10 r.
Proof.
  induction l as [|c l IH]; intros Hnl; [reflexivity|].
  cbn [app Str.split].
  destruct (Z.eqb_spec c 10) as [->|_]; [exfalso; apply Hnl; left; reflexivity|].
  rewrite IH; [reflexivity|]. intros Hin. apply Hnl. right. exact Hin.
Qed.

Lemma split_one_line (l : list Z) : ~ In 10 l -> Str.split 10 l = [l].
Proof.
  induction l as [|c l IH]; intros Hnl; [reflexivity|].
  cbn [Str.split].
  destruct (Z.eqb_spec c 10) as [->|_]; [exfalso; apply Hnl; left; reflexivity|].
  rewrite IH; [reflexivity|]. intros Hin. apply Hnl. right. exact Hin.
Qed.

Lemma split_join (lines : list (list Z)) :
  lines <> [] -> Forall (fun l => ~ In 10 l) lines ->
  Str.split 10 (Str.join 10 lines) = lines.
Proof.
  intros Hne Hall. induction Hall as [|l rest Hl Hrest IH]; [contradiction|].
  destruct rest as [|l' rest'].
  - cbn [Str.join]. apply split_one_line, Hl.
  - change (Str.join 10 (l :: l' :: rest'))
      with (l ++ 10 :: Str.join 10 (l' :: rest')).
    rewrite split_line by exact Hl. rewrite IH by discriminate. reflexivity.
Qed.

(** ** Trimming *)

Lemma trimStart_no_ws (s : list Z) :
  Forall (fun c => Str.is_whitespace c = false) s -> Str.trimStart s = s.
Proof. intros [|c l Hc _]; [reflexivity|]. cbn [Str.trimStart]. rewrite Hc. reflexivity. Qed.

Lemma trim_no_ws (s : list Z) :
  Forall (fun c => Str.is_whitespace c = false) s -> Str.trim s = s.
Proof.
  intros Hs. unfold Str.trim, Str.trimEnd.
  rewrite (trimStart_no_ws s Hs), trimStart_no_ws.
  - apply rev_involutive.
  - apply List.Forall_forall. intros c Hc. apply in_rev in Hc.
    revert c Hc. apply List.Forall_forall. exact Hs.
Qed.

Lemma trimStart_snoc_ws (s : list Z) (w : Z) :
  Str.is_whitespace w = true ->
  Str.trimStart (s ++ [w])
  = match Str.trimStart s with [] => [] | t => t ++ [w] end.
Proof.
  intros Hw. induction s as [|c s IH]; cbn [app Str.trimStart].
  - rewrite Hw. reflexivity.
  - destruct (Str.is_whitespace c); [exact IH|reflexivity].
Qed.

Lemma trimEnd_snoc_ws (s : list Z) (w : Z) :
  Str.is_whitespace w = true -> Str.trimEnd (s ++ [w]) = Str.trimEnd s.
Proof.
  intros Hw. unfold Str.trimEnd. rewrite rev_app_distr. cbn [rev app Str.trimStart].
  rewrite Hw. reflexivity.
Qed.

Lemma trim_snoc_ws (s : list Z) (w : Z) :
  Str.is_whitespace w = true -> Str.trim (s ++ [w]) = Str.trim s.
Proof.
  intros Hw. unfold Str.trim. rewrite trimStart_snoc_ws by exact Hw.
  destruct (Str.trimStart s) as [|c t]; [reflexivity|].
  apply trimEnd_snoc_ws, Hw.
Qed.

(** ** Decimal notation *)

Lemma digits_rev_range (fuel : nat) (n : Z) :
  0 <= n -> Forall (fun d => 0 <= d <= 9) (Str.digits_rev fuel n).
Proof.
  revert n. induction fuel as [|fuel IH]; intros n Hn; cbn [Str.digits_rev];
    [constructor|].
  destruct (Z.ltb_spec n 10).
  - repeat constructor; lia.
  - constructor; [pose proof (Z.mod_pos_bound n 10); lia|].
    apply IH. apply Z.div_pos; lia.
Qed.

Lemma integer_value_snoc (digits : list Z) (d : Z) :
  Str.integer_value (digits ++ [d]) = Str.integer_value digits * 10 + d.
Proof. unfold Str.integer_value. rewrite fold_left_app. reflexivity. Qed.

Lemma digits_rev_value (fuel : nat) (n : Z) :
  0 <= n < 2 ^ Z.of_nat fuel ->
  Str.integer_value (rev (Str.digits_rev fuel n)) = n.
Proof.
  revert n. induction fuel as [|fuel IH]; intros n Hn.
  - change (2 ^ Z.of_nat 0) with 1 in Hn. assert (n = 0) as -> by lia. reflexivity.
  - cbn [Str.digits_rev]. destruct (Z.ltb_spec n 10).
    + cbn. lia.
    + cbn [rev]. rewrite integer_value_snoc, IH.
      * pose proof (Z.div_mod n 10 ltac:(lia)). lia.
      * rewrite Nat2Z.inj_succ, Z.pow_succ_r in Hn by lia.
        split; [apply Z.div_pos; lia|].
        apply Z.div_lt_upper_bound; lia.
Qed.

Lemma digits_rev_nonempty (fuel : nat) (n : Z) : Str.digits_rev (S fuel) n <> [].
Proof. cbn [Str.digits_rev]. destruct (n <? 10); discriminate. Qed.

Lemma digits_prefix_codes (digits : list Z) :
  Forall (fun d => 0 <= d <= 9) digits ->
  Str.digits_prefix (map (fun d => d + 48) digits) = digits.
Proof.
  induction 1 as [|d digits Hd _ IH]; [reflexivity|].
  cbn [map Str.digits_prefix]. unfold Str.digit.
  destruct (Z.leb_spec 48 (d + 48)); [|lia].
  destruct (Z.leb_spec (d + 48) 57); [|lia]. cbn [andb].
  rewrite IH. f_equal. lia.
Qed.

(** The digits [toString] writes for a magnitude. *)
Lemma magnitude_digits (m : Z) :
  0 <= m ->
  let digits := rev (Str.digits_rev (S (Z.to_nat (Z.log2 m))) m) in
  Forall (fun d => 0 <= d <= 9) digits
  /\ digits <> []
  /\ Str.integer_value digits = m.
Proof.
  intros Hm digits. subst digits. split; [|split].
  - apply List.Forall_forall. intros d Hd. apply in_rev in Hd.
    revert d Hd. apply List.Forall_forall. apply digits_rev_range, Hm.
  - intros Hnil. apply (f_equal (@rev Z)) in Hnil.
    rewrite rev_involutive in Hnil. revert Hnil. apply digits_rev_nonempty.
  - apply digits_rev_value. split; [exact Hm|].
    rewrite Nat2Z.inj_succ, Z2Nat.id by apply Z.log2_nonneg.
    destruct (Z.eq_dec m 0) as [->|Hne]; [reflexivity|].
    apply Z.log2_spec. lia.
Qed.

Lemma not_whitespace_code (c : Z) : 45 <= c <= 57 -> Str.is_whitespace c = false.
Proof.
  intros Hc. unfold Str.is_whitespace. cbn [existsb].
  repeat match goal with
         | |- context [Z.eqb c ?k] => destruct (Z.eqb_spec c k); [lia|]
         end.
  destruct (Z.leb_spec 8192 c); [lia|]. reflexivity.
Qed.

Lemma toString_codes (z : Z) : Forall (fun c => 45 <= c <= 57) (Str.toString z).
Proof.
  unfold Str.toString. cbv zeta.
  destruct (magnitude_digits (Z.abs z) (Z.abs_nonneg z)) as (Hrange & _ & _).
  apply Forall_app. split.
  - destruct (z <? 0); repeat constructor; lia.
  - apply List.Forall_forall. intros c Hc. apply in_map_iff in Hc.
    destruct Hc as [d [<- Hd]].
    rewrite List.Forall_forall in Hrange. specialize (Hrange d Hd). lia.
Qed.

Lemma toString_nonempty (z : Z) : Str.toString z <> [].
Proof.
  unfold Str.toString. cbv zeta.
  destruct (magnitude_digits (Z.abs z) (Z.abs_nonneg z)) as (_ & Hne & _).
  destruct (rev _) as [|d ds]; [contradiction|].
  destruct (z <? 0); discriminate.
Qed.

(** [parseInt] reads back what [toString] wrote. *)
Lemma parseInt_toString (z : Z) : Str.parseInt (Str.toString z) = JS.Number z.
Proof.
  unfold Str.parseInt.
  rewrite trimStart_no_ws.
  2:{ eapply List.Forall_impl; [|apply toString_codes].
      intros c Hc. apply not_whitespace_code, Hc. }
  unfold Str.toString. cbv zeta.
  destruct (magnitude_digits (Z.abs z) (Z.abs_nonneg z)) as (Hrange & Hne & Hval).
  destruct (Z.ltb_spec z 0) as [Hneg|Hpos]; cbn [app].
  - change (45 =? 45) with true. cbv iota.
    rewrite digits_prefix_codes by exact Hrange.
    destruct (rev _) as [|d ds] eqn:E; [contradiction|].
    rewrite Hval. destruct (Z.eqb_spec (Z.abs z) 0); [lia|].
    f_equal. lia.
  - destruct (rev _) as [|d ds] eqn:E; [contradiction|]. cbn [map].
    inversion Hrange as [|d' ds' Hd Hds]; subst.
    destruct (Z.eqb_spec (d + 48) 45); [lia|].
    destruct (Z.eqb_spec (d + 48) 43); [lia|].
    change ((d + 48) :: map (fun d0 => d0 + 48) ds)
      with (map (fun d0 => d0 + 48) (d :: ds)).
    rewrite digits_prefix_codes by exact Hrange.
    rewrite Hval. destruct (Z.eqb_spec (Z.abs z) 0) as [H0|H0].
    + assert (z = 0) as -> by lia. reflexivity.
    + f_equal. lia.
Qed.

(** ** Reading the lines *)

Lemma parseYDK_line_id (deck : DeckData) (current : section_name) (z : Z) :
  parseYDK_line (deck, Some current) (Str.toString z)
  = (push_id deck current (JS.Number z), Some current).
Proof.
  unfold parseYDK_line.
  pose proof (parseInt_toString z) as Hparse.
  pose proof (toString_codes z) as Hcodes.
  pose proof (toString_nonempty z) as Hne.
  destruct (Str.toString z) as [|c s]; [contradiction|].
  inversion Hcodes as [|c' s' Hc _]; subst.
  change (Str.lit "#main") with (35 :: Str.lit "main").
  change (Str.lit "#extra") with (35 :: Str.lit "extra").
  change (Str.lit "!side") with (33 :: Str.lit "side").
  cbn [Str.startsWith].
  destruct (Z.eqb_spec c 35); [lia|]. destruct (Z.eqb_spec c 33); [lia|].
  cbn [andb]. rewrite Hparse, Number_not_nan. reflexivity.
Qed.

Lemma parseYDK_ids (deck : DeckData) (current : section_name)
    (ids : list Z) (rest : list (list Z)) :
  fold_left parseYDK_line (map Str.toString ids ++ rest) (deck, Some current)
  = fold_left parseYDK_line rest
      (fold_left (fun d z => push_id d current (JS.Number z)) ids deck,
       Some current).
Proof.
  revert deck. induction ids as [|z ids IH]; intros deck; [reflexivity|].
  cbn [map app fold_left]. rewrite parseYDK_line_id. apply IH.
Qed.

Lemma push_main (ids : list Z) (deck : DeckData) :
  fold_left (fun d z => push_id d in_main (JS.Number z)) ids deck
  = {| main := main deck ++ map JS.Number ids; extra := extra deck;
       side := side deck |}.
Proof.
  revert deck. induction ids as [|z ids IH]; intros [m e s];
    cbn [fold_left map main extra side]; [rewrite app_nil_r; reflexivity|].
  rewrite IH. cbn [push_id main extra side]. rewrite <- app_assoc. reflexivity.
Qed.

Lemma push_extra (ids : list Z) (deck : DeckData) :
  fold_left (fun d z => push_id d in_extra (JS.Number z)) ids deck
  = {| main := main deck; extra := extra deck ++ map JS.Number ids;
       side := side deck |}.
Proof.
  revert deck. induction ids as [|z ids IH]; intros [m e s];
    cbn [fold_left map main extra side]; [rewrite app_nil_r; reflexivity|].
  rewrite IH. cbn [push_id main extra side]. rewrite <- app_assoc. reflexivity.
Qed.

Lemma push_side (ids : list Z) (deck : DeckData) :
  fold_left (fun d z => push_id d in_side (JS.Number z)) ids deck
  = {| main := main deck; extra := extra deck;
       side := side deck ++ map JS.Number ids |}.
Proof.
  revert deck. induction ids as [|z ids IH]; intros [m e s];
    cbn [fold_left map main extra side]; [rewrite app_nil_r; reflexivity|].
  rewrite IH. cbn [push_id main extra side]. rewrite <- app_assoc. reflexivity.
Qed.

Lemma no_newline_code (s : list Z) :
  Forall (fun c => 45 <= c <= 57) s -> ~ In 10 s.
Proof.
  intros Hs Hin. rewrite List.Forall_forall in Hs. specialize (Hs 10 Hin). lia.
Qed.

Lemma exported_lines (ids : list Z) :
  Forall (fun l => ~ In 10 l) (map Str.toString ids)
  /\ map Str.trim (map Str.toString ids) = map Str.toString ids.
Proof.
  induction ids as [|z ids [IH1 IH2]]; [split; [constructor|reflexivity]|].
  cbn [map]. split.
  - constructor; [apply no_newline_code, toString_codes|exact IH1].
  - rewrite IH2. f_equal. apply trim_no_ws.
    eapply List.Forall_impl; [|apply toString_codes].
    intros c Hc. apply not_whitespace_code, Hc.
Qed.

(** X12: a deck written by [exportYDK] is read back by [parseYDK] as it
    was, section by section and in order: the main, extra and side lists hold
    the identifiers of the cards exported.  Identifiers are integers that a
    double holds exactly (below [2^53] in magnitude), which [String] writes
    in decimal. *)
Theorem parseYDK_exportYDK (mainDeck extraDeck sideDeck : list Card.t) :
  Forall (fun c => Z.abs (Card.id c) < 2 ^ 53) (mainDeck ++ extraDeck ++ sideDeck) ->
  parseYDK (exportYDK mainDeck extraDeck sideDeck)
  = {| main := map (fun c => JS.Number (Card.id c)) mainDeck;
       extra := map (fun c => JS.Number (Card.id c)) extraDeck;
       side := map (fun c => JS.Number (Card.id c)) sideDeck |}.
Proof.
  intros _. unfold parseYDK, exportYDK. cbv zeta.
  rewrite <- !(map_map Card.id Str.toString).
  rewrite <- !(map_map Card.id JS.Number).
  generalize (map Card.id mainDeck) (map Card.id extraDeck) (map Card.id sideDeck).
  intros m e s.
  destruct (exported_lines m) as [Hm1 Hm2].
  destruct (exported_lines e) as [He1 He2].
  destruct (exported_lines s) as [Hs1 Hs2].
  rewrite split_join.
  2:{ discriminate. }
  2:{ repeat (apply Forall_app; split); try assumption;
      repeat constructor; vm_compute; intuition discriminate. }
  rewrite !map_app, Hm2, He2, Hs2.
  change (map Str.trim [Str.lit "#created by DuelMath"; Str.lit "#main"])
    with [Str.lit "#created by DuelMath"; Str.lit "#main"].
  change (map Str.trim [Str.lit "#extra"]) with [Str.lit "#extra"].
  change (map Str.trim [Str.lit "!side"]) with [Str.lit "!side"].
  cbn [app fold_left].
  change (parseYDK_line (parseYDK_line (empty_deck, None)
                           (Str.lit "#created by DuelMath")) (Str.lit "#main"))
    with (empty_deck, Some in_main).
  rewrite parseYDK_ids, push_main. cbn [app fold_left].
  match goal with
  | |- context [parseYDK_line (?d, Some in_main) (Str.lit "#extra")] =>
      change (parseYDK_line (d, Some in_main) (Str.lit "#extra"))
        with (d, Some in_extra)
  end.
  rewrite parseYDK_ids, push_extra. cbn [app fold_left].
  match goal with
  | |- context [parseYDK_line (?d, Some in_extra) (Str.lit "!side")] =>
      change (parseYDK_line (d, Some in_extra) (Str.lit "!side"))
        with (d, Some in_side)
  end.
  rewrite <- (app_nil_r (map Str.toString s)), parseYDK_ids, push_side.
  reflexivity.
Qed.

Lemma parseYDK_exportYDK_witness :
  let card i := {| Card.id := i; Card.name := Str.lit "Card";
                   Card.type := Str.lit "Effect Monster"; Card.desc := [];
                   Card.ban_tcg := None |} in
  parseYDK (exportYDK [card 89631139; card 89631139; card 46986414]
              [card 23995346] [card 0])
  = {| main := map JS.Number [89631139; 89631139; 46986414];
       extra := map JS.Number [23995346];
       side := map JS.Number [0] |}.
Proof.
  intros card.
  apply (parseYDK_exportYDK [card 89631139; card 89631139; card 46986414]
           [card 23995346] [card 0]).
  repeat constructor; cbn; lia.
Defined.

(** ** Line endings *)

Lemma split_crlf (content : list Z) :
  Forall2 (fun a b => a = b \/ a = b ++ [13])
    (Str.split 10 (crlf content)) (Str.split 10 content).
Proof.
  induction content as [|c rest IH]; [repeat constructor|].
  cbn [crlf Str.split]. destruct (Z.eqb_spec c 10) as [->|Hc].
  - cbn [Str.split]. change (13 =? 10) with false. change (10 =? 10) with true.
    cbv iota. constructor; [right; reflexivity|exact IH].
  - cbn [Str.split]. destruct (Z.eqb_spec c 10); [contradiction|].
    inversion IH as [|a b la lb Hab Hrest Ha Hb]; [repeat constructor|].
    constructor; [|exact Hrest].
    destruct Hab as [->| ->]; [left|right]; reflexivity.
Qed.

Lemma trim_lines_crlf (content : list Z) :
  map Str.trim (Str.split 10 (crlf content)) = map Str.trim (Str.split 10 content).
Proof.
  induction (split_crlf content) as [|a b la lb Hab _ IH]; [reflexivity|].
  cbn [map]. rewrite IH. f_equal.
  destruct Hab as [->| ->]; [reflexivity|]. apply trim_snoc_ws. reflexivity.
Qed.

(** X13: [parseYDK] reads a file with Windows line endings as it reads the
    same file with plain line feeds. *)
Theorem parseYDK_crlf (content : list Z) :
  parseYDK (crlf content) = parseYDK content.
Proof. unfold parseYDK. cbv zeta. rewrite trim_lines_crlf. reflexivity. Qed.

(** ** What the parser stores *)

Lemma parseYDK_line_none (deck : DeckData) (line : list Z) :
  Str.startsWith line (Str.lit "#main") = false ->
  Str.startsWith line (Str.lit "#extra") = false ->
  Str.startsWith line (Str.lit "!side") = false ->
  parseYDK_line (deck, None) line = (deck, None).
Proof.
  intros Hm He Hs. unfold parseYDK_line. rewrite Hm, He, Hs.
  destruct line; reflexivity.
Qed.

(** X14: identifiers are stored only under a section: a file none of whose
    lines, once trimmed, starts with [#main], [#extra] or [!side] gives the
    empty deck, whatever numbers it holds. *)
Theorem parseYDK_without_sections (content : list Z) :
  Forall (fun line =>
            Str.startsWith line (Str.lit "#main") = false
            /\ Str.startsWith line (Str.lit "#extra") = false
            /\ Str.startsWith line (Str.lit "!side") = false)
    (map Str.trim (Str.split 10 content)) ->
  parseYDK content = empty_deck.
Proof.
  unfold parseYDK. cbv zeta.
  induction 1 as [|line lines (Hm & He & Hs) _ IH]; [reflexivity|].
  cbn [fold_left]. rewrite parseYDK_line_none by assumption. exact IH.
Qed.

Lemma parseYDK_without_sections_witness :
  parseYDK (Str.lit "89631139" ++ 10 :: Str.lit "46986414" ++ [10]) = empty_deck.
Proof.
  apply parseYDK_without_sections. vm_compute. repeat constructor.
Defined.

Lemma parseYDK_line_numbers (state : DeckData * option section_name)
    (line : list Z) :
  all_numbers (fst state) -> all_numbers (fst (parseYDK_line state line)).
Proof.
  destruct state as [deck current]. intros Hall. unfold parseYDK_line.
  destruct line as [|c l]; [exact Hall|].
  destruct (Str.startsWith _ _); [exact Hall|].
  destruct (Str.startsWith _ _); [exact Hall|].
  destruct (Str.startsWith _ _); [exact Hall|].
  cbv zeta. destruct current as [current|]; [|exact Hall].
  destruct (JS.is_nan (Str.parseInt (c :: l))) eqn:Hnan; [exact Hall|].
  cbn [negb fst]. unfold all_numbers in *. destruct deck as [m e s].
  cbn [main extra side] in Hall.
  apply Forall_app in Hall. destruct Hall as [Hm Hes].
  apply Forall_app in Hes. destruct Hes as [He Hs].
  destruct current; cbn [push_id main extra side];
    repeat (apply Forall_app; split); try assumption;
    repeat constructor; exact Hnan.
Qed.

(** X15: [parseYDK] never stores [NaN]: every entry of the three lists is
    a number read from a line, whatever the file holds. *)
Theorem parseYDK_numbers (content : list Z) :
  Forall (fun i => JS.is_nan i = false)
    (main (parseYDK content) ++ extra (parseYDK content) ++ side (parseYDK content)).
Proof.
  fold (all_numbers (parseYDK content)). unfold parseYDK. cbv zeta.
  generalize (map Str.trim (Str.split 10 content)). intros lines.
  assert (Hinit : all_numbers (fst (empty_deck, @None section_name)))
    by constructor.
  revert Hinit. generalize (empty_deck, @None section_name).
  induction lines as [|line lines IH]; intros state Hstate; [exact Hstate|].
  cbn [fold_left]. apply IH, parseYDK_line_numbers, Hstate.
Qed.

(** * The deck builder *)

Section DeckBuilderFacts.

Import DeckBuilder.

Variable toUpperCase : list Z -> list Z.

Lemma addCard_sections (decks : Decks) (card : Card.t) (target : Target) :
  addCard toUpperCase decks card target = decks
  \/ (exists section,
        section <> Considerations
        /\ checkDeckLimit decks card = true
        /\ (length (getSectionData decks section)
            < match section with Main => 60 | _ => 15 end)%nat
        /\ addCard toUpperCase decks card target
           = match section with
             | Main =>
                 {| mainDeck := mainDeck decks ++ [card];
                    extraDeck := extraDeck decks; sideDeck := sideDeck decks;
                    considerations := considerations decks |}
             | Extra =>
                 {| mainDeck := mainDeck decks;
                    extraDeck := extraDeck decks ++ [card];
                    sideDeck := sideDeck decks;
                    considerations := considerations decks |}
             | _ =>
                 {| mainDeck := mainDeck decks; extraDeck := extraDeck decks;
                    sideDeck := sideDeck decks ++ [card];
                    considerations := considerations decks |}
             end)
  \/ addCard toUpperCase decks card target
     = {| mainDeck := mainDeck decks; extraDeck := extraDeck decks;
          sideDeck := sideDeck decks;
          considerations := considerations decks ++ [card] |}.
Proof.
  unfold addCard.
  destruct target as [|[| | |]]; try (right; right; reflexivity);
    destruct (checkDeckLimit decks card) eqn:Hlimit; cbn [negb];
    try (left; reflexivity).
  1,2,3:
    destruct (isExtraDeckCard toUpperCase card);
    [destruct (Z.ltb_spec (Z.of_nat (length (extraDeck decks))) 15);
       [right; left; exists Extra; repeat split; [discriminate|cbn; lia]
       |left; reflexivity]
    |destruct (Z.ltb_spec (Z.of_nat (length (mainDeck decks))) 60);
       [right; left; exists Main; repeat split; [discriminate|cbn; lia]
       |left; reflexivity]].
  destruct (Z.ltb_spec (Z.of_nat (length (sideDeck decks))) 15);
    [right; left; exists Side; repeat split; [discriminate|cbn; lia]
    |left; reflexivity].
Qed.

(** X16: [addCard] keeps the size limits of the deck builder: a main deck of
    at most 60 cards and extra and side decks of at most 15 stay so, whatever
    card is added and wherever. *)
Theorem addCard_sizes (decks : Decks) (card : Card.t) (target : Target) :
  within_sizes decks -> within_sizes (addCard toUpperCase decks card target).
Proof.
  intros (Hm & He & Hs).
  destruct (addCard_sections decks card target)
    as [->|[(section & Hsec & _ & Hlen & ->)| ->]].
  - repeat split; assumption.
  - destruct section; try contradiction;
      cbn [getSectionData] in Hlen; unfold within_sizes;
      cbn [mainDeck extraDeck sideDeck]; rewrite ?length_app; cbn [length];
      repeat split; lia.
  - repeat split; assumption.
Qed.

Lemma checkDeckLimit_allowed (decks : Decks) (card : Card.t) :
  checkDeckLimit decks card = true ->
  copies decks (Card.name card) < allowed card.
Proof.
  unfold checkDeckLimit, allowed. cbv zeta.
  destruct (bool_decide (Card.ban_tcg card = Some (Str.lit "Forbidden")));
    [discriminate|].
  destruct (bool_decide (Card.ban_tcg card = Some (Str.lit "Limited"))); cbn [andb].
  { destruct (Z.leb_spec 1 (copies decks (Card.name card))); [discriminate|].
    intros _. lia. }
  destruct (bool_decide (Card.ban_tcg card = Some (Str.lit "Semi-Limited")));
    cbn [andb].
  { destruct (Z.leb_spec 2 (copies decks (Card.name card))); [discriminate|].
    intros _. lia. }
  intros H. apply Z.ltb_lt in H. exact H.
Qed.

Lemma filter_length_perm {A : Type} (p : A -> bool) (l l' : list A) :
  Permutation l l' -> length (List.filter p l) = length (List.filter p l').
Proof.
  induction 1 as [|x l l' _ IH|x y l|l l' l'' _ IH1 _ IH2]; cbn [List.filter].
  - reflexivity.
  - destruct (p x); cbn [length]; lia.
  - destruct (p x), (p y); reflexivity.
  - lia.
Qed.

Lemma copies_added (decks decks' : Decks) (card : Card.t) (n : list Z) :
  Permutation (mainDeck decks' ++ extraDeck decks' ++ sideDeck decks')
    (card :: mainDeck decks ++ extraDeck decks ++ sideDeck decks) ->
  copies decks' n
  = copies decks n + (if bool_decide (Card.name card = n) then 1 else 0).
Proof.
  intros Hperm. unfold copies.
  rewrite (filter_length_perm _ _ _ Hperm).
  cbn [List.filter]. destruct (bool_decide (Card.name card = n)); cbn [length]; lia.
Qed.

(** X17: [addCard] changes the number of copies of no other name, and
    raises the copies of the card's own name in the main, extra and side
    decks by at most one and never past what its ban status allows (0 for
    Forbidden, 1 for Limited, 2 for Semi-Limited, 3 otherwise) unless they
    were past it already. *)
Theorem addCard_copies (decks : Decks) (card : Card.t) (target : Target) :
  (forall n, n <> Card.name card ->
             copies (addCard toUpperCase decks card target) n = copies decks n)
  /\ copies decks (Card.name card)
     <= copies (addCard toUpperCase decks card target) (Card.name card)
     <= copies decks (Card.name card) + 1
  /\ copies (addCard toUpperCase decks card target) (Card.name card)
     <= Z.max (copies decks (Card.name card)) (allowed card).
Proof.
  destruct (addCard_sections decks card target)
    as [->|[(section & Hsec & Hlimit & _ & ->)| ->]].
  - split; [reflexivity|]. split; lia.
  - apply checkDeckLimit_allowed in Hlimit.
    assert (Hperm : forall decks',
              decks' = match section with
                       | Main =>
                           {| mainDeck := mainDeck decks ++ [card];
                              extraDeck := extraDeck decks;
                              sideDeck := sideDeck decks;
                              considerations := considerations decks |}
                       | Extra =>
                           {| mainDeck := mainDeck decks;
                              extraDeck := extraDeck decks ++ [card];
                              sideDeck := sideDeck decks;
                              considerations := considerations decks |}
                       | _ =>
                           {| mainDeck := mainDeck decks;
                              extraDeck := extraDeck decks;
                              sideDeck := sideDeck decks ++ [card];
                              considerations := considerations decks |}
                       end ->
              Permutation (mainDeck decks' ++ extraDeck decks' ++ sideDeck decks')
                (card :: mainDeck decks ++ extraDeck decks ++ sideDeck decks)).
    { intros decks' ->. destruct section; cbn [mainDeck extraDeck sideDeck].
      - rewrite <- app_assoc. cbn [app]. symmetry. apply Permutation_middle.
      - rewrite <- !app_assoc. cbn [app].
        rewrite (app_assoc (mainDeck decks)). symmetry.
        rewrite (app_assoc (mainDeck decks)). apply Permutation_middle.
      - rewrite !app_assoc. symmetry. apply Permutation_cons_append.
      - rewrite !app_assoc. symmetry. apply Permutation_cons_append. }
    split.
    + intros n Hn. rewrite (copies_added decks _ card n (Hperm _ eq_refl)).
      destruct (bool_decide_reflect (Card.name card = n)); [congruence|lia].
    + rewrite (copies_added decks _ card _ (Hperm _ eq_refl)).
      destruct (bool_decide_reflect (Card.name card = Card.name card));
        [split; lia|contradiction].
  - split; [reflexivity|]. unfold copies. cbn [mainDeck extraDeck sideDeck].
    split; lia.
Qed.

Lemma without_index_spec {A : Type} (index position : Z) (l : list A) :
  without_index index position l
  = if (position <=? index) && (index <? position + Z.of_nat (length l))
    then firstn (Z.to_nat (index - position)) l
         ++ skipn (S (Z.to_nat (index - position))) l
    else l.
Proof.
  revert position. induction l as [|x l IH]; intros position.
  - cbn [without_index length]. destruct (_ && _); [|reflexivity].
    rewrite firstn_nil, skipn_nil. reflexivity.
  - cbn [without_index]. rewrite IH.
    destruct (Z.eqb_spec position index) as [->|Hne].
    + destruct (Z.leb_spec (index + 1) index); [lia|]. cbn [andb].
      destruct (Z.leb_spec index index); [|lia].
      destruct (Z.ltb_spec index (index + Z.of_nat (length (x :: l))));
        [|cbn [length] in *; lia].
      cbn [andb]. rewrite Z.sub_diag. reflexivity.
    + cbn [length].
      destruct (Z.leb_spec (position + 1) index);
        destruct (Z.leb_spec position index); try lia; cbn [andb];
        [|reflexivity].
      destruct (Z.ltb_spec index (position + 1 + Z.of_nat (length l)));
        destruct (Z.ltb_spec index (position + Z.of_nat (S (length l))));
        try lia; [|reflexivity].
      replace (Z.to_nat (index - position))
        with (S (Z.to_nat (index - (position + 1)))) by lia.
      reflexivity.
Qed.

(** X18: [removeCard] takes out exactly the card at [index] of the section
    named, when there is one, and nothing otherwise (a negative index or one
    past the end); the three other sections are left as they are. *)
Theorem removeCard_section (decks : Decks) (index : Z) (section : SectionType) :
  getSectionData (removeCard decks index section) section
  = (if (0 <=? index)
        && (index <? Z.of_nat (length (getSectionData decks section)))
     then firstn (Z.to_nat index) (getSectionData decks section)
          ++ skipn (S (Z.to_nat index)) (getSectionData decks section)
     else getSectionData decks section)
  /\ (forall other, other <> section ->
        getSectionData (removeCard decks index section) other
        = getSectionData decks other).
Proof.
  split.
  - destruct section; cbn [removeCard getSectionData mainDeck extraDeck sideDeck
                             considerations];
      rewrite without_index_spec, Z.sub_0_r, Z.add_0_l; reflexivity.
  - intros other Hother. destruct section, other; try contradiction; reflexivity.
Qed.

End DeckBuilderFacts.

(** * Side-deck swaps *)

Section SwapFacts.

Import App.

Variable undefined : Card.t.

Lemma filter_index_seq {A : Type} (d : A) (keep : nat -> bool) (l : list A) :
  forall position,
    filter_index keep position l
    = map (fun i => nth (i - position) l d)
        (List.filter keep (seq position (length l))).
Proof.
  induction l as [|x l IH]; intros position; [reflexivity|].
  cbn [filter_index length seq List.filter]. rewrite IH.
  assert (Hshift :
    map (fun i => nth (i - S position) l d)
      (List.filter keep (seq (S position) (length l)))
    = map (fun i => nth (i - position) (x :: l) d)
        (List.filter keep (seq (S position) (length l)))).
  { apply map_ext_in. intros i Hi. apply filter_In in Hi. destruct Hi as [Hi _].
    apply in_seq in Hi.
    replace (i - position)%nat with (S (i - S position)) by lia. reflexivity. }
  rewrite Hshift. destruct (keep position); [|reflexivity].
  cbn [map]. rewrite Nat.sub_diag. reflexivity.
Qed.

Lemma map_nth_all {A : Type} (d : A) (l : list A) :
  map (fun i => nth i l d) (seq 0 (length l)) = l.
Proof.
  induction l as [|x l IH]; [reflexivity|].
  cbn [length seq map nth]. f_equal.
  rewrite <- seq_shift, map_map. exact IH.
Qed.

Lemma filter_split_perm {A : Type} (p : A -> bool) (l : list A) :
  Permutation l (List.filter (fun x => negb (p x)) l ++ List.filter p l).
Proof.
  induction l as [|x l IH]; [constructor|].
  cbn [List.filter]. destruct (p x); cbn [negb app].
  - rewrite <- Permutation_middle. constructor. exact IH.
  - constructor. exact IH.
Qed.

Lemma has_In (set : list nat) (idx : nat) : has set idx = true <-> In idx set.
Proof.
  unfold has. rewrite existsb_exists. split.
  - intros [x [Hx Heq]]. apply Nat.eqb_eq in Heq. subst. exact Hx.
  - intros H. exists idx. split; [exact H|apply Nat.eqb_refl].
Qed.

Lemma selected_perm (indices : list nat) (n : nat) :
  List.NoDup indices -> Forall (fun idx => (idx < n)%nat) indices ->
  Permutation (List.filter (has indices) (seq 0 n)) indices.
Proof.
  intros Hnd Hrange. apply Permutation.NoDup_Permutation.
  - apply List.NoDup_filter, seq_NoDup.
  - exact Hnd.
  - intros idx. rewrite filter_In, has_In, in_seq.
    rewrite List.Forall_forall in Hrange. split; [tauto|].
    intros H. specialize (Hrange idx H). split; [lia|exact H].
Qed.

(** Keeping the cards off the indices and listing the cards on them
    rearranges the list. *)
Lemma swap_out_perm (indices : list nat) (l : list Card.t) :
  valid_indices indices l ->
  Permutation l
    (filter_index (fun idx => negb (has indices idx)) 0 l
     ++ map (fun idx => nth idx l undefined) indices).
Proof.
  intros [Hnd Hrange].
  rewrite (filter_index_seq undefined).
  rewrite (map_ext (fun i => nth (i - 0) l undefined)
             (fun i => nth i l undefined))
    by (intros i; rewrite Nat.sub_0_r; reflexivity).
  rewrite <- map_app. rewrite <- (map_nth_all undefined l) at 1.
  apply Permutation_map.
  rewrite (filter_split_perm (has indices) (seq 0 (length l))) at 1.
  apply Permutation_app_head, selected_perm; assumption.
Qed.

Lemma cross_perm {A : Type} (a b c d : list A) :
  Permutation ((a ++ b) ++ (c ++ d)) ((a ++ d) ++ (c ++ b)).
Proof.
  rewrite <- !app_assoc. apply Permutation_app_head.
  etransitivity; [apply Permutation_app_comm|].
  rewrite (app_assoc d c b). apply Permutation_app_tail, Permutation_app_comm.
Qed.

(** X19: a confirmed swap of as many side cards as main cards, the indices
    being distinct positions of the two lists, loses and repeats no card:
    the new main and side decks together are a rearrangement of the old
    ones, each keeps its size, the extra deck is untouched, the counts are
    the new sizes, and the selection is cleared. *)
Theorem confirmSwap_rearranges (state : SwapState) (analysis : DeckAnalysis) :
  deckAnalysis state = Some analysis ->
  length (swapInIndices state) = length (swapOutIndices state) ->
  valid_indices (swapOutIndices state) (mainDetails analysis) ->
  valid_indices (swapInIndices state) (sideDetails analysis) ->
  exists analysis',
    deckAnalysis (confirmSwap undefined state) = Some analysis'
    /\ Permutation (mainDetails analysis' ++ sideDetails analysis')
         (mainDetails analysis ++ sideDetails analysis)
    /\ length (mainDetails analysis') = length (mainDetails analysis)
    /\ length (sideDetails analysis') = length (sideDetails analysis)
    /\ extraDetails analysis' = extraDetails analysis
    /\ main (counts analysis') = Z.of_nat (length (mainDetails analysis))
    /\ side (counts analysis') = Z.of_nat (length (sideDetails analysis))
    /\ swapOutIndices (confirmSwap undefined state) = []
    /\ swapInIndices (confirmSwap undefined state) = [].
Proof.
  intros Hdeck Hsize Hout Hin. unfold confirmSwap. rewrite Hdeck, Hsize.
  rewrite Nat.eqb_refl. cbn [negb]. cbv zeta.
  pose proof (swap_out_perm _ _ Hout) as Pm.
  pose proof (swap_out_perm _ _ Hin) as Ps.
  pose proof (Permutation_length Pm) as Lm.
  pose proof (Permutation_length Ps) as Ls.
  rewrite length_app, length_map in Lm, Ls.
  eexists. split; [reflexivity|].
  cbn [mainDetails sideDetails extraDetails counts main side deckAnalysis
         swapOutIndices swapInIndices].
  rewrite !length_app, !length_map.
  repeat split; try lia.
  rewrite Pm at 2. rewrite Ps at 2. apply cross_perm.
Qed.

End SwapFacts.

(** * The dashboard table *)

(** X20: with a deck of at most 60 main-deck cards loaded, at least one card
    name selected and a hand of 1 up to the deck size, the table the
    dashboard stores in [probResults] starts with the row of zero copies, and
    the chance of at least zero copies it shows is exactly [100]. *)
Theorem probResults_first_row (analysis : App.DeckAnalysis)
    (selectedCards : gset (list Z)) (handSize : Z) :
  size selectedCards <> 0%nat ->
  0 < handSize <= Z.of_nat (length (App.mainDetails analysis)) ->
  (length (App.mainDetails analysis) <= 60)%nat ->
  exists row rest,
    App.probResults (Some analysis) selectedCards handSize = row :: rest
    /\ drawCount row = 0
    /\ cumulativeAtLeast row = JS.Number 100.
Proof.
  intros Hsel Hhand Hdeck. unfold App.probResults, App.targetCopiesFound.
  destruct (Nat.eqb_spec (size selectedCards) 0); [contradiction|].
  destruct (Z.leb_spec handSize 0); [lia|]. cbn [orb].
  apply calculateProbabilities_head.
  - pose proof (List.filter_length_le
                  (fun c => bool_decide (Card.name c ∈ selectedCards))
                  (App.mainDetails analysis)).
    lia.
  - lia.
  - apply finite_total_upto_60; lia.
Qed.

Lemma probResults_first_row_witness :
  let card n := {| Card.id := 1; Card.name := [n];
                   Card.type := Str.lit "Spell Card"; Card.desc := [];
                   Card.ban_tcg := None |} in
  let analysis :=
    {| App.mainDetails := [card 65; card 66; card 65; card 67];
       App.extraDetails := []; App.sideDetails := [];
       App.counts := {| App.main := 4; App.extra := 0; App.side := 0 |} |} in
  exists row rest,
    App.probResults (Some analysis) {[ [65] ]} 2 = row :: rest
    /\ drawCount row = 0
    /\ cumulativeAtLeast row = JS.Number 100.
Proof.
  intros card analysis.
  apply (probResults_first_row analysis {[ [65] ]} 2).
  - rewrite size_singleton. discriminate.
  - cbn. lia.
  - cbn. lia.
Defined.

(** * The tournament log *)

Section TournamentFacts.

Import TournamentTracker.

Lemma insert_by_round_perm (r : TournamentReport) (l : list TournamentReport) :
  Permutation (insert_by_round r l) (r :: l).
Proof.
  induction l as [|x l IH]; cbn [insert_by_round]; [reflexivity|].
  destruct (round r <=? round x); [reflexivity|].
  rewrite IH. apply perm_swap.
Qed.

Lemma sort_by_round_perm (l : list TournamentReport) :
  Permutation (sort_by_round l) l.
Proof.
  induction l as [|x l IH]; [reflexivity|].
  cbn [sort_by_round fold_right]. fold (sort_by_round l).
  rewrite insert_by_round_perm. constructor. exact IH.
Qed.

Lemma insert_by_round_ascending (r : TournamentReport) (l : list TournamentReport) :
  ascending l -> ascending (insert_by_round r l).
Proof.
  induction l as [|x l IH]; intros Hl; cbn [insert_by_round]; [exact I|].
  destruct (Z.leb_spec (round r) (round x)) as [Hle|Hgt].
  - split; [exact Hle|exact Hl].
  - destruct l as [|y l].
    + cbn [insert_by_round ascending]. split; [lia|exact I].
    + destruct Hl as [Hxy Hl]. specialize (IH Hl).
      cbn [insert_by_round] in IH |- *.
      destruct (Z.leb_spec (round r) (round y)).
      * split; [lia|exact IH].
      * split; [exact Hxy|exact IH].
Qed.

Lemma sort_by_round_ascending (l : list TournamentReport) :
  ascending (sort_by_round l).
Proof.
  induction l as [|x l IH]; [exact I|].
  cbn [sort_by_round fold_right]. apply insert_by_round_ascending, IH.
Qed.

Lemma ascending_head (x : TournamentReport) (l : list TournamentReport) :
  ascending (x :: l) -> Forall (fun y => round x <= round y) l.
Proof.
  revert x. induction l as [|y l IH]; intros x Hl; [constructor|].
  destruct Hl as [Hxy Hl]. constructor; [exact Hxy|].
  eapply List.Forall_impl; [|apply IH, Hl]. intros z Hz. cbn in Hz. lia.
Qed.

Lemma ascending_tail (x : TournamentReport) (l : list TournamentReport) :
  ascending (x :: l) -> ascending l.
Proof. destruct l; [intros _; exact I|intros [_ H]; exact H]. Qed.

Lemma filter_all {A : Type} (p : A -> bool) (l : list A) :
  (forall x, In x l -> p x = true) -> List.filter p l = l.
Proof.
  intros H. induction l as [|x l IH]; [reflexivity|].
  cbn [List.filter]. rewrite H by (left; reflexivity). f_equal. apply IH.
  intros y Hy. apply H. right. exact Hy.
Qed.

(** Sorting a sorted list with one more report at its end. *)
Lemma sort_appended (r : TournamentReport) (l : list TournamentReport) :
  ascending l ->
  sort_by_round (l ++ [r])
  = List.filter (fun x => round x <=? round r) l
    ++ r :: List.filter (fun x => negb (round x <=? round r)) l.
Proof.
  induction l as [|x l IH]; intros Hl; [reflexivity|].
  pose proof (ascending_head x l Hl) as Hhead.
  cbn [app sort_by_round fold_right]. fold (sort_by_round (l ++ [r])).
  rewrite (IH (ascending_tail x l Hl)). cbn [List.filter].
  destruct (Z.leb_spec (round x) (round r)) as [Hle|Hgt]; cbn [negb].
  - destruct (List.filter (fun y => round y <=? round r) l) as [|y b] eqn:Hb.
    + cbn [app insert_by_round].
      destruct (Z.leb_spec (round x) (round r)); [reflexivity|lia].
    + cbn [app insert_by_round].
      assert (Hy : In y (y :: b)) by (left; reflexivity).
      rewrite <- Hb in Hy. apply filter_In in Hy. destruct Hy as [Hy _].
      rewrite List.Forall_forall in Hhead. specialize (Hhead y Hy).
      destruct (Z.leb_spec (round x) (round y)); [reflexivity|lia].
  - assert (Hnone : List.filter (fun y => round y <=? round r) l = []).
    { apply filter_none. intros y Hy.
      rewrite List.Forall_forall in Hhead. specialize (Hhead y Hy).
      destruct (Z.leb_spec (round y) (round r)); [lia|reflexivity]. }
    assert (Hall : List.filter (fun y => negb (round y <=? round r)) l = l).
    { apply filter_all. intros y Hy.
      rewrite List.Forall_forall in Hhead. specialize (Hhead y Hy).
      destruct (Z.leb_spec (round y) (round r)); [lia|reflexivity]. }
    rewrite Hnone, Hall. cbn [app insert_by_round].
    destruct (Z.leb_spec (round x) (round r)); [lia|].
    destruct l as [|y l]; [reflexivity|]. cbn [insert_by_round].
    inversion Hhead as [|y' l' Hy _]; subst.
    destruct (Z.leb_spec (round x) (round y)); [reflexivity|lia].
Qed.

(** X21: after [handleAddReport] the reports are in ascending order of
    round, they are the old reports and the new one, and the form moves on
    to the number of reports plus one; when the old reports were in order,
    the new report stands after those of the same or an earlier round and
    before the later ones, which keep their order. *)
Theorem handleAddReport_ordered (reports : list TournamentReport) (form : Form)
    (now : Z) :
  let newReport :=
    {| id := Str.toString now; round := form_round form;
       matchup := form_matchup form; wonDiceRoll := form_wonDiceRoll form;
       result := form_result form; notes := form_notes form;
       timestamp := now |} in
  let updated := fst (handleAddReport reports form now) in
  ascending updated
  /\ Permutation updated (reports ++ [newReport])
  /\ snd (handleAddReport reports form now) = Z.of_nat (length reports) + 2
  /\ (ascending reports ->
      updated
      = List.filter (fun x => round x <=? round newReport) reports
        ++ newReport
           :: List.filter (fun x => negb (round x <=? round newReport)) reports).
Proof.
  intros newReport updated. subst updated. unfold handleAddReport.
  fold newReport. cbn [fst snd]. repeat apply conj.
  - apply sort_by_round_ascending.
  - apply sort_by_round_perm.
  - rewrite (Permutation_length (sort_by_round_perm _)), length_app.
    cbn [length]. lia.
  - apply sort_appended.
Qed.

Lemma handleAddReport_ordered_witness :
  let report n :=
    {| id := Str.toString n; round := n; matchup := []; wonDiceRoll := true;
       result := win; notes := []; timestamp := n |} in
  let form :=
    {| form_round := 2; form_matchup := []; form_wonDiceRoll := false;
       form_result := loss; form_notes := [] |} in
  map round (fst (handleAddReport [report 1; report 2; report 3] form 9))
  = [1; 2; 2; 3].
Proof.
  intros report form.
  destruct (handleAddReport_ordered [report 1; report 2; report 3] form 9)
    as (_ & _ & _ & Hplace).
  rewrite Hplace; [reflexivity|]. cbn. lia.
Defined.

Lemma win_or_loss (reports : list TournamentReport) :
  (length (List.filter is_win reports) + length (List.filter is_loss reports))%nat
  = length reports.
Proof.
  induction reports as [|r reports IH]; [reflexivity|].
  cbn [List.filter]. unfold is_win at 1, is_loss at 1.
  destruct (result r); cbn [length]; lia.
Qed.

Lemma filter_result_count (reports : list TournamentReport) :
  length (List.filter is_win reports)
  = count_occ Result_eq_dec (map result reports) win
  /\ length (List.filter is_loss reports)
     = count_occ Result_eq_dec (map result reports) loss.
Proof.
  induction reports as [|r reports [IHw IHl]]; [split; reflexivity|].
  cbn [List.filter map count_occ]. unfold is_win at 1, is_loss at 1.
  destruct (result r); cbn [length];
    destruct (Result_eq_dec _ _) as [Heq|Hne]; try discriminate Heq;
    try (exfalso; apply Hne; reflexivity);
    destruct (Result_eq_dec _ _) as [Heq'|Hne']; try discriminate Heq';
    try (exfalso; apply Hne'; reflexivity); split; congruence.
Qed.

(** X22: the record [getRecord] shows is the decimal number of the reports
    whose result is a win, the text [" - "] and the decimal number of the
    reports whose result is a loss, and the two numbers add up to the number
    of reports logged; [deleteReport] lowers that number by the reports that
    bear the identifier, and by nothing when none does. *)
Theorem getRecord_accounts (reports : list TournamentReport) (i : list Z) :
  let wins := Z.of_nat (count_occ Result_eq_dec (map result reports) win) in
  let losses := Z.of_nat (count_occ Result_eq_dec (map result reports) loss) in
  getRecord reports = Str.toString wins ++ Str.lit " - " ++ Str.toString losses
  /\ wins + losses = Z.of_nat (length reports)
  /\ (length (deleteReport reports i)
      + length (List.filter (fun r => bool_decide (id r = i)) reports))%nat
     = length reports
  /\ (Forall (fun r => id r <> i) reports -> deleteReport reports i = reports).
Proof.
  intros wins losses. subst wins losses.
  destruct (filter_result_count reports) as [Hw Hl].
  split; [|split; [|split]].
  - unfold getRecord. rewrite Hw, Hl. reflexivity.
  - rewrite <- Hw, <- Hl. pose proof (win_or_loss reports). lia.
  - clear Hw Hl. unfold deleteReport.
    induction reports as [|r reports IH]; [reflexivity|].
    cbn [List.filter]. destruct (bool_decide (id r = i)); cbn [negb length]; lia.
  - intros Hnone. unfold deleteReport. apply filter_all.
    intros r Hr. rewrite List.Forall_forall in Hnone. specialize (Hnone r Hr).
    destruct (bool_decide_reflect (id r = i)); [contradiction|reflexivity].
Qed.

Lemma getRecord_accounts_witness :
  let report n res :=
    {| id := Str.toString n; round := n; matchup := []; wonDiceRoll := true;
       result := res; notes := []; timestamp := n |} in
  deleteReport [report 1 win; report 2 loss] (Str.lit "7")
  = [report 1 win; report 2 loss].
Proof.
  intros report.
  destruct (getRecord_accounts [report 1 win; report 2 loss] (Str.lit "7"))
    as (_ & _ & _ & Hsame).
  apply Hsame. repeat constructor; vm_compute; discriminate.
Defined.

End TournamentFacts.

(** * Further witnesses *)

Lemma calculateSwissStandings_shape_witness :
  length (calculateSwissStandings 64 6) = 7%nat
  /\ count (standing 64 6 0) = count (standing 64 6 6).
Proof.
  destruct (calculateSwissStandings_shape 64 6) as (Hlen & _ & Hmirror).
  split; [exact Hlen|].
  apply (Hmirror (standing 64 6 6) (standing 64 6 0));
    [apply in_calculateSwissStandings; lia
    |apply in_calculateSwissStandings; lia
    |reflexivity].
Defined.

Lemma addCard_sizes_witness :
  let card :=
    {| Card.id := 89631139; Card.name := Str.lit "Blue-Eyes White Dragon";
       Card.type := Str.lit "Normal Monster"; Card.desc := [];
       Card.ban_tcg := None |} in
  let decks :=
    {| DeckBuilder.mainDeck := [card]; DeckBuilder.extraDeck := [];
       DeckBuilder.sideDeck := []; DeckBuilder.considerations := [] |} in
  DeckBuilder.within_sizes
    (DeckBuilder.addCard (fun s => s) decks card DeckBuilder.Auto).
Proof.
  intros card decks. apply addCard_sizes.
  unfold DeckBuilder.within_sizes. cbn. lia.
Defined.

Lemma addCard_copies_witness :
  let card :=
    {| Card.id := 55144522; Card.name := Str.lit "Pot of Greed";
       Card.type := Str.lit "Spell Card"; Card.desc := [];
       Card.ban_tcg := Some (Str.lit "Forbidden") |} in
  let decks :=
    {| DeckBuilder.mainDeck := []; DeckBuilder.extraDeck := [];
       DeckBuilder.sideDeck := []; DeckBuilder.considerations := [] |} in
  DeckBuilder.copies
    (DeckBuilder.addCard (fun s => s) decks card DeckBuilder.Auto)
    (Card.name card) <= 0.
Proof.
  intros card decks.
  apply (proj2 (proj2 (addCard_copies (fun s => s) decks card DeckBuilder.Auto))).
Defined.

Lemma removeCard_section_witness :
  let card i :=
    {| Card.id := i; Card.name := []; Card.type := []; Card.desc := [];
       Card.ban_tcg := None |} in
  let decks :=
    {| DeckBuilder.mainDeck := [card 1; card 2; card 3];
       DeckBuilder.extraDeck := [card 4]; DeckBuilder.sideDeck := [];
       DeckBuilder.considerations := [] |} in
  DeckBuilder.getSectionData
    (DeckBuilder.removeCard decks 1 DeckBuilder.Main) DeckBuilder.Extra
  = [card 4].
Proof.
  intros card decks.
  apply (proj2 (removeCard_section decks 1 DeckBuilder.Main)). discriminate.
Defined.

Lemma confirmSwap_rearranges_witness :
  let card i :=
    {| Card.id := i; Card.name := []; Card.type := []; Card.desc := [];
       Card.ban_tcg := None |} in
  let analysis :=
    {| App.mainDetails := [card 1; card 2; card 3];
       App.extraDetails := []; App.sideDetails := [card 4; card 5];
       App.counts := {| App.main := 3; App.extra := 0; App.side := 2 |} |} in
  let state :=
    {| App.deckAnalysis := Some analysis; App.swapOutIndices := [2%nat];
       App.swapInIndices := [0%nat]; App.isSideDeckMode := true |} in
  exists analysis',
    App.deckAnalysis (App.confirmSwap (card 0) state) = Some analysis'
    /\ length (App.mainDetails analysis') = 3%nat
    /\ length (App.sideDetails analysis') = 2%nat.
Proof.
  intros card analysis state.
  destruct (confirmSwap_rearranges (card 0) state analysis eq_refl eq_refl)
    as (analysis' & Hdeck & _ & Hmain & Hside & _).
  - split; [repeat constructor; intros []|repeat constructor].
  - split; [repeat constructor; intros []|repeat constructor].
  - exists analysis'. repeat split; assumption.
Defined.

(** * The chance map has an entry for every record *)

Lemma nth_error_Zrange_down (hi : Z) (len i : nat) :
  (i < len)%nat -> nth_error (Zrange_down hi len) i = Some (hi - Z.of_nat i).
Proof.
  revert hi i. induction len as [|len IH]; intros hi i Hi; [lia|].
  destruct i as [|i]; cbn [Zrange_down nth_error].
  - f_equal. lia.
  - rewrite IH by lia. f_equal. lia.
Qed.

Lemma nth_error_calculateSwissStandings (numPlayers numRounds w : Z) :
  0 <= w <= numRounds ->
  nth_error (calculateSwissStandings numPlayers numRounds)
    (Z.to_nat (numRounds - w))
  = Some (standing numPlayers numRounds w).
Proof.
  intros Hw. rewrite calculateSwissStandings_map, nth_error_map.
  rewrite nth_error_Zrange_down by lia. cbn [option_map]. do 2 f_equal. lia.
Qed.

(** X23: when the first loop of [calculateTopXProbability] ends, the chance
    map holds an entry exactly for the win counts [0], ..., [totalRounds]: the
    fallback [|| 0] of the second loop never stands for a missing entry as
    long as the final wins do not exceed the rounds, and the entry of [w] wins
    is the one computed from the buckets of more wins. *)
Theorem makeItChanceMap_entries (totalPlayers totalRounds targetRank w : Z) :
  (0 <= w <= totalRounds ->
   makeItChanceMap totalPlayers totalRounds targetRank !! w
   = Some (bucket_chance (JS.Number targetRank)
             (cumulative_before (calculateSwissStandings totalPlayers totalRounds)
                (Z.to_nat (totalRounds - w)))
             (count (standing totalPlayers totalRounds w))))
  /\ (w < 0 \/ totalRounds < w ->
      makeItChanceMap totalPlayers totalRounds targetRank !! w = None).
Proof.
  split.
  - intros Hw.
    apply (makeItChanceMap_lookup totalPlayers totalRounds targetRank
             (Z.to_nat (totalRounds - w)) (standing totalPlayers totalRounds w)).
    apply nth_error_calculateSwissStandings, Hw.
  - intros Hout. unfold makeItChanceMap.
    rewrite makeItChance_loop_other; [apply lookup_empty|].
    rewrite wins_calculateSwissStandings, in_Zrange_down. lia.
Qed.

Lemma makeItChanceMap_entries_witness :
  makeItChanceMap 64 6 8 !! 6 = Some (JS.Number 1)
  /\ makeItChanceMap 64 6 8 !! 7 = None.
Proof.
  split.
  - rewrite (proj1 (makeItChanceMap_entries 64 6 8 6)) by lia. reflexivity.
  - apply (proj2 (makeItChanceMap_entries 64 6 8 7)). right. lia.
Defined.

(** * Dragging cards *)

Section DragFacts.

Import DeckBuilder Drag.

Variable toUpperCase : list Z -> list Z.

Lemma without_index_length_le {A : Type} (index position : Z) (l : list A) :
  (length (without_index index position l) <= length l)%nat.
Proof.
  revert position. induction l as [|x l IH]; intros position; [reflexivity|].
  cbn [without_index]. destruct (position =? index); cbn [length];
    specialize (IH (position + 1)); lia.
Qed.

Lemma without_index_length_valid {A : Type} (index : Z) (l : list A) :
  0 <= index < Z.of_nat (length l) ->
  S (length (without_index index 0 l)) = length l.
Proof.
  intros Hi. rewrite without_index_spec, Z.sub_0_r, Z.add_0_l.
  destruct (Z.leb_spec 0 index); [|lia].
  destruct (Z.ltb_spec index (Z.of_nat (length l))); [|lia]. cbn [andb].
  rewrite length_app, length_firstn, length_skipn. lia.
Qed.

Lemma removeCard_sizes (decks : Decks) (index : Z) (section : SectionType) :
  within_sizes decks -> within_sizes (removeCard decks index section).
Proof.
  intros (Hm & He & Hs). unfold within_sizes.
  destruct section; cbn [removeCard mainDeck extraDeck sideDeck];
    repeat split; try assumption;
    (etransitivity; [apply without_index_length_le|assumption]).
Qed.

Lemma getSectionData_removeCard_le (decks : Decks) (index : Z)
    (section other : SectionType) :
  (length (getSectionData (removeCard decks index section) other)
   <= length (getSectionData decks other))%nat.
Proof.
  destruct section, other;
    cbn [removeCard getSectionData mainDeck extraDeck sideDeck considerations];
    try reflexivity; apply without_index_length_le.
Qed.

Lemma remove_dragged_sizes (decks : Decks) (item : DragInfo) :
  within_sizes decks -> within_sizes (remove_dragged decks item).
Proof.
  intros Hsizes. unfold remove_dragged.
  destruct (sourceSection item) as [[|source]|]; try exact Hsizes.
  destruct (sourceIndex item); [apply removeCard_sizes|]; exact Hsizes.
Qed.

Lemma splice_insert_length {A : Type} (start : Z) (x : A) (data : list A) :
  length (splice_insert start x data) = S (length data).
Proof.
  unfold splice_insert. cbv zeta.
  rewrite length_app. cbn [length]. rewrite length_firstn, length_skipn. lia.
Qed.

(** Putting [data], one card longer than the target section was, into a
    section that is not full keeps the limits. *)
Lemma setSectionData_sizes (toUpper : list Z -> list Z) (decks removed : Decks)
    (c : Card.t) (targetSection : SectionType) (data : list Card.t) :
  within_sizes removed ->
  refused toUpper decks c targetSection = false ->
  length data = S (length (getSectionData decks targetSection)) ->
  within_sizes (setSectionData removed targetSection data).
Proof.
  intros (Hm & He & Hs) Href Hlen. unfold refused in Href.
  repeat (apply orb_false_iff in Href; destruct Href as [Href ?]).
  unfold within_sizes.
  destruct targetSection;
    cbn [setSectionData getSectionData mainDeck extraDeck sideDeck
           section_eqb andb] in *;
    repeat split; try assumption;
    match goal with
    | H : (_ <=? _) = false |- _ => apply Z.leb_gt in H; lia
    end.
Qed.

(** A card moved inside its section leaves the section as long as it was. *)
Lemma reorder_sizes (decks : Decks) (targetSection : SectionType)
    (data : list Card.t) :
  within_sizes decks ->
  length data = length (getSectionData decks targetSection) ->
  within_sizes (setSectionData decks targetSection data).
Proof.
  intros (Hm & He & Hs) Hlen. unfold within_sizes.
  destruct targetSection;
    cbn [setSectionData getSectionData mainDeck extraDeck sideDeck] in *;
    repeat split; lia.
Qed.

Lemma same_section_eq (source : option Source) (target : SectionType) :
  same_section source target = true -> source = Some (Section target).
Proof.
  unfold same_section. destruct source as [[|s]|]; try discriminate.
  destruct s, target; (reflexivity || discriminate).
Qed.

Lemma splice_one_length_valid {A : Type} (index : Z) (l : list A) :
  0 <= index < Z.of_nat (length l) ->
  S (length (splice_one index l)) = length l.
Proof.
  intros Hi. unfold splice_one. cbv zeta.
  destruct (Z.ltb_spec index 0); [lia|]. rewrite Z.min_l by lia.
  apply without_index_length_valid, Hi.
Qed.

(** X24: dropping a dragged card on a section keeps the size limits of the
    deck builder (60 main, 15 extra, 15 side), provided a card that is moved
    was picked up at a position of its section: a move inside a section
    keeps its size, and a move to a full section is refused. *)
Theorem onDropOnSection_sizes (decks : Decks) (draggedItem : option DragInfo)
    (targetSection : SectionType) :
  within_sizes decks ->
  (forall item, draggedItem = Some item -> picked_up decks item) ->
  within_sizes (fst (onDropOnSection toUpperCase decks draggedItem targetSection)).
Proof.
  intros Hsizes Hpicked. unfold onDropOnSection.
  destruct draggedItem as [item|]; [|exact Hsizes].
  specialize (Hpicked item eq_refl). unfold picked_up in Hpicked.
  destruct (same_section (sourceSection item) targetSection) eqn:Hsame.
  - apply same_section_eq in Hsame. rewrite Hsame in Hpicked.
    destruct (sourceIndex item) as [index|]; [|exact Hsizes]. cbn [fst].
    apply reorder_sizes; [exact Hsizes|].
    rewrite length_app. cbn [length].
    rewrite <- (splice_one_length_valid index _ Hpicked). lia.
  - destruct (refused toUpperCase decks (card item) targetSection) eqn:Href;
      [exact Hsizes|]. cbn [fst].
    apply (setSectionData_sizes toUpperCase decks _ (card item));
      [apply remove_dragged_sizes, Hsizes|exact Href|].
    rewrite length_app. cbn [length]. lia.
Qed.

(** X25: dropping a dragged card on a card of a section keeps the size
    limits as well, wherever the card is put in, and the drag is over unless
    the drop was refused or had no source position: a refused drop leaves
    the decks as they were. *)
Theorem onDropOnCard_sizes (decks : Decks) (draggedItem : option DragInfo)
    (targetSection : SectionType) (targetIndex : Z) :
  within_sizes decks ->
  (forall item, draggedItem = Some item -> picked_up decks item) ->
  within_sizes
    (fst (onDropOnCard toUpperCase decks draggedItem targetSection targetIndex))
  /\ (snd (onDropOnCard toUpperCase decks draggedItem targetSection targetIndex)
      <> None ->
      fst (onDropOnCard toUpperCase decks draggedItem targetSection targetIndex)
      = decks).
Proof.
  intros Hsizes Hpicked. unfold onDropOnCard.
  destruct draggedItem as [item|]; [|split; [exact Hsizes|reflexivity]].
  specialize (Hpicked item eq_refl). unfold picked_up in Hpicked.
  destruct (same_section (sourceSection item) targetSection) eqn:Hsame.
  - apply same_section_eq in Hsame. rewrite Hsame in Hpicked.
    destruct (sourceIndex item) as [index|];
      [|split; [exact Hsizes|reflexivity]].
    cbn [fst snd]. split; [|congruence].
    apply reorder_sizes; [exact Hsizes|].
    rewrite splice_insert_length. apply splice_one_length_valid, Hpicked.
  - destruct (refused toUpperCase decks (card item) targetSection) eqn:Href;
      [split; [exact Hsizes|reflexivity]|].
    cbn [fst snd]. split; [|congruence].
    apply (setSectionData_sizes toUpperCase decks _ (card item));
      [apply remove_dragged_sizes, Hsizes|exact Href|].
    apply splice_insert_length.
Qed.

End DragFacts.

Lemma onDropOnSection_sizes_witness :
  let c :=
    {| Card.id := 89631139; Card.name := Str.lit "Blue-Eyes White Dragon";
       Card.type := Str.lit "Normal Monster"; Card.desc := [];
       Card.ban_tcg := None |} in
  let decks :=
    {| DeckBuilder.mainDeck := [c; c]; DeckBuilder.extraDeck := [];
       DeckBuilder.sideDeck := []; DeckBuilder.considerations := [] |} in
  let item :=
    {| Drag.card := c;
       Drag.sourceSection := Some (Drag.Section DeckBuilder.Main);
       Drag.sourceIndex := Some 0 |} in
  DeckBuilder.within_sizes
    (fst (Drag.onDropOnSection (fun s => s) decks (Some item) DeckBuilder.Side)).
Proof.
  intros c decks item. apply onDropOnSection_sizes.
  - unfold DeckBuilder.within_sizes. cbn. lia.
  - intros item' [= <-]. unfold Drag.picked_up. cbn. lia.
Defined.

Lemma onDropOnCard_sizes_witness :
  let c :=
    {| Card.id := 46986414; Card.name := Str.lit "Dark Magician";
       Card.type := Str.lit "Normal Monster"; Card.desc := [];
       Card.ban_tcg := None |} in
  let decks :=
    {| DeckBuilder.mainDeck := [c]; DeckBuilder.extraDeck := [];
       DeckBuilder.sideDeck := [c]; DeckBuilder.considerations := [] |} in
  let item :=
    {| Drag.card := c;
       Drag.sourceSection := Some (Drag.Section DeckBuilder.Side);
       Drag.sourceIndex := Some 0 |} in
  DeckBuilder.within_sizes
    (fst (Drag.onDropOnCard (fun s => s) decks (Some item) DeckBuilder.Main 0))
  /\ (snd (Drag.onDropOnCard (fun s => s) decks (Some item) DeckBuilder.Main 0)
      <> None ->
      fst (Drag.onDropOnCard (fun s => s) decks (Some item) DeckBuilder.Main 0)
      = decks).
Proof.
  intros c decks item. apply onDropOnCard_sizes.
  - unfold DeckBuilder.within_sizes. cbn. lia.
  - intros item' [= <-]. unfold Drag.picked_up. cbn. lia.
Defined.

(** * Selecting cards for a swap *)

Section ToggleFacts.

Import App.

Lemma has_toggle (set : list nat) (index j : nat) :
  has (toggle set index) j
  = if Nat.eqb index j then negb (has set index) else has set j.
Proof.
  unfold toggle. destruct (has set index) eqn:Hin.
  - cbn [negb]. destruct (Nat.eqb_spec index j) as [->|Hne].
    + apply not_true_is_false. intros Hj. apply has_In in Hj.
      apply filter_In in Hj. destruct Hj as [_ Hj].
      rewrite Nat.eqb_refl in Hj. discriminate.
    + destruct (has set j) eqn:Hj.
      * apply has_In. apply filter_In. split; [apply has_In, Hj|].
        apply negb_true_iff, Nat.eqb_neq, Hne.
      * apply not_true_is_false. intros Hj'. apply has_In in Hj'.
        apply filter_In in Hj'. destruct Hj' as [Hj' _].
        apply has_In in Hj'. congruence.
  - cbn [negb]. unfold has in *. rewrite existsb_app. cbn [existsb].
    rewrite orb_false_r. destruct (Nat.eqb_spec index j) as [->|Hne].
    + rewrite Hin, Nat.eqb_refl. reflexivity.
    + replace (Nat.eqb j index) with false
        by (symmetry; apply Nat.eqb_neq; congruence).
      apply orb_false_r.
Qed.

Lemma toggle_valid {A : Type} (set : list nat) (index : nat) (l : list A) :
  valid_indices set l -> (index < length l)%nat ->
  valid_indices (toggle set index) l.
Proof.
  intros [Hnd Hall] Hindex. unfold toggle, valid_indices.
  destruct (has set index) eqn:Hin.
  - split; [apply List.NoDup_filter, Hnd|].
    apply List.Forall_forall. intros j Hj. apply filter_In in Hj.
    destruct Hj as [Hj _].
    exact (proj1 (List.Forall_forall _ _) Hall j Hj).
  - split.
    + apply (Permutation.Permutation_NoDup (Permutation_cons_append set index)).
      constructor; [|exact Hnd]. intros Hi. apply has_In in Hi. congruence.
    + apply Forall_app. split; [exact Hall|]. constructor; [exact Hindex|constructor].
Qed.

(** X26: [toggleIndividualSwap] flips the selection of the position clicked
    and of no other, in the set of the deck clicked (side or main) and not in
    the other one, and keeps both sets sets of distinct positions of their
    decks: the state it leaves is one [confirmSwap] can work on. *)
Theorem toggleIndividualSwap_selection (state : SwapState)
    (analysis : DeckAnalysis) (index : nat) (isSide : bool) :
  deckAnalysis state = Some analysis ->
  valid_indices (swapOutIndices state) (mainDetails analysis) ->
  valid_indices (swapInIndices state) (sideDetails analysis) ->
  (index < length (if isSide then sideDetails analysis
                   else mainDetails analysis))%nat ->
  let state' := toggleIndividualSwap state index isSide in
  deckAnalysis state' = Some analysis
  /\ valid_indices (swapOutIndices state') (mainDetails analysis)
  /\ valid_indices (swapInIndices state') (sideDetails analysis)
  /\ (forall j,
        has (swapInIndices state') j
        = if isSide && Nat.eqb index j then negb (has (swapInIndices state) j)
          else has (swapInIndices state) j)
  /\ (forall j,
        has (swapOutIndices state') j
        = if negb isSide && Nat.eqb index j
          then negb (has (swapOutIndices state) j)
          else has (swapOutIndices state) j).
Proof.
  intros Hanalysis Hout Hin Hindex state'. subst state'.
  unfold toggleIndividualSwap.
  destruct isSide;
    cbn [deckAnalysis swapOutIndices swapInIndices andb negb];
    (split; [exact Hanalysis|]);
    (split; [first [exact Hout | apply toggle_valid; assumption]|]);
    (split; [first [exact Hin | apply toggle_valid; assumption]|]);
    split; intros j; try reflexivity;
    rewrite has_toggle; destruct (Nat.eqb_spec index j) as [->|]; reflexivity.
Qed.

End ToggleFacts.

Lemma toggleIndividualSwap_selection_witness :
  let c :=
    {| Card.id := 46986414; Card.name := Str.lit "Dark Magician";
       Card.type := Str.lit "Normal Monster"; Card.desc := [];
       Card.ban_tcg := None |} in
  let analysis :=
    {| App.mainDetails := [c; c; c]; App.extraDetails := [];
       App.sideDetails := [c; c];
       App.counts := {| App.main := 3; App.extra := 0; App.side := 2 |} |} in
  let state :=
    {| App.deckAnalysis := Some analysis; App.swapOutIndices := [2%nat];
       App.swapInIndices := []; App.isSideDeckMode := true |} in
  App.swapOutIndices (App.toggleIndividualSwap state 2 false) = []
  /\ App.valid_indices
       (App.swapInIndices (App.toggleIndividualSwap state 1 true))
       (App.sideDetails analysis).
Proof.
  intros c analysis state.
  assert (Hout : App.valid_indices (App.swapOutIndices state)
                   (App.mainDetails analysis)).
  { split; [repeat constructor; intros []|repeat constructor]. }
  assert (Hin : App.valid_indices (App.swapInIndices state)
                  (App.sideDetails analysis)).
  { split; constructor. }
  split; [reflexivity|].
  apply (toggleIndividualSwap_selection state analysis 1 true eq_refl Hout Hin).
  cbn. lia.
Defined.
